(** * Request/response correlation over a worker subprocess

    A shallow embedding of the two versions of the extension's backend
    bridge:

    - [Manager]: the [PythonRequestManager] class with its module-level
      functions [startPythonProcess], [getRequestManager], [sendToPython]
      and [deactivate];
    - [Legacy]: the earlier command-panel bridge of [src/extension.ts],
      where every call registers its own stdout listener;
    - [Webview]: [handleWebviewMessage], the caller of [sendToPython],
      with the messages it posts back to the webview.

    The JavaScript runtime pieces both rely on (JSON values, [JSON.parse],
    promises, timers, the console) are modelled first. *)

From Stdlib Require Import ZArith NArith Ascii String Lia.
From stdpp Require Import gmap list strings pretty.

Set Warnings "-register-all".
Local Open Scope N_scope.

(** ** JavaScript strings

    A JavaScript string is a sequence of UTF-16 code units. *)

Abbreviation jsstring := (list N).

(** A string constant of the source. *)
Definition str (s : string) : jsstring :=
  (fun c => N_of_ascii c) <$> list_ascii_of_string s.

Arguments str : simpl never.

(** JSON text written with single quotes standing for the double quotes of
    the wire format. *)
Definition wire (s : string) : jsstring :=
  (fun c => if (c =? 39)%N then 34 else c) <$> str s.

(** Template-literal rendering of a non-negative integer (below
    [10 ^ 21], from where the runtime switches to exponent notation). *)
Definition num_to_string (n : N) : jsstring := str (pretty n).

(** ** JSON values *)

(** A JavaScript number: an IEEE 754 binary64 value.  A finite value is
    [sig * 2 ^ exp] with its sign, kept in lowest terms ([sig] odd, or
    zero with [exp = 0]). *)
Inductive jsnumber :=
| Finite (neg : bool) (sig : N) (exp : Z)
| Infinity (neg : bool).

Fixpoint odd_part (p : positive) (e : Z) : positive * Z :=
  match p with
  | xO q => odd_part q (e + 1)
  | _ => (p, e)
  end.

Definition finite (neg : bool) (sig : N) (exp : Z) : jsnumber :=
  match sig with
  | N0 => Finite neg 0 0
  | Npos p => let '(q, e) := odd_part p exp in Finite neg (Npos q) e
  end.

(** The binary64 value nearest to [m * 10 ^ e10] (ties to even), as the
    runtime reads a decimal literal. *)
Definition round_decimal (neg : bool) (m : N) (e10 : Z) : jsnumber :=
  if (m =? 0)%N then Finite neg 0 0
  else
    let a := (Z.of_N m * 10 ^ Z.max e10 0)%Z in
    let b := (10 ^ Z.max (- e10) 0)%Z in
    let scaled (e : Z) : Z * Z :=
      if (0 <=? e)%Z then (a, b * 2 ^ e)%Z else (a * 2 ^ (- e), b)%Z in
    let e0 := (Z.log2 a - Z.log2 b - 52)%Z in
    let e1 :=
      let '(num, den) := scaled e0 in
      if (num / den <? 2 ^ 52)%Z then (e0 - 1)%Z else e0 in
    let e := Z.max e1 (-1074) in
    let '(num, den) := scaled e in
    let n := (num / den)%Z in
    let r := (num mod den)%Z in
    let n' :=
      if (den <? 2 * r)%Z then (n + 1)%Z
      else if (2 * r =? den)%Z && Z.odd n then (n + 1)%Z
      else n in
    if (971 <? e)%Z || ((e =? 971)%Z && (n' =? 2 ^ 53)%Z) then Infinity neg
    else finite neg (Z.to_N n') e.

Inductive json :=
| JNull
| JBool (b : bool)
| JNumber (n : jsnumber)
| JString (s : jsstring)
| JArray (elems : list json)
| JObject (fields : list (jsstring * json)).

(** The number value of a non-negative integer below [2 ^ 53]. *)
Definition JInt (n : N) : json := JNumber (finite false n 0).

(** The non-negative integer a number is, if it is one (minus zero is
    zero for the comparisons the program makes). *)
Definition number_to_N (n : jsnumber) : option N :=
  match n with
  | Finite neg sig exp =>
      if (sig =? 0)%N then Some 0%N
      else if neg then None
      else if (0 <=? exp)%Z then Some (sig * 2 ^ Z.to_N exp)%N
      else None
  | Infinity _ => None
  end.

Definition is_zero (n : jsnumber) : bool :=
  match n with
  | Finite _ sig _ => (sig =? 0)%N
  | Infinity _ => false
  end.

(** [ToBoolean] on the values [JSON.parse] can produce. *)
Definition truthy (v : json) : bool :=
  match v with
  | JNull => false
  | JBool b => b
  | JNumber n => negb (is_zero n)
  | JString s => negb (bool_decide (s = []))
  | JArray _ | JObject _ => true
  end.

(** Own-property lookup on a parsed object: with duplicate keys the last
    one wins, as [JSON.parse] builds the object left to right. *)
Fixpoint assoc_last (key : jsstring) (fields : list (jsstring * json))
  : option json :=
  match fields with
  | [] => None
  | (k, v) :: rest =>
      match assoc_last key rest with
      | Some v' => Some v'
      | None => if bool_decide (k = key) then Some v else None
      end
  end.

(** [v.key] for a non-null [v]; [None] is [undefined].  None of the keys
    the program reads ([id], [result], [error]) exists on the prototypes
    of booleans, numbers, strings or arrays. *)
Definition get_prop (v : json) (key : jsstring) : option json :=
  match v with
  | JObject fields => assoc_last key fields
  | _ => None
  end.

(** ** [JSON.parse]

    A recursive-descent reader for the JSON grammar.  [None] stands for
    the [SyntaxError] the built-in throws. *)

Module JSON.

Definition is_ws (c : N) : bool :=
  (c =? 32) || (c =? 9) || (c =? 10) || (c =? 13).

Definition is_digit (c : N) : bool := (48 <=? c) && (c <=? 57).

Definition hex_val (c : N) : option N :=
  if is_digit c then Some (c - 48)
  else if (97 <=? c) && (c <=? 102) then Some (c - 87)
  else if (65 <=? c) && (c <=? 70) then Some (c - 55)
  else None.

Definition unescape (c : N) : option N :=
  if c =? 34 then Some 34          (* quote *)
  else if c =? 92 then Some 92     (* backslash *)
  else if c =? 47 then Some 47     (* slash *)
  else if c =? 98 then Some 8      (* b: backspace *)
  else if c =? 102 then Some 12    (* f: form feed *)
  else if c =? 110 then Some 10    (* n: line feed *)
  else if c =? 114 then Some 13    (* r: carriage return *)
  else if c =? 116 then Some 9     (* t: tab *)
  else None.

Fixpoint skip_ws (s : jsstring) : jsstring :=
  match s with
  | c :: r => if is_ws c then skip_ws r else s
  | [] => []
  end.

(** The characters of a string literal after its opening quote. *)
Fixpoint parse_chars (s : jsstring) (acc : jsstring)
  : option (jsstring * jsstring) :=
  match s with
  | [] => None
  | c :: r =>
      if c =? 34 then Some (rev acc, r)
      else if c =? 92 then
        match r with
        | [] => None
        | e :: r1 =>
            if e =? 117 then
              match r1 with
              | h1 :: h2 :: h3 :: h4 :: r2 =>
                  match hex_val h1, hex_val h2, hex_val h3, hex_val h4 with
                  | Some a, Some b, Some c', Some d =>
                      parse_chars r2 (((a * 16 + b) * 16 + c') * 16 + d :: acc)
                  | _, _, _, _ => None
                  end
              | _ => None
              end
            else
              match unescape e with
              | Some u => parse_chars r1 (u :: acc)
              | None => None
              end
        end
      else if c <? 32 then None
      else parse_chars r (c :: acc)
  end.

Fixpoint take_digits (s : jsstring) : list N * jsstring :=
  match s with
  | c :: r =>
      if is_digit c then let '(ds, r') := take_digits r in (c - 48 :: ds, r')
      else ([], s)
  | [] => ([], [])
  end.

Definition digits_value (ds : list N) : N :=
  foldl (fun a d => 10 * a + d) 0 ds.

Definition parse_number (s : jsstring) : option (jsnumber * jsstring) :=
  let '(neg, s1) :=
    match s with
    | c :: r => if c =? 45 then (true, r) else (false, s)
    | [] => (false, s)
    end in
  let '(ip, s2) := take_digits s1 in
  match ip with
  | [] => None
  | d :: ds =>
      if (d =? 0) && negb (bool_decide (ds = [])) then None
      else
        let frac :=
          match s2 with
          | c :: r =>
              if c =? 46 then
                let '(fp, r') := take_digits r in
                match fp with [] => None | _ => Some (fp, r') end
              else Some ([], s2)
          | [] => Some ([], s2)
          end in
        match frac with
        | None => None
        | Some (fp, s3) =>
            let ex :=
              match s3 with
              | c :: r =>
                  if (c =? 101) || (c =? 69) then
                    let '(eneg, r1) :=
                      match r with
                      | sg :: r' =>
                          if sg =? 45 then (true, r')
                          else if sg =? 43 then (false, r')
                          else (false, r)
                      | [] => (false, r)
                      end in
                    let '(ep, r2) := take_digits r1 in
                    match ep with
                    | [] => None
                    | _ =>
                        let e := Z.of_N (digits_value ep) in
                        Some (if eneg then (- e)%Z else e, r2)
                    end
                  else Some (0%Z, s3)
              | [] => Some (0%Z, s3)
              end in
            match ex with
            | None => None
            | Some (e, s4) =>
                Some (round_decimal neg (digits_value (ip ++ fp))
                        (e - Z.of_nat (length fp)), s4)
            end
        end
  end.

Fixpoint strip_prefix (p s : jsstring) : option jsstring :=
  match p, s with
  | [], _ => Some s
  | a :: p', b :: s' => if a =? b then strip_prefix p' s' else None
  | _ :: _, [] => None
  end.

Fixpoint parse_value (fuel : nat) (s : jsstring) : option (json * jsstring) :=
  match fuel with
  | O => None
  | S fuel =>
      match skip_ws s with
      | [] => None
      | c :: r =>
          if c =? 123 then
            match skip_ws r with
            | c' :: r' =>
                if c' =? 125 then Some (JObject [], r')
                else parse_members fuel r []
            | [] => None
            end
          else if c =? 91 then
            match skip_ws r with
            | c' :: r' =>
                if c' =? 93 then Some (JArray [], r')
                else parse_elements fuel r []
            | [] => None
            end
          else if c =? 34 then
            match parse_chars r [] with
            | Some (text, r') => Some (JString text, r')
            | None => None
            end
          else if (c =? 45) || is_digit c then
            match parse_number (c :: r) with
            | Some (n, r') => Some (JNumber n, r')
            | None => None
            end
          else
            match strip_prefix (str "null") (c :: r) with
            | Some r' => Some (JNull, r')
            | None =>
                match strip_prefix (str "true") (c :: r) with
                | Some r' => Some (JBool true, r')
                | None =>
                    match strip_prefix (str "false") (c :: r) with
                    | Some r' => Some (JBool false, r')
                    | None => None
                    end
                end
            end
      end
  end
with parse_elements (fuel : nat) (s : jsstring) (acc : list json)
  : option (json * jsstring) :=
  match fuel with
  | O => None
  | S fuel =>
      match parse_value fuel s with
      | Some (v, r) =>
          match skip_ws r with
          | c :: r' =>
              if c =? 44 then parse_elements fuel r' (v :: acc)
              else if c =? 93 then Some (JArray (rev (v :: acc)), r')
              else None
          | [] => None
          end
      | None => None
      end
  end
with parse_members (fuel : nat) (s : jsstring) (acc : list (jsstring * json))
  : option (json * jsstring) :=
  match fuel with
  | O => None
  | S fuel =>
      match skip_ws s with
      | c :: r =>
          if c =? 34 then
            match parse_chars r [] with
            | Some (k, r1) =>
                match skip_ws r1 with
                | c1 :: r2 =>
                    if c1 =? 58 then
                      match parse_value fuel r2 with
                      | Some (v, r3) =>
                          match skip_ws r3 with
                          | c3 :: r4 =>
                              if c3 =? 44 then
                                parse_members fuel r4 ((k, v) :: acc)
                              else if c3 =? 125 then
                                Some (JObject (rev ((k, v) :: acc)), r4)
                              else None
                          | [] => None
                          end
                      | None => None
                      end
                    else None
                | [] => None
                end
            | None => None
            end
          else None
      | [] => None
      end
  end.

(** [JSON.parse(text)]: one value, surrounded by optional white space,
    and nothing else. *)
Definition parse (text : jsstring) : option json :=
  match parse_value (2 * length text + 2) text with
  | Some (v, rest) =>
      match skip_ws rest with
      | [] => Some v
      | _ :: _ => None
      end
  | None => None
  end.

End JSON.

(** ** Promises, exceptions and the console *)

(** What a promise is rejected with: any value, or an [Error] object. *)
Inductive reason :=
| ReasonValue (v : json)
| ReasonError (message : jsstring).

Inductive promise_state :=
| Pending
| Fulfilled (value : json)
| Rejected (why : reason).

(** The code path that invoked [resolve] or [reject] (bookkeeping of the
    model: the program does not store it). *)
Inductive via :=
| ViaResult
| ViaRpcError
| ViaMalformed
| ViaTimeout
| ViaTransport
| ViaParseFailure.

(** One invocation of a promise's [resolve] or [reject]. *)
Record settle_call := SettleCall {
  on_promise : nat;
  by_path : via;
  outcome : promise_state }.

Inductive exn := SyntaxError | TypeError.

Definition exn_name (e : exn) : jsstring :=
  match e with
  | SyntaxError => str "SyntaxError"
  | TypeError => str "TypeError"
  end.

(** The request object of an outbound call. *)
Record Request := {
  jsonrpc : jsstring;
  req_id : N;
  method : jsstring;
  params : option json }.

Inductive level := LLog | LWarn | LError.

Inductive logarg :=
| AText (s : jsstring)
| AValue (v : option json)
| ARequest (r : Request)
| AExn (e : exn).

Record console_entry := ConsoleEntry {
  lvl : level;
  label : jsstring;
  args : list logarg }.

#[global] Instance jsnumber_eq_dec : EqDecision jsnumber.
Proof. solve_decision. Defined.
#[global] Instance via_eq_dec : EqDecision via.
Proof. solve_decision. Defined.
#[global] Instance exn_eq_dec : EqDecision exn.
Proof. solve_decision. Defined.

(** [resolve]/[reject] on promise [p]: only the first invocation changes
    the promise; later ones are ignored by the runtime. *)
Definition settle_promise (p : nat) (o : promise_state)
    (ps : list promise_state) : list promise_state :=
  match ps !! p with
  | Some Pending => <[p := o]> ps
  | _ => ps
  end.

(** The invocations of [resolve]/[reject] of promise [p], and how many
    there were. *)
Definition calls_on (p : nat) (log : list settle_call) : list settle_call :=
  filter (fun c => on_promise c = p) log.

Definition settle_count (p : nat) (log : list settle_call) : nat :=
  length (calls_on p log).

(** A writable stream: [written] lists the requests whose line
    ([JSON.stringify(request)] and a newline) was accepted.  A write to a
    destroyed stream is dropped; it reports its failure asynchronously
    on the stream and does not throw. *)
Record Writable := {
  destroyed : bool;
  written : list Request }.

Definition stream_write (r : Request) (s : Writable) : Writable :=
  if destroyed s then s
  else {| destroyed := false; written := written s ++ [r] |}.

(** The other end of the pipe went away. *)
Definition close_stream (s : Writable) : Writable :=
  {| destroyed := true; written := written s |}.

(** Which stdio streams a spawn yields; they are missing when the child
    could not be spawned. *)
Record Stdio := {
  has_stdin : bool;
  has_stdout : bool;
  has_stderr : bool }.

Definition piped : Stdio :=
  {| has_stdin := true; has_stdout := true; has_stderr := true |}.

(** The counter is a JavaScript number: [n + 1] is exact below [2 ^ 53]
    and rounds back to [n] from there on. *)
Definition MAX_SAFE : N := 2 ^ 53.

Definition increment (n : N) : N := if n <? MAX_SAFE then n + 1 else n.

(** * The request manager *)

Module Manager.

(** [resolve] and [reject] are the two resolving functions of the promise
    that [sendRequest] returns; [promise] stands for the pair. *)
Record PendingRequest := {
  id : N;
  promise : nat;
  timeout : nat }.

Record PythonRequestManager := {
  pendingRequests : gmap N PendingRequest;
  requestId : N;
  process : nat }.

(** The closure [sendRequest] hands to [setTimeout]. *)
Record TimeoutClosure := {
  tc_this : nat;
  tc_id : N;
  tc_method : jsstring;
  tc_timeoutMs : N;
  tc_reject : nat }.

(** A child process object; [stdout] holds the managers whose
    [handleResponse] listens for its data, in registration order. *)
Record ChildProcess := {
  killed : bool;
  exited : bool;
  stdin : option Writable;
  stdout : option (list nat);
  stderr : bool }.

(** The module's two globals, the objects they may point to, and the
    runtime state the code acts on. *)
Record World := {
  pythonProcess : option nat;
  requestManager : option nat;
  processes : list ChildProcess;
  managers : list PythonRequestManager;
  promises : list promise_state;
  timers : gmap nat TimeoutClosure;
  nextTimer : nat;
  console : list console_entry;
  settled : list settle_call }.

Definition init : World :=
  {| pythonProcess := None; requestManager := None;
     processes := []; managers := []; promises := [];
     timers := ∅; nextTimer := 0; console := []; settled := [] |}.

(** ** Primitive effects *)

Definition set_pythonProcess (v : option nat) (w : World) : World :=
  {| pythonProcess := v; requestManager := requestManager w;
     processes := processes w; managers := managers w;
     promises := promises w; timers := timers w; nextTimer := nextTimer w;
     console := console w; settled := settled w |}.

Definition set_requestManager (v : option nat) (w : World) : World :=
  {| pythonProcess := pythonProcess w; requestManager := v;
     processes := processes w; managers := managers w;
     promises := promises w; timers := timers w; nextTimer := nextTimer w;
     console := console w; settled := settled w |}.

Definition set_processes (v : list ChildProcess) (w : World) : World :=
  {| pythonProcess := pythonProcess w; requestManager := requestManager w;
     processes := v; managers := managers w;
     promises := promises w; timers := timers w; nextTimer := nextTimer w;
     console := console w; settled := settled w |}.

Definition set_managers (v : list PythonRequestManager) (w : World) : World :=
  {| pythonProcess := pythonProcess w; requestManager := requestManager w;
     processes := processes w; managers := v;
     promises := promises w; timers := timers w; nextTimer := nextTimer w;
     console := console w; settled := settled w |}.

Definition console_write (l : level) (text : jsstring) (a : list logarg)
    (w : World) : World :=
  {| pythonProcess := pythonProcess w; requestManager := requestManager w;
     processes := processes w; managers := managers w;
     promises := promises w; timers := timers w; nextTimer := nextTimer w;
     console := console w ++ [ConsoleEntry l text a];
     settled := settled w |}.

(** [new Promise(...)]: the handle of the promise created. *)
Definition new_promise (w : World) : nat * World :=
  (length (promises w),
   {| pythonProcess := pythonProcess w; requestManager := requestManager w;
      processes := processes w; managers := managers w;
      promises := promises w ++ [Pending];
      timers := timers w; nextTimer := nextTimer w;
      console := console w; settled := settled w |}).

Definition settle (p : nat) (how : via) (o : promise_state) (w : World)
  : World :=
  {| pythonProcess := pythonProcess w; requestManager := requestManager w;
     processes := processes w; managers := managers w;
     promises := settle_promise p o (promises w);
     timers := timers w; nextTimer := nextTimer w;
     console := console w;
     settled := settled w ++ [SettleCall p how o] |}.

Definition resolve (p : nat) (how : via) (value : json) : World -> World :=
  settle p how (Fulfilled value).

Definition reject (p : nat) (how : via) (why : reason) : World -> World :=
  settle p how (Rejected why).

Definition setTimeout (c : TimeoutClosure) (w : World) : nat * World :=
  (nextTimer w,
   {| pythonProcess := pythonProcess w; requestManager := requestManager w;
      processes := processes w; managers := managers w;
      promises := promises w;
      timers := <[nextTimer w := c]> (timers w);
      nextTimer := S (nextTimer w);
      console := console w; settled := settled w |}).

Definition clearTimeout (h : nat) (w : World) : World :=
  {| pythonProcess := pythonProcess w; requestManager := requestManager w;
     processes := processes w; managers := managers w;
     promises := promises w;
     timers := delete h (timers w);
     nextTimer := nextTimer w;
     console := console w; settled := settled w |}.

(** The map key a value is [SameValueZero]-equal to, if any: the keys of
    [pendingRequests] are the non-negative integers the counter issued. *)
Definition key_of (v : option json) : option N :=
  match v with
  | Some (JNumber n) => number_to_N n
  | _ => None
  end.

Definition Map_get (m : gmap N PendingRequest) (v : option json)
  : option PendingRequest :=
  match key_of v with
  | Some k => m !! k
  | None => None
  end.

Definition Map_delete (v : option json) (m : gmap N PendingRequest)
  : gmap N PendingRequest :=
  match key_of v with
  | Some k => delete k m
  | None => m
  end.

(** [this.pendingRequests] of manager [self]. *)
Definition pending_of (self : nat) (w : World) : gmap N PendingRequest :=
  match managers w !! self with
  | Some this => pendingRequests this
  | None => ∅
  end.

Definition with_pending (f : gmap N PendingRequest -> gmap N PendingRequest)
    (this : PythonRequestManager) : PythonRequestManager :=
  {| pendingRequests := f (pendingRequests this);
     requestId := requestId this; process := process this |}.

Definition update_pending (self : nat)
    (f : gmap N PendingRequest -> gmap N PendingRequest) (w : World) : World :=
  set_managers (alter (with_pending f) self (managers w)) w.

Definition bump_requestId (this : PythonRequestManager)
  : PythonRequestManager :=
  {| pendingRequests := pendingRequests this;
     requestId := increment (requestId this); process := process this |}.

(** [this.process.stdin] of manager [this]. *)
Definition stdin_of (this : PythonRequestManager) (w : World)
  : option Writable :=
  match processes w !! process this with
  | Some proc => stdin proc
  | None => None
  end.

Definition with_stdin (f : Writable -> Writable) (proc : ChildProcess)
  : ChildProcess :=
  {| killed := killed proc; exited := exited proc;
     stdin := f <$> stdin proc; stdout := stdout proc;
     stderr := stderr proc |}.

Definition stdin_write (p : nat) (r : Request) (w : World) : World :=
  set_processes (alter (with_stdin (stream_write r)) p (processes w)) w.

(** ** [PythonRequestManager.handleResponse] *)

Inductive completion :=
| Normal (w : World)
| Throw (e : exn) (w : World).

Definition malformed : reason :=
  ReasonValue (JString (str "No result or error in response")).

(** The body of the [try] block.  [data] is the chunk as text, that is
    [data.toString()]; [self] is the manager the method runs on. *)
Definition handleResponse_try (self : nat) (data : jsstring) (w : World)
  : completion :=
  let rawData := data in
  let w := console_write LLog (str "Raw Python response:") [AText rawData] w in
  match JSON.parse rawData with
  | None => Throw SyntaxError w
  | Some response =>
      let w := console_write LLog (str "Parsed Python response:")
                 [AValue (Some response)] w in
      match response with
      | JNull => Throw TypeError w        (* reading [response.id] *)
      | _ =>
          let response_id := get_prop response (str "id") in
          match Map_get (pending_of self w) response_id with
          | Some pendingRequest =>
              let w := clearTimeout (timeout pendingRequest) w in
              let w := update_pending self (Map_delete response_id) w in
              match get_prop response (str "result") with
              | Some result =>
                  Normal (resolve (promise pendingRequest) ViaResult result w)
              | None =>
                  match get_prop response (str "error") with
                  | Some error =>
                      if truthy error then
                        Normal (reject (promise pendingRequest) ViaRpcError
                                  (ReasonValue error) w)
                      else
                        Normal (reject (promise pendingRequest) ViaMalformed
                                  malformed w)
                  | None =>
                      Normal (reject (promise pendingRequest) ViaMalformed
                                malformed w)
                  end
              end
          | None =>
              Normal (console_write LWarn
                        (str "Received response for unknown request ID:")
                        [AValue response_id] w)
          end
      end
  end.

(** The whole method: the [catch] clause logs and swallows. *)
Definition handleResponse (self : nat) (data : jsstring) (w : World)
  : completion :=
  match handleResponse_try self data w with
  | Normal w' => Normal w'
  | Throw error w' =>
      Normal (console_write LError (str "Failed to parse Python response:")
                [AExn error; AText (str "Raw data:"); AText data] w')
  end.

(** ** [PythonRequestManager.sendRequest] *)

Definition timeout_message (id : N) (method : jsstring) (timeoutMs : N)
  : jsstring :=
  str "Request " ++ num_to_string id ++ str " (" ++ method
  ++ str ") timed out after " ++ num_to_string timeoutMs ++ str "ms".

(** The callback of the timer armed by [sendRequest]. *)
Definition on_timeout (c : TimeoutClosure) (w : World) : World :=
  let w := update_pending (tc_this c) (delete (tc_id c)) w in
  let msg := timeout_message (tc_id c) (tc_method c) (tc_timeoutMs c) in
  let w := console_write LError msg [] w in
  reject (tc_reject c) ViaTimeout (ReasonError msg) w.

Definition sendRequest (self : nat) (method : jsstring)
    (params : option json) (timeoutMs : N) (w : World) : nat * World :=
  match managers w !! self with
  | None => (length (promises w), w)
  | Some this =>
      let '(p, w) := new_promise w in
      let id := requestId this in
      let w := set_managers (alter bump_requestId self (managers w)) w in
      let request :=
        {| jsonrpc := str "2.0"; req_id := id;
           method := method; params := params |} in
      let '(timeout, w) :=
        setTimeout {| tc_this := self; tc_id := id; tc_method := method;
                      tc_timeoutMs := timeoutMs; tc_reject := p |} w in
      let w :=
        update_pending self
          (<[id := {| id := id; promise := p; timeout := timeout |}]>) w in
      match stdin_of this w with
      | Some _ =>
          let w := console_write LLog (str "Sending Python request:")
                     [ARequest request] w in
          (p, stdin_write (process this) request w)
      | None =>
          let w := clearTimeout timeout w in
          let w := update_pending self (delete id) w in
          (p, reject p ViaTransport
                (ReasonValue (JString (str "Python process stdin not available")))
                w)
      end
  end.

(** ** Module-level functions *)

(** [cp.spawn]: a new child process object. *)
Definition spawn (io : Stdio) : ChildProcess :=
  {| killed := false; exited := false;
     stdin := if has_stdin io
              then Some {| destroyed := false; written := [] |} else None;
     stdout := if has_stdout io then Some [] else None;
     stderr := has_stderr io |}.

(** [pythonProcess && !pythonProcess.killed] *)
Definition process_usable (w : World) : bool :=
  match pythonProcess w with
  | Some p =>
      match processes w !! p with
      | Some proc => negb (killed proc)
      | None => false
      end
  | None => false
  end.

(** [io] is the stdio the runtime yields if this call spawns.  Every
    process is spawned here, so every process carries the stderr and exit
    listeners ([on_stderr], [on_exit]) this function attaches. *)
Definition startPythonProcess (io : Stdio) (w : World) : nat * World :=
  match pythonProcess w with
  | Some p =>
      if process_usable w then (p, w)
      else
        let p' := length (processes w) in
        (p', set_pythonProcess (Some p')
               (set_processes (processes w ++ [spawn io]) w))
  | None =>
      let p' := length (processes w) in
      (p', set_pythonProcess (Some p')
             (set_processes (processes w ++ [spawn io]) w))
  end.

Definition on_stderr (data : jsstring) (w : World) : World :=
  console_write LError (str "Python backend error: " ++ data) [] w.

Definition code_to_string (code : option Z) : jsstring :=
  match code with
  | Some c => str (pretty c)
  | None => str "null"
  end.

Definition on_exit (code : option Z) (w : World) : World :=
  let w := console_write LLog
             (str "Python process exited with code " ++ code_to_string code)
             [] w in
  let w := set_pythonProcess None w in
  set_requestManager None w.

Definition add_listener (m : nat) (proc : ChildProcess) : ChildProcess :=
  {| killed := killed proc; exited := exited proc; stdin := stdin proc;
     stdout := (fun ls => ls ++ [m]) <$> stdout proc;
     stderr := stderr proc |}.

(** [new PythonRequestManager(process)] *)
Definition new_manager (p : nat) (w : World) : nat * World :=
  let m := length (managers w) in
  let w :=
    set_managers
      (managers w ++ [{| pendingRequests := ∅; requestId := 1;
                         process := p |}]) w in
  (m, set_processes (alter (add_listener m) p (processes w)) w).

Definition getRequestManager (io : Stdio) (w : World) : nat * World :=
  match requestManager w with
  | Some m =>
      if process_usable w then (m, w)
      else
        let w := set_requestManager None w in
        let '(p, w) := startPythonProcess io w in
        let '(m', w) := new_manager p w in
        (m', set_requestManager (Some m') w)
  | None =>
      let w := set_requestManager None w in
      let '(p, w) := startPythonProcess io w in
      let '(m', w) := new_manager p w in
      (m', set_requestManager (Some m') w)
  end.

Definition sendToPython (method : jsstring) (params : option json)
    (io : Stdio) (w : World) : nat * World :=
  let '(manager, w) := getRequestManager io w in
  sendRequest manager method params 10000 w.

(** [pythonProcess.kill()].  The runtime sets the flag when the signal
    was delivered, which needs a running process; the model sets it
    whenever no exit has been reported, and so does not tell a child that
    never started from a running one.  The program reads the flag of the
    current process only, and [deactivate] clears [pythonProcess] right
    after this call, so nothing the program does depends on the
    difference. *)
Definition kill (proc : ChildProcess) : ChildProcess :=
  {| killed := killed proc || negb (exited proc); exited := exited proc;
     stdin := stdin proc; stdout := stdout proc; stderr := stderr proc |}.

Definition deactivate (w : World) : World :=
  let w :=
    match pythonProcess w with
    | Some p =>
        if process_usable w then
          set_pythonProcess None
            (set_processes (alter kill p (processes w)) w)
        else w
    | None => w
    end in
  set_requestManager None w.

(** ** The event loop

    Everything runs on one loop; an event is a call made by the UI layer
    or a callback the runtime fires.  [Call] is [sendToPython]; its two
    halves, [getRequestManager] and [sendRequest] on a manager, are
    events of their own, so that every invocation of [sendRequest]
    happens in a world some event sequence leads to. *)

Inductive event :=
| Call (method : jsstring) (params : option json) (io : Stdio)
| GetManager (io : Stdio)
| Request (m : nat) (method : jsstring) (params : option json)
    (timeoutMs : N)
| StdoutData (p : nat) (data : jsstring)
| StderrData (p : nat) (data : jsstring)
| StdinClosed (p : nat)
| Exit (p : nat) (code : option Z)
| TimeoutFires (h : nat)
| Deactivate.

(** [emit('data', data)]: the listeners run in registration order; one
    that throws ends the emit. *)
Fixpoint emit_data (listeners : list nat) (data : jsstring) (w : World)
  : completion :=
  match listeners with
  | [] => Normal w
  | m :: rest =>
      match handleResponse m data w with
      | Normal w' => emit_data rest data w'
      | Throw e w' => Throw e w'
      end
  end.

Definition stdout_listeners (p : nat) (w : World) : list nat :=
  match processes w !! p with
  | Some proc => default [] (stdout proc)
  | None => []
  end.

Definition world_of (c : completion) : World :=
  match c with
  | Normal w => w
  | Throw _ w => w
  end.

Definition mark_exited (proc : ChildProcess) : ChildProcess :=
  {| killed := killed proc; exited := true;
     stdin := close_stream <$> stdin proc;
     stdout := stdout proc; stderr := stderr proc |}.

Definition fire (h : nat) (w : World) : World :=
  match timers w !! h with
  | Some c => on_timeout c (clearTimeout h w)
  | None => w
  end.

Definition step (w : World) (e : event) : World :=
  match e with
  | Call method params io => (sendToPython method params io w).2
  | GetManager io => (getRequestManager io w).2
  | Request m method params timeoutMs =>
      (sendRequest m method params timeoutMs w).2
  | StdoutData p data => world_of (emit_data (stdout_listeners p w) data w)
  | StderrData p data =>
      match processes w !! p with
      | Some proc => if stderr proc then on_stderr data w else w
      | None => w
      end
  | StdinClosed p =>
      set_processes (alter (with_stdin close_stream) p (processes w)) w
  | Exit p code =>
      match processes w !! p with
      | Some proc =>
          if exited proc then w
          else on_exit code
                 (set_processes (alter mark_exited p (processes w)) w)
      | None => w
      end
  | TimeoutFires h => fire h w
  | Deactivate => deactivate w
  end.

Definition run (w : World) (es : list event) : World := foldl step w es.

(** ** The bookkeeping invariant

    Every pending entry owns an armed timer whose callback rejects the
    entry's promise; a promise is awaited by exactly one armed timer until
    the first and only invocation of its [resolve]/[reject]. *)

Record Core (w : World) : Prop := {
  core_entry : forall m this k pr,
    managers w !! m = Some this -> pendingRequests this !! k = Some pr ->
    exists c, timers w !! timeout pr = Some c /\ tc_this c = m /\
              tc_id c = k /\ tc_reject c = promise pr /\ id pr = k;
  core_timer : forall h c,
    timers w !! h = Some c ->
    (h < nextTimer w)%nat /\ promises w !! tc_reject c = Some Pending /\
    calls_on (tc_reject c) (settled w) = [];
  core_inj : forall h1 h2 c1 c2,
    timers w !! h1 = Some c1 -> timers w !! h2 = Some c2 ->
    tc_reject c1 = tc_reject c2 -> h1 = h2;
  core_promise : forall p,
    (p < length (promises w))%nat ->
    (exists h c, timers w !! h = Some c /\ tc_reject c = p) \/
    (exists how o, calls_on p (settled w) = [SettleCall p how o] /\
                   promises w !! p = Some o /\ o <> Pending /\
                   how <> ViaParseFailure);
  core_log : forall c,
    c ∈ settled w -> (on_promise c < length (promises w))%nat;
  core_ids : forall m this,
    managers w !! m = Some this ->
    1 <= requestId this /\
    (requestId this < MAX_SAFE ->
     forall k, is_Some (pendingRequests this !! k) -> k < requestId this) }.

(** ** Vocabulary for the statements *)

(** The chunk [data] answers no pending call of manager [self]. *)
Definition orphan (self : nat) (data : jsstring) (w : World) : Prop :=
  forall response,
    JSON.parse data = Some response ->
    Map_get (pending_of self w) (get_prop response (str "id")) = None.

(** The chunk [data] is an envelope for the pending entry [pr] stored
    under key [k] in manager [self]. *)
Definition answers (self : nat) (data : jsstring) (w : World)
    (response : json) (k : N) (pr : PendingRequest) : Prop :=
  JSON.parse data = Some response /\
  key_of (get_prop response (str "id")) = Some k /\
  pending_of self w !! k = Some pr.

(** Nothing but the console differs. *)
Definition unchanged (w w' : World) : Prop :=
  pythonProcess w' = pythonProcess w /\
  requestManager w' = requestManager w /\
  processes w' = processes w /\ managers w' = managers w /\
  promises w' = promises w /\ timers w' = timers w /\
  nextTimer w' = nextTimer w /\ settled w' = settled w.

(** How [handleResponse] settles the call an envelope answers. *)
Definition verdict (response : json) : via * promise_state :=
  match get_prop response (str "result") with
  | Some result => (ViaResult, Fulfilled result)
  | None =>
      match get_prop response (str "error") with
      | Some error =>
          if truthy error then (ViaRpcError, Rejected (ReasonValue error))
          else (ViaMalformed, Rejected malformed)
      | None => (ViaMalformed, Rejected malformed)
      end
  end.

(** The promise [p] was settled by exactly one invocation of its
    [resolve]/[reject], or awaits the one its armed timer will make. *)
Definition settles_once (w : World) (p : nat) : Prop :=
  (exists how o,
     calls_on p (settled w) = [SettleCall p how o] /\
     promises w !! p = Some o /\ o <> Pending /\
     (how = ViaResult \/ how = ViaRpcError \/ how = ViaMalformed \/
      how = ViaTimeout \/ how = ViaTransport)) \/
  (calls_on p (settled w) = [] /\
   promises w !! p = Some Pending /\
   exists h c,
     timers w !! h = Some c /\ tc_reject c = p /\
     (forall h' c', timers w !! h' = Some c' -> tc_reject c' = p ->
                    h' = h) /\
     let msg := timeout_message (tc_id c) (tc_method c) (tc_timeoutMs c) in
     calls_on p (settled (fire h w)) =
       [SettleCall p ViaTimeout (Rejected (ReasonError msg))] /\
     promises (fire h w) !! p = Some (Rejected (ReasonError msg))).

(** What follows a call in the witness of exactly-once settlement: a
    second call, the response to the first, the same response again,
    the timer of the first call (cancelled by then), and the exit of the
    worker. *)
Definition settlement_trace : list event :=
  [Call (str "process_path") None piped;
   StdoutData 0 (wire "{'jsonrpc':'2.0','id':1,'result':'Hello, x!'}"
                 ++ [10]);
   StdoutData 0 (wire "{'jsonrpc':'2.0','id':1,'result':'Hello, x!'}"
                 ++ [10]);
   TimeoutFires 0;
   Exit 0 (Some 0%Z)].

(** One call pending on a fresh worker. *)
Definition one_pending : World :=
  run init [Call (str "say_hello") None piped].

(** What [handleResponse] does with an envelope that answers the pending
    entry [pr] under key [k]. *)
Definition dispatched (self : nat) (response : json) (k : N)
    (pr : PendingRequest) (w w' : World) : Prop :=
  is_Some (timers w !! timeout pr) /\
  timers w' = delete (timeout pr) (timers w) /\
  pending_of self w' = delete k (pending_of self w) /\
  promises w !! promise pr = Some Pending /\
  settle_count (promise pr) (settled w') = 1%nat /\
  (forall result,
     get_prop response (str "result") = Some result ->
     promises w' !! promise pr = Some (Fulfilled result)) /\
  (forall error,
     get_prop response (str "result") = None ->
     get_prop response (str "error") = Some error -> truthy error = true ->
     promises w' !! promise pr = Some (Rejected (ReasonValue error))) /\
  (get_prop response (str "result") = None ->
   (forall error, get_prop response (str "error") = Some error ->
                  truthy error = false) ->
   promises w' !! promise pr =
     Some (Rejected (ReasonValue
                       (JString (str "No result or error in response"))))).


(** A response envelope [ans_data] carrying [ans_result] for the call
    with identifier [ans_id]. *)
Record Answer := {
  ans_id : N;
  ans_data : jsstring;
  ans_result : json }.

(** The call that [a] answers is pending in [w]. *)
Definition outstanding (self : nat) (w : World) (a : Answer) : Prop :=
  exists response pr,
    answers self (ans_data a) w response (ans_id a) pr /\
    get_prop response (str "result") = Some (ans_result a).

(** The call that was pending under [ans_id a] in [w] is, in [w'],
    fulfilled with [ans_result a] by the one invocation of its
    [resolve]. *)
Definition resolved_with_own (self : nat) (w w' : World) (a : Answer)
  : Prop :=
  exists pr,
    pending_of self w !! ans_id a = Some pr /\
    promises w' !! promise pr = Some (Fulfilled (ans_result a)) /\
    calls_on (promise pr) (settled w') =
      [SettleCall (promise pr) ViaResult (Fulfilled (ans_result a))].

(** What a [sendRequest] on manager [self] (whose state is [this])
    allocates in world [w]. *)
Definition allocates_fresh (self : nat) (this : PythonRequestManager)
    (method : jsstring) (params : option json) (timeoutMs : N) (w : World)
  : Prop :=
  let sent := sendRequest self method params timeoutMs w in
  pendingRequests this !! requestId this = None /\
  (forall k, is_Some (pendingRequests this !! k) -> k < requestId this) /\
  (exists this',
     managers sent.2 !! self = Some this' /\
     requestId this' = requestId this + 1 /\
     (is_Some (stdin_of this w) ->
      pendingRequests this' !! requestId this =
        Some {| id := requestId this; promise := sent.1;
                timeout := nextTimer w |})) /\
  (forall es this'',
     managers (run sent.2 es) !! self = Some this'' ->
     requestId this < requestId this'').

(** Three calls issued back to back on a fresh worker, and an answer for
    each. *)
Definition three_calls : list event :=
  [Call (str "say_hello") None piped;
   Call (str "process_path") None piped;
   Call (str "say_hello") None piped].

Definition answer1 : Answer :=
  {| ans_id := 1;
     ans_data := wire "{'jsonrpc':'2.0','id':1,'result':'first'}";
     ans_result := JString (str "first") |}.

Definition answer2 : Answer :=
  {| ans_id := 2;
     ans_data := wire "{'jsonrpc':'2.0','id':2,'result':'second'}";
     ans_result := JString (str "second") |}.

Definition answer3 : Answer :=
  {| ans_id := 3;
     ans_data := wire "{'jsonrpc':'2.0','id':3,'result':'third'}";
     ans_result := JString (str "third") |}.

Definition manager_after_one : PythonRequestManager :=
  {| pendingRequests := {[1 := {| id := 1; promise := 0; timeout := 0 |}]};
     requestId := 2; process := 0 |}.

Definition manager_after_three : PythonRequestManager :=
  {| pendingRequests :=
       <[1 := {| id := 1; promise := 0; timeout := 0 |}]>
         (<[2 := {| id := 2; promise := 1; timeout := 1 |}]>
            (<[3 := {| id := 3; promise := 2; timeout := 2 |}]> ∅));
     requestId := 4; process := 0 |}.

(** What [sendRequest] leaves behind, by the state of the manager's
    stdin at the time of the call. *)
Definition transport_outcome (self : nat) (this : PythonRequestManager)
    (method : jsstring) (params : option json) (timeoutMs : N) (w : World)
  : Prop :=
  let sent := sendRequest self method params timeoutMs w in
  let failure :=
    Rejected (ReasonValue
                (JString (str "Python process stdin not available"))) in
  (stdin_of this w = None ->
   promises sent.2 !! sent.1 = Some failure /\
   calls_on sent.1 (settled sent.2) =
     [SettleCall sent.1 ViaTransport failure] /\
   pending_of self sent.2 !! requestId this = None /\
   timers sent.2 = timers w) /\
  (is_Some (stdin_of this w) ->
   promises sent.2 !! sent.1 = Some Pending /\
   calls_on sent.1 (settled sent.2) = [] /\
   pending_of self sent.2 !! requestId this =
     Some {| id := requestId this; promise := sent.1;
             timeout := nextTimer w |} /\
   timers sent.2 !! nextTimer w =
     Some {| tc_this := self; tc_id := requestId this;
             tc_method := method; tc_timeoutMs := timeoutMs;
             tc_reject := sent.1 |}).

(** One call pending, then the worker closes its end of the stdin
    pipe. *)
Definition stdin_broken : World :=
  run init [Call (str "say_hello") None piped; StdinClosed 0].

(** The two ways the worker is torn down. *)
Definition teardown (w : World) (e : event) : Prop :=
  e = Deactivate \/
  exists p code proc,
    e = Exit p code /\ processes w !! p = Some proc /\
    exited proc = false.

(** What a teardown event [e] does in world [w]. *)
Definition teardown_outcome (w : World) (e : event) : Prop :=
  let w' := step w e in
  pythonProcess w' = None /\ requestManager w' = None /\
  managers w' = managers w /\ promises w' = promises w /\
  settled w' = settled w /\ timers w' = timers w /\
  forall h c,
    timers w !! h = Some c ->
    let failure :=
      Rejected (ReasonError
                  (timeout_message (tc_id c) (tc_method c)
                     (tc_timeoutMs c))) in
    promises w' !! tc_reject c = Some Pending /\
    promises (step w' (TimeoutFires h)) !! tc_reject c = Some failure /\
    calls_on (tc_reject c) (settled (step w' (TimeoutFires h))) =
      [SettleCall (tc_reject c) ViaTimeout failure].

(** Three calls pending on one worker. *)
Definition three_pending : World := run init three_calls.

(** What the exit of process [p] followed by the next
    [getRequestManager] does in world [w]. *)
Definition rebinds (w : World) (p : nat) (code : option Z) (io : Stdio)
  : Prop :=
  let w1 := step w (Exit p code) in
  let got := getRequestManager io w1 in
  (exists proc, processes w1 !! p = Some proc /\ exited proc = true) /\
  pythonProcess w1 = None /\ requestManager w1 = None /\
  got.1 = length (managers w) /\
  requestManager got.2 = Some got.1 /\
  pythonProcess got.2 = Some (length (processes w)) /\
  processes got.2 !! length (processes w) =
    Some (add_listener got.1 (spawn io)) /\
  managers got.2 =
    managers w ++ [{| pendingRequests := ∅; requestId := 1;
                      process := length (processes w) |}] /\
  promises got.2 = promises w /\ timers got.2 = timers w /\
  settled got.2 = settled w.

(** A call, the exit of its worker, and the next call. *)
Definition swapped : World :=
  run init [Call (str "say_hello") None piped; Exit 0 (Some 1%Z);
            Call (str "process_path") None piped].

(** What [handleResponse] does with a chunk [data0] that is not one JSON
    document, and with the chunk [data] that follows it. *)
Definition dropped_whole (self : nat) (data0 data : jsstring) (w : World)
  : Prop :=
  handleResponse self data0 w =
    Normal (console_write LError (str "Failed to parse Python response:")
              [AExn SyntaxError; AText (str "Raw data:"); AText data0]
              (console_write LLog (str "Raw Python response:")
                 [AText data0] w)) /\
  unchanged (world_of (handleResponse self data w))
    (world_of (handleResponse self data
                 (world_of (handleResponse self data0 w)))).

(** The module globals never point at a killed process. *)
Definition Globals (w : World) : Prop :=
  forall p, pythonProcess w = Some p ->
    exists proc, processes w !! p = Some proc /\ killed proc = false.

Definition Inv (w : World) : Prop := Core w /\ Globals w.

(** How a world relates to an earlier one: promises are only added, an
    armed timer is either an old one, unmodified, or belongs to a newer
    promise, and a manager keeps its process while its counter never
    decreases and no identifier below the counter comes back into its
    pending set. *)
Definition manager_evolves (this this' : PythonRequestManager) : Prop :=
  requestId this <= requestId this' /\ process this' = process this /\
  forall k, k < requestId this -> pendingRequests this !! k = None ->
            pendingRequests this' !! k = None.

Definition evolves (w w' : World) : Prop :=
  (length (promises w) <= length (promises w'))%nat /\
  (forall h c, timers w' !! h = Some c ->
     timers w !! h = Some c \/ (length (promises w) <= tc_reject c)%nat) /\
  (forall m this, managers w !! m = Some this ->
     exists this', managers w' !! m = Some this' /\
                   manager_evolves this this').

(** Handing a list of chunks, one by one, to a manager's
    [handleResponse]. *)
Definition deliver (self : nat) (chunks : list jsstring) (w : World)
  : World :=
  foldl (fun w data => world_of (handleResponse self data w)) w chunks.

(** The worlds the program can be in. *)
Definition reachable (w : World) : Prop := exists es, w = run init es.

(** As many calls, back to back on one worker, as it takes the counter
    to reach [2 ^ 53] and the last of them to be given that value. *)
Definition saturating_calls : list event :=
  replicate (N.to_nat MAX_SAFE) (Call (str "say_hello") None piped).

(** The identifier the next call on manager [self] is given belongs to
    a call that is still pending: the counter stays where it is, the new
    call's entry replaces the pending one, and both promises are
    pending. *)
Definition reuses_identifier (self : nat) (method : jsstring)
    (params : option json) (timeoutMs : N) (w : World) : Prop :=
  exists this pr this',
    managers w !! self = Some this /\
    pendingRequests this !! requestId this = Some pr /\
    promises w !! promise pr = Some Pending /\
    managers (sendRequest self method params timeoutMs w).2 !! self =
      Some this' /\
    requestId this' = requestId this /\
    pendingRequests this' !! requestId this =
      Some {| id := requestId this;
              promise := (sendRequest self method params timeoutMs w).1;
              timeout := nextTimer w |} /\
    (sendRequest self method params timeoutMs w).1 <> promise pr /\
    promises (sendRequest self method params timeoutMs w).2
      !! (sendRequest self method params timeoutMs w).1 = Some Pending /\
    promises (sendRequest self method params timeoutMs w).2
      !! promise pr = Some Pending /\
    ~ allocates_fresh self this method params timeoutMs w.
End Manager.

(** * The legacy command-panel bridge ([src/extension.ts]) *)

Module Legacy.

(** A child process object; [stdout] holds the [dataHandler] closures
    listening for its data, in registration order.  Each call creates
    its own closure, which captures the call's [resolve]/[reject]: a
    closure is identified by the promise of its call. *)
Record ChildProcess := {
  killed : bool;
  exited : bool;
  stdin : option Writable;
  stdout : option (list nat);
  stderr : bool }.

Record World := {
  pythonProcess : option nat;
  processes : list ChildProcess;
  promises : list promise_state;
  console : list console_entry;
  settled : list settle_call }.

Definition init : World :=
  {| pythonProcess := None; processes := []; promises := [];
     console := []; settled := [] |}.

Definition set_pythonProcess (v : option nat) (w : World) : World :=
  {| pythonProcess := v; processes := processes w;
     promises := promises w; console := console w; settled := settled w |}.

Definition set_processes (v : list ChildProcess) (w : World) : World :=
  {| pythonProcess := pythonProcess w; processes := v;
     promises := promises w; console := console w; settled := settled w |}.

Definition console_write (l : level) (text : jsstring) (a : list logarg)
    (w : World) : World :=
  {| pythonProcess := pythonProcess w; processes := processes w;
     promises := promises w;
     console := console w ++ [ConsoleEntry l text a];
     settled := settled w |}.

Definition new_promise (w : World) : nat * World :=
  (length (promises w),
   {| pythonProcess := pythonProcess w; processes := processes w;
      promises := promises w ++ [Pending];
      console := console w; settled := settled w |}).

Definition settle (p : nat) (how : via) (o : promise_state) (w : World)
  : World :=
  {| pythonProcess := pythonProcess w; processes := processes w;
     promises := settle_promise p o (promises w);
     console := console w;
     settled := settled w ++ [SettleCall p how o] |}.

Definition resolve (p : nat) (how : via) (value : json) : World -> World :=
  settle p how (Fulfilled value).

Definition reject (p : nat) (how : via) (why : reason) : World -> World :=
  settle p how (Rejected why).

Definition spawn (io : Stdio) : ChildProcess :=
  {| killed := false; exited := false;
     stdin := if has_stdin io
              then Some {| destroyed := false; written := [] |} else None;
     stdout := if has_stdout io then Some [] else None;
     stderr := has_stderr io |}.

Definition process_usable (w : World) : bool :=
  match pythonProcess w with
  | Some p =>
      match processes w !! p with
      | Some proc => negb (killed proc)
      | None => false
      end
  | None => false
  end.

Definition startPythonProcess (io : Stdio) (w : World) : nat * World :=
  match pythonProcess w with
  | Some p =>
      if process_usable w then (p, w)
      else
        let p' := length (processes w) in
        (p', set_pythonProcess (Some p')
               (set_processes (processes w ++ [spawn io]) w))
  | None =>
      let p' := length (processes w) in
      (p', set_pythonProcess (Some p')
             (set_processes (processes w ++ [spawn io]) w))
  end.

Definition on_exit (code : option Z) (w : World) : World :=
  let w := console_write LLog
             (str "Python process exited with code " ++
              match code with
              | Some c => str (pretty c)
              | None => str "null"
              end) [] w in
  set_pythonProcess None w.

Definition with_stdout (f : list nat -> list nat) (proc : ChildProcess)
  : ChildProcess :=
  {| killed := killed proc; exited := exited proc; stdin := stdin proc;
     stdout := f <$> stdout proc; stderr := stderr proc |}.

Definition with_stdin (f : Writable -> Writable) (proc : ChildProcess)
  : ChildProcess :=
  {| killed := killed proc; exited := exited proc;
     stdin := f <$> stdin proc; stdout := stdout proc;
     stderr := stderr proc |}.

(** [process.stdout.removeListener('data', dataHandler)] for the handler
    of call [p]. *)
Definition removeListener (proc p : nat) (w : World) : World :=
  set_processes
    (alter (with_stdout (filter (fun l => l <> p))) proc (processes w)) w.

Definition has_stdout_stream (proc : nat) (w : World) : bool :=
  match processes w !! proc with
  | Some pr => bool_decide (is_Some (stdout pr))
  | None => false
  end.

Definition malformed : reason :=
  ReasonValue (JString (str "No result or error in response")).

(** The template literal over the caught error: its name; the engine's
    message text that follows the name is not modelled. *)
Definition parse_failure (e : exn) : reason :=
  ReasonValue (JString (str "Failed to parse response: " ++ exn_name e)).

(** The closure [dataHandler] of the call whose promise is [p], created
    against process [proc].  The response's [id] is never read. *)
Definition dataHandler (proc p : nat) (data : jsstring) (w : World)
  : World :=
  match JSON.parse data with
  | None => reject p ViaParseFailure (parse_failure SyntaxError) w
  | Some response =>
      let w := if has_stdout_stream proc w then removeListener proc p w
               else w in
      match response with
      | JNull =>          (* reading [response.result] throws *)
          reject p ViaParseFailure (parse_failure TypeError) w
      | _ =>
          match get_prop response (str "result") with
          | Some result => resolve p ViaResult result w
          | None =>
              match get_prop response (str "error") with
              | Some error =>
                  if truthy error then
                    reject p ViaRpcError (ReasonValue error) w
                  else reject p ViaMalformed malformed w
              | None => reject p ViaMalformed malformed w
              end
          end
      end
  end.

(** [now] is the reading of [Date.now()] during the call. *)
Definition sendToPython (now : N) (method : jsstring)
    (params : option json) (io : Stdio) (w : World) : nat * World :=
  let '(p, w) := new_promise w in
  let '(process, w) := startPythonProcess io w in
  let request :=
    {| jsonrpc := str "2.0"; req_id := now;
       method := method; params := params |} in
  if has_stdout_stream process w then
    let w :=
      set_processes
        (alter (with_stdout (fun ls => ls ++ [p])) process (processes w))
        w in
    match processes w !! process with
    | Some proc =>
        match stdin proc with
        | Some _ =>
            (p, set_processes
                  (alter (with_stdin (stream_write request)) process
                     (processes w)) w)
        | None =>
            (p, reject p ViaTransport
                  (ReasonValue
                     (JString (str "Python process stdin not available")))
                  w)
        end
    | None => (p, w)
    end
  else
    (p, reject p ViaTransport
          (ReasonValue (JString (str "Python process stdout not available")))
          w).

Definition kill (proc : ChildProcess) : ChildProcess :=
  {| killed := killed proc || negb (exited proc); exited := exited proc;
     stdin := stdin proc; stdout := stdout proc; stderr := stderr proc |}.

Definition deactivate (w : World) : World :=
  match pythonProcess w with
  | Some p =>
      if process_usable w then
        set_pythonProcess None
          (set_processes (alter kill p (processes w)) w)
      else w
  | None => w
  end.

Inductive event :=
| Call (now : N) (method : jsstring) (params : option json) (io : Stdio)
| StdoutData (p : nat) (data : jsstring)
| Exit (p : nat) (code : option Z)
| Deactivate.

(** [emit('data', data)] calls the handlers that were registered when
    the emit began, in registration order. *)
Definition emit_data (proc : nat) (listeners : list nat) (data : jsstring)
    (w : World) : World :=
  foldl (fun w p => dataHandler proc p data w) w listeners.

Definition stdout_listeners (p : nat) (w : World) : list nat :=
  match processes w !! p with
  | Some proc => default [] (stdout proc)
  | None => []
  end.

Definition mark_exited (proc : ChildProcess) : ChildProcess :=
  {| killed := killed proc; exited := true;
     stdin := close_stream <$> stdin proc;
     stdout := stdout proc; stderr := stderr proc |}.

Definition step (w : World) (e : event) : World :=
  match e with
  | Call now method params io => (sendToPython now method params io w).2
  | StdoutData p data => emit_data p (stdout_listeners p w) data w
  | Exit p code =>
      match processes w !! p with
      | Some proc =>
          if exited proc then w
          else on_exit code
                 (set_processes (alter mark_exited p (processes w)) w)
      | None => w
      end
  | Deactivate => deactivate w
  end.

Definition run (w : World) (es : list event) : World := foldl step w es.

(** Every registered handler belongs to a promise that exists. *)
Definition listeners_bounded (procs : list ChildProcess) (n : nat) : Prop :=
  forall q proc ls p,
    procs !! q = Some proc -> stdout proc = Some ls -> p ∈ ls ->
    (p < n)%nat.

(** Two calls issued one after the other on a fresh worker, at clock
    readings [now1] and [now2]. *)
Definition two_calls (now1 now2 : N) (method1 method2 : jsstring)
    (params1 params2 : option json) : World :=
  run init [Call now1 method1 params1 piped;
            Call now2 method2 params2 piped].

(** What a [dataHandler] settles its call with on a chunk: the same for
    every call, as nothing of the call enters the decision. *)
Definition chunk_outcome (data : jsstring) : promise_state :=
  match JSON.parse data with
  | None => Rejected (parse_failure SyntaxError)
  | Some JNull => Rejected (parse_failure TypeError)
  | Some response =>
      match get_prop response (str "result") with
      | Some result => Fulfilled result
      | None =>
          match get_prop response (str "error") with
          | Some error =>
              if truthy error then Rejected (ReasonValue error)
              else Rejected malformed
          | None => Rejected malformed
          end
      end
  end.

(** The requests written to the stdin of process [p]. *)
Definition requests_written (p : nat) (w : World) : list Request :=
  match processes w !! p with
  | Some proc =>
      match stdin proc with
      | Some s => written s
      | None => []
      end
  | None => []
  end.

(** What a legacy call that is not rejected at send time has done on
    the worker [q], and what the next chunk [data] on the worker's
    stdout does to its promise [p]. *)
Definition settled_by_any_chunk (p q : nat) (data : jsstring) (w : World)
  : Prop :=
  (exists earlier, stdout_listeners q w = earlier ++ [p]) /\
  exists o,
    o <> Pending /\
    promises (step w (StdoutData q data)) !! p = Some o /\
    forall response result,
      JSON.parse data = Some response ->
      get_prop response (str "result") = Some result ->
      o = Fulfilled result.

End Legacy.

(** * Further vocabulary for the request manager

    Invariants and statement vocabulary about the module-level functions
    ([startPythonProcess], [getRequestManager], [sendToPython],
    [deactivate]), the constructor and the timers. *)

Module Bookkeeping.
Import Manager.

(** Workers and managers are created together, by the one call of
    [new PythonRequestManager(process)] in [getRequestManager] on the
    process [startPythonProcess] has just spawned: manager [m] is bound
    to process [m], it is the only listener the constructor ever put on
    that process's stdout, and the two globals point to the same pair,
    the latest one. *)
Record Paired (w : World) : Prop := {
  paired_bound : process <$> managers w = seq 0 (length (processes w));
  paired_listener : forall p proc,
    processes w !! p = Some proc ->
    stdout proc = Some [p] \/ stdout proc = None;
  paired_globals : requestManager w = pythonProcess w;
  paired_latest : forall p,
    pythonProcess w = Some p -> S p = length (processes w) }.

(** The same, in the vocabulary of the program. *)
Definition paired_up (w : World) : Prop :=
  requestManager w = pythonProcess w /\
  length (managers w) = length (processes w) /\
  (forall p, pythonProcess w = Some p -> S p = length (processes w)) /\
  forall m this,
    managers w !! m = Some this ->
    process this = m /\
    (stdout_listeners m w = [m] \/ stdout_listeners m w = []).

(** [sendToPython] with a manager [m] in place: the call goes to [m]
    with the ten-second timeout, and neither a process nor a manager is
    created. *)
Definition reuses_worker (w : World) (m : nat) (method : jsstring)
    (params : option json) (io : Stdio) : Prop :=
  sendToPython method params io w = sendRequest m method params 10000 w /\
  requestManager (step w (Call method params io)) = Some m /\
  pythonProcess (step w (Call method params io)) = Some m /\
  length (processes (step w (Call method params io))) =
    length (processes w) /\
  length (managers (step w (Call method params io))) =
    length (managers w).

(** The exit listener of process [p] running while another process [p']
    is the current one: both globals are cleared, [p'] is left running
    and [deactivate] no longer reaches it, and the next call spawns yet
    another process. *)
Definition unbound_by_stale_exit (w : World) (p p' : nat)
    (code : option Z) (method : jsstring) (params : option json)
    (io : Stdio) : Prop :=
  pythonProcess (step w (Exit p code)) = None /\
  requestManager (step w (Exit p code)) = None /\
  (exists proc',
     processes (step w (Exit p code)) !! p' = Some proc' /\
     killed proc' = false /\
     processes (run w [Exit p code; Deactivate]) !! p' = Some proc') /\
  pythonProcess (run w [Exit p code; Call method params io]) =
    Some (length (processes w)).

(** A call, [deactivate], and a call again. *)
Definition restarted : list event :=
  [Call (str "say_hello") None piped; Deactivate;
   Call (str "say_hello") None piped].

(** The first worker after [restarted]: killed, its exit not yet
    reported. *)
Definition killed_worker : ChildProcess :=
  {| killed := true; exited := false;
     stdin := Some {| destroyed := false;
                      written := [{| jsonrpc := str "2.0"; req_id := 1;
                                     method := str "say_hello";
                                     params := None |}] |};
     stdout := Some [0%nat]; stderr := true |}.

(** The stdin stream of process [p], and the requests written to it. *)
Definition stdin_at (p : nat) (w : World) : option Writable :=
  match processes w !! p with
  | Some proc => stdin proc
  | None => None
  end.

Definition requests_written (p : nat) (w : World) :=
  match stdin_at p w with
  | Some s => written s
  | None => []
  end.

Definition stdin_open (p : nat) (w : World) : Prop :=
  exists s, stdin_at p w = Some s /\ destroyed s = false.

(** The requests [rs] carry the identifiers 1, 2, 3, ... in this order
    and the protocol tag, and all of them were allocated before the
    counter reached [next]. *)
Definition numbered (next : N) (rs : list _) : Prop :=
  req_id <$> rs = N.of_nat <$> seq 1 (length rs) /\
  Forall (fun r => jsonrpc r = str "2.0") rs /\
  N.of_nat (length rs) < next.

(** What manager [m] has written to its worker: numbered requests, and
    all the requests it allocated as long as the pipe is open. *)
Definition in_order (w : World) (m : nat) (this : PythonRequestManager)
  : Prop :=
  numbered (requestId this) (requests_written m w) /\
  (stdin_open m w ->
   N.of_nat (length (requests_written m w)) + 1 = requestId this).

Definition Ordered (w : World) : Prop :=
  forall m this,
    managers w !! m = Some this -> requestId this < MAX_SAFE ->
    in_order w m this.

(** An armed timer belongs to a call that is still pending: its promise
    is pending and, while the manager's counter is below [2 ^ 53], the
    call's entry is in the manager's [pendingRequests] under the
    identifier the timer's callback deletes. *)
Definition owned (w : World) (h : nat) (c : TimeoutClosure) : Prop :=
  promises w !! tc_reject c = Some Pending /\
  exists this,
    managers w !! tc_this c = Some this /\
    (requestId this < MAX_SAFE ->
     pendingRequests this !! tc_id c =
       Some {| id := tc_id c; promise := tc_reject c; timeout := h |}).

Definition Owned (w : World) : Prop :=
  forall h c, timers w !! h = Some c ->
    exists this,
      managers w !! tc_this c = Some this /\
      (requestId this < MAX_SAFE ->
       pendingRequests this !! tc_id c =
         Some {| id := tc_id c; promise := tc_reject c; timeout := h |}).

(** No manager's counter has reached [2 ^ 53]. *)
Definition below_saturation (w : World) : Prop :=
  Forall (fun this => requestId this < MAX_SAFE) (managers w).

(** Some manager holds an entry for promise [p]. *)
Definition has_entry (w : World) (p : nat) : Prop :=
  exists m k pr, pending_of m w !! k = Some pr /\ promise pr = p.

(** The timer of the pending entry [pr1] fires: its call is rejected
    with the timeout error, and the other pending entry [pr2] (of
    manager [m2], under [k2]) keeps its place, its promise stays
    pending and its timer armed. *)
Definition unaffected_by_timeout (w : World) (pr1 : PendingRequest)
    (m2 : nat) (k2 : N) (pr2 : PendingRequest) : Prop :=
  (exists msg,
     promises (step w (TimeoutFires (timeout pr1))) !! promise pr1 =
       Some (Rejected (ReasonError msg))) /\
  pending_of m2 (step w (TimeoutFires (timeout pr1))) !! k2 = Some pr2 /\
  promises (step w (TimeoutFires (timeout pr1))) !! promise pr2 =
    Some Pending /\
  is_Some (timers w !! timeout pr2) /\
  timers (step w (TimeoutFires (timeout pr1))) !! timeout pr2 =
    timers w !! timeout pr2.

(** The two events that settle a call: the firing of its own timer, and
    a chunk on the stdout of its manager's worker that answers its
    entry. *)
Definition settled_by (w : World) (e : event) (p : nat) : Prop :=
  (exists h c,
     e = TimeoutFires h /\ timers w !! h = Some c /\ tc_reject c = p) \/
  (exists q data response k pr,
     e = StdoutData q data /\ stdout_listeners q w = [q] /\
     answers q data w response k pr /\ promise pr = p).

(** One call pending on a fresh worker, and the closure of its timer. *)
Definition one_call : list event := [Call (str "say_hello") None piped].

Definition first_timer : TimeoutClosure :=
  {| tc_this := 0; tc_id := 1; tc_method := str "say_hello";
     tc_timeoutMs := 10000; tc_reject := 0 |}.

(** What [deactivate] does: both globals are cleared; the process that
    was current, if any, had not been killed before; of the process
    objects nothing changes but, at most, the [killed] flag of that one;
    and a second [deactivate] changes nothing. *)
Definition shuts_down (w : World) : Prop :=
  pythonProcess (deactivate w) = None /\
  requestManager (deactivate w) = None /\
  (forall p, pythonProcess w = Some p ->
     exists proc, processes w !! p = Some proc /\ killed proc = false) /\
  length (processes (deactivate w)) = length (processes w) /\
  (forall q proc,
     processes w !! q = Some proc ->
     exists proc',
       processes (deactivate w) !! q = Some proc' /\
       exited proc' = exited proc /\ stdin proc' = stdin proc /\
       stdout proc' = stdout proc /\ stderr proc' = stderr proc /\
       (pythonProcess w <> Some q -> proc' = proc)) /\
  deactivate (deactivate w) = deactivate w.

End Bookkeeping.

(** * The webview message handler

    [PythonWebviewViewProvider.handleWebviewMessage] is the one caller of
    [sendToPython].  It is an [async] method: what follows its [await]
    runs, as a reaction of the awaited promise, once that promise is
    settled. *)

Module Webview.
Import Manager.

(** The argument of [webview.postMessage]: [{type: 'result', data}] or
    [{type: 'error', data}], the latter with the template literal that
    puts [prefix] before the text of the caught value. *)
Inductive Message :=
| ResultMessage (data : json)
| ErrorMessage (prefix : jsstring) (error : reason).

(** The rest of the handler after [await], waiting on promise
    [awaited]: the view the message came from and the prefix of its
    [catch] clause. *)
Record Continuation := {
  awaited : nat;
  view : nat;
  error_prefix : jsstring }.

(** A call of [postMessage] on the webview of [to_view]; [for_call] is
    bookkeeping of the model: the promise whose reaction made the call. *)
Record Post := {
  to_view : nat;
  for_call : nat;
  content : Message }.

(** The manager's world, the continuations of handlers suspended at
    their [await], in the order they were suspended, and the messages
    posted to the webviews so far. *)
Record UI := {
  world : World;
  awaiting : list Continuation;
  posted : list Post }.

Definition init : UI :=
  {| world := Manager.init; awaiting := []; posted := [] |}.

Definition postMessage (to : nat) (call : nat) (m : Message) (u : UI) : UI :=
  {| world := world u; awaiting := awaiting u;
     posted := posted u ++ [{| to_view := to; for_call := call;
                               content := m |}] |}.

(** The [try]/[catch] around the [await], resumed with the outcome of
    the promise. *)
Definition resume (k : Continuation) (o : promise_state) (u : UI) : UI :=
  match o with
  | Fulfilled result =>
      postMessage (view k) (awaited k) (ResultMessage result) u
  | Rejected error =>
      postMessage (view k) (awaited k)
        (ErrorMessage (error_prefix k) error) u
  | Pending => u
  end.

(** [await sendToPython(method, message.params, this.context)] *)
Definition await_call (method prefix : jsstring) (message : json)
    (view : nat) (io : Stdio) (u : UI) : UI :=
  let '(p, w) :=
    sendToPython method (get_prop message (str "params")) io (world u) in
  {| world := w;
     awaiting := awaiting u ++
                 [{| awaited := p; view := view; error_prefix := prefix |}];
     posted := posted u |}.

(** The synchronous part of the handler.  Reading [message.command] of
    [null] throws, which rejects the promise the [async] method returns;
    no caller looks at that promise.  [command] and [params] exist on no
    prototype of the other values. *)
Definition handleWebviewMessage (message : json) (view : nat) (io : Stdio)
    (u : UI) : UI :=
  match message with
  | JNull => u
  | _ =>
      match get_prop message (str "command") with
      | Some (JString command) =>
          if decide (command = str "sayHello") then
            await_call (str "say_hello") (str "Error: ") message view io u
          else if decide (command = str "processPath") then
            await_call (str "process_path") (str "Error processing path: ")
              message view io u
          else u
      | _ => u
      end
  end.

(** The reactions of one invocation of [resolve]/[reject]: the
    continuations waiting on the promise are resumed in the order they
    were registered.  A later invocation on the same promise finds
    none. *)
Definition react (u : UI) (c : settle_call) : UI :=
  foldl (fun u k => resume k (outcome c) u)
    {| world := world u;
       awaiting := filter (fun k => awaited k <> on_promise c) (awaiting u);
       posted := posted u |}
    (filter (fun k => awaited k = on_promise c) (awaiting u)).

(** A message arriving from the webview of [view] ([io] is the stdio
    the runtime yields if the call it makes spawns the worker), or an
    event of the manager's loop. *)
Inductive event :=
| Incoming (view : nat) (message : json) (io : Stdio)
| Runtime (e : Manager.event).

(** The callback an event runs, to completion. *)
Definition callback (u : UI) (e : event) : UI :=
  match e with
  | Incoming view message io => handleWebviewMessage message view io u
  | Runtime e =>
      {| world := Manager.step (world u) e; awaiting := awaiting u;
         posted := posted u |}
  end.

(** One turn of the event loop: the callback, then the reactions to the
    invocations of [resolve]/[reject] it made. *)
Definition step (u : UI) (e : event) : UI :=
  foldl react (callback u e)
    (drop (length (settled (world u))) (settled (world (callback u e)))).

Definition run (u : UI) (es : list event) : UI := foldl step u es.

(** The method and the error prefix of a message the handler knows. *)
Definition dispatch (message : json) : option (jsstring * jsstring) :=
  match get_prop message (str "command") with
  | Some (JString command) =>
      if decide (command = str "sayHello") then
        Some (str "say_hello", str "Error: ")
      else if decide (command = str "processPath") then
        Some (str "process_path", str "Error processing path: ")
      else None
  | _ => None
  end.

(** The call of [sendToPython] an event makes, if any. *)
Definition call_of (e : event) : option Manager.event :=
  match e with
  | Incoming view message io =>
      match dispatch message with
      | Some (method, _) =>
          Some (Call method (get_prop message (str "params")) io)
      | None => None
      end
  | Runtime e => Some e
  end.

(** What a handler suspended for call [p] posts when resumed with
    outcome [o]. *)
Definition reply (view : nat) (p : nat) (prefix : jsstring)
    (o : promise_state) : list Post :=
  match o with
  | Pending => []
  | Fulfilled result =>
      [{| to_view := view; for_call := p; content := ResultMessage result |}]
  | Rejected error =>
      [{| to_view := view; for_call := p;
          content := ErrorMessage prefix error |}]
  end.

(** The [postMessage] calls the reactions of one outcome make. *)
Definition posts_of (ks : list Continuation) (o : promise_state)
  : list Post :=
  ks ≫= (fun k => reply (view k) (awaited k) (error_prefix k) o).

(** The messages posted for call [p], and the continuations waiting on
    it. *)
Definition replies_for (p : nat) (u : UI) : list Post :=
  filter (fun x => for_call x = p) (posted u).

Definition waiting_on (p : nat) (u : UI) : list Continuation :=
  filter (fun k => awaited k = p) (awaiting u).

(** The state of the call made for a message from [view]: still awaited
    with its ten-second timer armed, or answered by one [postMessage]. *)
Definition answered_once (u : UI) (p : nat) (view : nat)
    (method prefix : jsstring) : Prop :=
  (promises (world u) !! p = Some Pending /\
   replies_for p u = [] /\
   waiting_on p u =
     [{| awaited := p; view := view; error_prefix := prefix |}] /\
   exists h c, timers (world u) !! h = Some c /\ tc_reject c = p /\
               tc_method c = method /\ tc_timeoutMs c = 10000) \/
  (exists o, promises (world u) !! p = Some o /\ o <> Pending /\
             replies_for p u = reply view p prefix o /\
             waiting_on p u = []).

(** Continuations and posts only mention promises that exist. *)
Definition Known (u : UI) : Prop :=
  Forall (fun k => (awaited k < length (promises (world u)))%nat)
    (awaiting u) /\
  Forall (fun x => (for_call x < length (promises (world u)))%nat)
    (posted u).

(** The message the path form of the webview sends, and a worker's
    answer to the first request reporting an error. *)
Definition path_message : json :=
  JObject [(str "command", JString (str "processPath"));
           (str "params", JString (str "/tmp"))].

Definition error_chunk : jsstring :=
  wire "{'jsonrpc':'2.0','id':1,'error':'no such path'}".

Definition error_response : json :=
  JObject [(str "jsonrpc", JString (str "2.0")); (str "id", JInt 1);
           (str "error", JString (str "no such path"))].

(** The closure of the timer armed for the first call, made for
    [path_message]. *)
Definition path_timer : TimeoutClosure :=
  {| tc_this := 0; tc_id := 1; tc_method := str "process_path";
     tc_timeoutMs := 10000; tc_reject := 0 |}.

End Webview.

(** * Further vocabulary for the legacy bridge *)

Module LegacyWorker.
Import Legacy.

(** The module global never points at a killed process. *)
Definition LegacyGlobals (w : World) : Prop :=
  forall p, pythonProcess w = Some p ->
    exists proc, processes w !! p = Some proc /\ killed proc = false.

(** The legacy [sendToPython] with a process in place: it stays the
    current one, no process is spawned, and the promise returned is the
    one the call created. *)
Definition legacy_reuses_worker (w : World) (p : nat) (now : N)
    (method : jsstring) (params : option json) (io : Stdio) : Prop :=
  pythonProcess (step w (Call now method params io)) = Some p /\
  length (processes (step w (Call now method params io))) =
    length (processes w) /\
  (sendToPython now method params io w).1 = length (promises w).

(** What a chunk on the stdout of process [q] does to the [dataHandler]
    closures registered there: a chunk that does not parse leaves the
    process objects, hence every registration, as they were; one that
    parses makes every handler take itself off. *)
Definition listeners_after_chunk (w : World) (q : nat) (data : jsstring)
  : Prop :=
  (JSON.parse data = None ->
   processes (step w (StdoutData q data)) = processes w) /\
  (is_Some (JSON.parse data) ->
   stdout_listeners q (step w (StdoutData q data)) = []).

End LegacyWorker.

Example parse_envelope :
  JSON.parse (wire "{'jsonrpc':'2.0','id':1,'result':'ok'}
") = Some (JObject [(str "jsonrpc", JString (str "2.0"));
                     (str "id", JInt 1);
                     (str "result", JString (str "ok"))]).
Proof. vm_compute. reflexivity. Qed.

(** * Properties of the request manager *)

Section ManagerFacts.
Import Manager.

Lemma calls_on_snoc p log c :
  calls_on p (log ++ [c]) =
  calls_on p log ++ (if decide (on_promise c = p) then [c] else []).
Proof.
  unfold calls_on. rewrite filter_app. reflexivity.
Qed.

Lemma calls_on_nil p log :
  (forall c, c ∈ log -> on_promise c <> p) -> calls_on p log = [].
Proof.
  unfold calls_on. induction log as [|c log IH]; intros Hall; [done|].
  rewrite filter_cons, decide_False by (apply Hall; left).
  apply IH. intros c' Hc'. apply Hall. by right.
Qed.

Lemma settle_promise_length p o ps :
  length (settle_promise p o ps) = length ps.
Proof.
  unfold settle_promise.
  destruct (ps !! p) as [[]|]; auto using length_insert.
Qed.

Lemma settle_promise_other p q o ps :
  p <> q -> settle_promise p o ps !! q = ps !! q.
Proof.
  intros Hne. unfold settle_promise.
  destruct (ps !! p) as [[]|]; auto using list_lookup_insert_ne.
Qed.

Lemma settle_promise_pending p o ps :
  ps !! p = Some Pending -> settle_promise p o ps !! p = Some o.
Proof.
  intros Hp. unfold settle_promise. rewrite Hp.
  apply list_lookup_insert_eq. eapply lookup_lt_Some; eauto.
Qed.

(** A settled promise never changes again. *)
Lemma settle_promise_settled p q o o' ps :
  ps !! q = Some o' -> o' <> Pending -> settle_promise p o ps !! q = Some o'.
Proof.
  intros Hq Hne. destruct (decide (p = q)) as [->|Hpq].
  - unfold settle_promise. rewrite Hq. destruct o'; congruence.
  - rewrite settle_promise_other; auto.
Qed.

(** Changes outside the five tracked components keep the invariant. *)
Lemma core_same w w' :
  Core w ->
  managers w' = managers w -> timers w' = timers w ->
  nextTimer w' = nextTimer w -> promises w' = promises w ->
  settled w' = settled w -> Core w'.
Proof.
  intros [H1 H2 H3 H4 H5 H6] Em Et En Ep Es.
  split; rewrite ?Em, ?Et, ?En, ?Ep, ?Es; assumption.
Qed.

(** A new manager starts with nothing pending. *)
Lemma core_new_manager w w' p :
  Core w ->
  managers w' = managers w ++
    [{| pendingRequests := ∅; requestId := 1; process := p |}] ->
  timers w' = timers w -> nextTimer w' = nextTimer w ->
  promises w' = promises w -> settled w' = settled w -> Core w'.
Proof.
  intros [H1 H2 H3 H4 H5 H6] Em Et En Ep Es.
  split; rewrite ?Em, ?Et, ?En, ?Ep, ?Es; try assumption.
  - intros m this k pr Hm Hk.
    apply lookup_app_Some in Hm as [Hm|[_ Hm]]; [eauto|].
    apply list_lookup_singleton_Some in Hm as [_ <-].
    simpl in Hk. rewrite lookup_empty in Hk. discriminate.
  - intros m this Hm.
    apply lookup_app_Some in Hm as [Hm|[_ Hm]]; [eauto|].
    apply list_lookup_singleton_Some in Hm as [_ <-]. simpl.
    split; [lia|]. intros _ k [x Hx]. rewrite lookup_empty in Hx.
    discriminate.
Qed.

(** Retiring a timer together with the entry it belongs to and invoking
    its promise's [reject] or [resolve]: what both a matched response and
    a timeout do. *)
Lemma core_retire w w' h c how o :
  Core w -> timers w !! h = Some c -> o <> Pending ->
  how <> ViaParseFailure ->
  managers w' =
    alter (with_pending (delete (tc_id c))) (tc_this c) (managers w) ->
  timers w' = delete h (timers w) -> nextTimer w' = nextTimer w ->
  promises w' = settle_promise (tc_reject c) o (promises w) ->
  settled w' = settled w ++ [SettleCall (tc_reject c) how o] ->
  Core w'.
Proof.
  intros [H1 H2 H3 H4 H5 H6] Hh Ho Hhow Em Et En Ep Es.
  destruct (H2 _ _ Hh) as (Hlt & Hpend & Hcalls).
  split; rewrite ?Em, ?Et, ?En, ?Ep, ?Es.
  - intros m this k pr Hm Hk.
    assert (exists this0, managers w !! m = Some this0 /\
              pendingRequests this0 !! k = Some pr /\
              (tc_this c = m -> tc_id c <> k)) as (this0 & Hm0 & Hk0 & Hne).
    { destruct (decide (tc_this c = m)) as [<-|Hne].
      - rewrite list_lookup_alter_eq in Hm.
        destruct (managers w !! tc_this c) as [t|] eqn:E; simplify_eq/=.
        exists t. split; [done|].
        destruct (decide (tc_id c = k)) as [<-|Hk'].
        + rewrite lookup_delete_eq in Hk. done.
        + rewrite lookup_delete_ne in Hk by done. done.
      - rewrite list_lookup_alter_ne in Hm by done.
        exists this. repeat split; [done..|]. intros; congruence. }
    destruct (H1 _ _ _ _ Hm0 Hk0) as (c' & Hc' & Ht & Hi & Hr & Hid).
    exists c'. split; [|done]. rewrite lookup_delete_ne; [done|].
    intros E. rewrite <- E, Hh in Hc'. injection Hc' as ->. by apply Hne.
  - intros h' c' Hc'. apply lookup_delete_Some in Hc' as [Hne Hc'].
    destruct (H2 _ _ Hc') as (? & ? & ?).
    assert (tc_reject c <> tc_reject c') as Hrr.
    { intros E. apply Hne. eapply H3; eauto. }
    split; [done|]. split.
    + rewrite settle_promise_other; done.
    + rewrite calls_on_snoc. simpl. rewrite decide_False by done.
      by rewrite app_nil_r.
  - intros h1 h2 c1 c2 [_ Hc1]%lookup_delete_Some [_ Hc2]%lookup_delete_Some.
    eauto.
  - intros p Hp. rewrite settle_promise_length in Hp.
    destruct (decide (tc_reject c = p)) as [<-|Hne].
    + right. exists how, o. rewrite calls_on_snoc, Hcalls. simpl.
      rewrite decide_True by done.
      rewrite settle_promise_pending by done. done.
    + destruct (H4 p Hp) as [(h' & c' & Hc' & Hr)|(how' & o' & Hl & Hq & ?)].
      * left. exists h', c'. split; [|done].
        rewrite lookup_delete_ne; [done|].
        intros E. rewrite <- E, Hh in Hc'. injection Hc' as ->. done.
      * right. exists how', o'. rewrite calls_on_snoc. simpl.
        rewrite decide_False by done. rewrite app_nil_r.
        rewrite settle_promise_other by done. done.
  - intros c0 [Hin|Hin]%elem_of_app; rewrite settle_promise_length.
    + auto.
    + apply list_elem_of_singleton in Hin as ->. simpl.
      eapply lookup_lt_Some; eauto.
  - intros m this Hm.
    destruct (decide (tc_this c = m)) as [<-|Hne].
    + rewrite list_lookup_alter_eq in Hm.
      destruct (managers w !! tc_this c) as [t|] eqn:E; simplify_eq/=.
      destruct (H6 _ _ E) as [? Hk]. split; [done|].
      intros Hs k [x Hx]. apply lookup_delete_Some in Hx as [_ Hx].
      apply Hk; eauto.
    + rewrite list_lookup_alter_ne in Hm by done. eauto.
Qed.

(** Creating a promise, allocating an identifier, arming a timer and
    recording the entry: the first half of [sendRequest]. *)
Lemma core_arm w w' self this p h c :
  Core w -> managers w !! self = Some this ->
  p = length (promises w) -> h = nextTimer w ->
  tc_this c = self -> tc_id c = requestId this -> tc_reject c = p ->
  managers w' =
    alter (with_pending
             (<[requestId this :=
                  {| id := requestId this; promise := p; timeout := h |}]>))
          self (alter bump_requestId self (managers w)) ->
  timers w' = <[h := c]> (timers w) -> nextTimer w' = S h ->
  promises w' = promises w ++ [Pending] -> settled w' = settled w ->
  Core w'.
Proof.
  intros [H1 H2 H3 H4 H5 H6] Hself -> -> Hct Hci Hcr Em Et En Ep Es.
  assert (forall h' c', timers w !! h' = Some c' ->
            h' <> nextTimer w /\ tc_reject c' <> length (promises w)) as Hold.
  { intros h' c' Hc'. destruct (H2 _ _ Hc') as (? & Hp & _).
    apply lookup_lt_Some in Hp. lia. }
  split; rewrite ?Em, ?Et, ?En, ?Ep, ?Es.
  - intros m this' k pr Hm Hk.
    destruct (decide (self = m)) as [<-|Hne].
    + rewrite !list_lookup_alter_eq, Hself in Hm. simplify_eq/=.
      destruct (decide (requestId this = k)) as [<-|Hk'].
      * rewrite lookup_insert_eq in Hk. simplify_eq/=.
        exists c. rewrite lookup_insert_eq. done.
      * rewrite lookup_insert_ne in Hk by done.
        destruct (H1 _ _ _ _ Hself Hk) as (c' & Hc' & ?).
        exists c'. split; [|done].
        rewrite lookup_insert_ne; [done|]. destruct (Hold _ _ Hc'). congruence.
    + rewrite !list_lookup_alter_ne in Hm by done.
      destruct (H1 _ _ _ _ Hm Hk) as (c' & Hc' & ?).
      exists c'. split; [|done].
      rewrite lookup_insert_ne; [done|]. destruct (Hold _ _ Hc'). congruence.
  - intros h' c' Hc'. apply lookup_insert_Some in Hc' as [[<- <-]|[Hne Hc']].
    + split; [lia|]. rewrite Hcr. split.
      * rewrite lookup_app_r by lia. by rewrite Nat.sub_diag.
      * apply calls_on_nil. intros x Hx%H5. lia.
    + destruct (H2 _ _ Hc') as (? & Hp & ?). split; [lia|]. split; [|done].
      rewrite lookup_app_l; [done|]. by eapply lookup_lt_Some.
  - intros h1 h2 c1 c2 Hc1 Hc2 E.
    apply lookup_insert_Some in Hc1 as [[<- <-]|[? Hc1]];
      apply lookup_insert_Some in Hc2 as [[<- <-]|[? Hc2]]; try done.
    + destruct (Hold _ _ Hc2). congruence.
    + destruct (Hold _ _ Hc1). congruence.
    + eauto.
  - intros p Hp. rewrite length_app in Hp. simpl in Hp.
    destruct (decide (p = length (promises w))) as [->|Hne].
    + left. exists (nextTimer w), c. by rewrite lookup_insert_eq.
    + assert (p < length (promises w))%nat as Hp' by lia.
      destruct (H4 p Hp') as [(h' & c' & Hc' & Hr)|(how' & o' & Hl & Hq & ?)].
      * left. exists h', c'. split; [|done].
        rewrite lookup_insert_ne; [done|]. destruct (Hold _ _ Hc'). congruence.
      * right. exists how', o'. rewrite lookup_app_l by done. done.
  - intros c0 Hin%H5. rewrite length_app. lia.
  - intros m this' Hm.
    destruct (decide (self = m)) as [<-|Hne].
    + rewrite !list_lookup_alter_eq, Hself in Hm. simplify_eq/=.
      destruct (H6 _ _ Hself) as [H1' Hk]. unfold increment.
      destruct (N.ltb_spec (requestId this) MAX_SAFE); [|split; lia].
      split; [lia|]. intros _ k [x Hx].
      apply lookup_insert_Some in Hx as [[<- _]|[_ Hx]]; [lia|].
      assert (k < requestId this) by (apply Hk; eauto). lia.
    + rewrite !list_lookup_alter_ne in Hm by done. eauto.
Qed.

(** ** [handleResponse] *)

Lemma unchanged_trans w1 w2 w3 :
  unchanged w1 w2 -> unchanged w2 w3 -> unchanged w1 w3.
Proof.
  unfold unchanged. intros (?&?&?&?&?&?&?&?) (?&?&?&?&?&?&?&?).
  repeat split; congruence.
Qed.

Lemma core_unchanged w w' : Core w -> unchanged w w' -> Core w'.
Proof. intros Hc (?&?&?&?&?&?&?&?). by eapply core_same. Qed.

Lemma handleResponse_orphan self data w :
  orphan self data w ->
  exists w', handleResponse self data w = Normal w' /\ unchanged w w'.
Proof.
  intros Horph. unfold handleResponse, handleResponse_try.
  destruct (JSON.parse data) as [response|] eqn:Hparse.
  - specialize (Horph _ Hparse).
    destruct response; try (eexists; split; [reflexivity|by repeat split]);
      change (pending_of self (console_write _ _ _ (console_write _ _ _ w)))
        with (pending_of self w); rewrite Horph;
      (eexists; split; [reflexivity|by repeat split]).
  - eexists; split; [reflexivity|by repeat split].
Qed.

Lemma handleResponse_matched self data w response k pr :
  answers self data w response k pr ->
  handleResponse self data w =
  Normal (settle (promise pr) (verdict response).1 (verdict response).2
            (update_pending self (delete k)
               (clearTimeout (timeout pr)
                  (console_write LLog (str "Parsed Python response:")
                     [AValue (Some response)]
                     (console_write LLog (str "Raw Python response:")
                        [AText data] w))))).
Proof.
  intros (Hparse & Hkey & Hpr). unfold handleResponse, handleResponse_try.
  rewrite Hparse.
  assert (forall w0, pending_of self w0 = pending_of self w ->
    match
      match Map_get (pending_of self w0) (get_prop response (str "id")) with
      | Some pendingRequest =>
          let w1 := clearTimeout (timeout pendingRequest) w0 in
          let w2 :=
            update_pending self
              (Map_delete (get_prop response (str "id"))) w1 in
          match get_prop response (str "result") with
          | Some result =>
              Normal (resolve (promise pendingRequest) ViaResult result w2)
          | None =>
              match get_prop response (str "error") with
              | Some error =>
                  if truthy error then
                    Normal (reject (promise pendingRequest) ViaRpcError
                              (ReasonValue error) w2)
                  else
                    Normal (reject (promise pendingRequest) ViaMalformed
                              malformed w2)
              | None =>
                  Normal (reject (promise pendingRequest) ViaMalformed
                            malformed w2)
              end
          end
      | None =>
          Normal (console_write LWarn
                    (str "Received response for unknown request ID:")
                    [AValue (get_prop response (str "id"))] w0)
      end
    with
    | Normal w' => Normal w'
    | Throw error w' =>
        Normal (console_write LError (str "Failed to parse Python response:")
                  [AExn error; AText (str "Raw data:"); AText data] w')
    end =
    Normal (settle (promise pr) (verdict response).1 (verdict response).2
              (update_pending self (delete k)
                 (clearTimeout (timeout pr) w0)))) as Hbody.
  { intros w0 Hw0. unfold Map_get, Map_delete, verdict.
    rewrite Hkey, Hw0, Hpr. cbv zeta.
    destruct (get_prop response (str "result")); [reflexivity|].
    destruct (get_prop response (str "error")) as [e|]; [|reflexivity].
    destruct (truthy e); reflexivity. }
  destruct response; try (apply Hbody; reflexivity).
  simpl in Hkey. discriminate.
Qed.

(** Every chunk either answers a pending call or is an orphan. *)
Lemma answers_or_orphan self data w :
  (exists response k pr, answers self data w response k pr) \/
  orphan self data w.
Proof.
  destruct (JSON.parse data) as [response|] eqn:Hparse.
  - destruct (Map_get (pending_of self w) (get_prop response (str "id")))
      as [pr|] eqn:Hget.
    + left. unfold Map_get in Hget.
      destruct (key_of (get_prop response (str "id"))) as [k|] eqn:Hk;
        [|discriminate].
      exists response, k, pr. done.
    + right. intros r Hr. congruence.
  - right. intros r Hr. congruence.
Qed.

Lemma verdict_settles response :
  (verdict response).2 <> Pending /\
  ((verdict response).1 = ViaResult \/ (verdict response).1 = ViaRpcError \/
   (verdict response).1 = ViaMalformed).
Proof.
  unfold verdict.
  destruct (get_prop response (str "result")); simpl; [by auto|].
  destruct (get_prop response (str "error")) as [e|]; simpl; [|by auto].
  destruct (truthy e); simpl; by auto.
Qed.

Lemma pending_of_Some self w k pr :
  pending_of self w !! k = Some pr ->
  exists this, managers w !! self = Some this /\
               pendingRequests this !! k = Some pr.
Proof.
  unfold pending_of. destruct (managers w !! self) as [this|]; [eauto|].
  rewrite lookup_empty. discriminate.
Qed.

Lemma handleResponse_normal self data w :
  exists w', handleResponse self data w = Normal w'.
Proof.
  unfold handleResponse.
  destruct (handleResponse_try self data w); eauto.
Qed.

Lemma handleResponse_core self data w :
  Core w -> Core (world_of (handleResponse self data w)).
Proof.
  intros Hcore.
  destruct (answers_or_orphan self data w)
    as [(response & k & pr & Hans)|Horph].
  - rewrite (handleResponse_matched _ _ _ _ _ _ Hans). simpl.
    destruct Hans as (_ & _ & Hpr).
    apply pending_of_Some in Hpr as (this & Hthis & Hpr).
    destruct (core_entry _ Hcore _ _ _ _ Hthis Hpr)
      as (c & Hc & <- & <- & Hr & _).
    destruct (verdict_settles response) as [Ho Hhow].
    eapply (core_retire w _ (timeout pr) c); eauto; simpl;
      rewrite ?Hr; try reflexivity.
    destruct Hhow as [E|[E|E]]; rewrite E; done.
  - destruct (handleResponse_orphan _ _ _ Horph) as (w' & -> & Hun).
    simpl. by eapply core_unchanged.
Qed.

(** ** Timeouts *)

Lemma fire_core h w : Core w -> Core (fire h w).
Proof.
  intros Hcore. unfold fire.
  destruct (timers w !! h) as [c|] eqn:Hc; [|done].
  eapply (core_retire w _ h c); eauto; done.
Qed.

(** ** [sendRequest] *)

Lemma sendRequest_core self method params timeoutMs w :
  Core w -> Core (sendRequest self method params timeoutMs w).2.
Proof.
  intros Hcore. unfold sendRequest.
  destruct (managers w !! self) as [this|] eqn:Hthis; [|done].
  simpl.
  set (c := {| tc_this := self; tc_id := requestId this;
               tc_method := method; tc_timeoutMs := timeoutMs;
               tc_reject := length (promises w) |}).
  set (armed :=
         update_pending self
           (<[requestId this :=
                {| id := requestId this; promise := length (promises w);
                   timeout := nextTimer w |}]>)
           (setTimeout c
              (set_managers (alter bump_requestId self (managers w))
                 (new_promise w).2)).2).
  assert (Core armed) as Harmed.
  { eapply (core_arm w armed self this _ _ c); eauto; reflexivity. }
  unfold stdin_of. simpl.
  destruct (processes w !! process this) as [proc|]; simpl;
    [destruct (stdin proc); simpl|].
  - eapply core_same; [exact Harmed|reflexivity..].
  - eapply (core_retire armed _ (nextTimer w) c); eauto; try done.
    simpl. apply lookup_insert_eq.
  - eapply (core_retire armed _ (nextTimer w) c); eauto; try done.
    simpl. apply lookup_insert_eq.
Qed.

(** ** Frame properties: what the handlers leave alone *)

Lemma handleResponse_frame self data w :
  let w' := world_of (handleResponse self data w) in
  pythonProcess w' = pythonProcess w /\
  requestManager w' = requestManager w /\ processes w' = processes w /\
  length (managers w') = length (managers w) /\
  length (promises w') = length (promises w).
Proof.
  destruct (answers_or_orphan self data w)
    as [(response & k & pr & Hans)|Horph].
  - rewrite (handleResponse_matched _ _ _ _ _ _ Hans). simpl.
    rewrite length_alter, settle_promise_length. done.
  - destruct (handleResponse_orphan _ _ _ Horph)
      as (w' & -> & (?&?&?&?&?&?&?&?)).
    simpl. repeat split; congruence.
Qed.

Lemma emit_data_core ls data w :
  Core w -> Core (world_of (emit_data ls data w)).
Proof.
  revert w. induction ls as [|m ls IH]; intros w Hcore; [done|].
  simpl. pose proof (handleResponse_core m data w Hcore) as Hc.
  destruct (handleResponse m data w) as [w'|e w']; simpl in *; auto.
Qed.

Lemma emit_data_frame ls data w :
  let w' := world_of (emit_data ls data w) in
  pythonProcess w' = pythonProcess w /\
  requestManager w' = requestManager w /\ processes w' = processes w.
Proof.
  revert w. induction ls as [|m ls IH]; intros w; [done|].
  simpl. pose proof (handleResponse_frame m data w) as (?&?&?&_).
  destruct (handleResponse m data w) as [w'|e w']; simpl in *.
  - destruct (IH w') as (?&?&?). repeat split; congruence.
  - done.
Qed.

Lemma globals_same w w' :
  Globals w -> pythonProcess w' = pythonProcess w ->
  processes w' = processes w -> Globals w'.
Proof. unfold Globals. intros H -> ->. done. Qed.

Lemma globals_alter w w' f q :
  Globals w -> pythonProcess w' = pythonProcess w ->
  processes w' = alter f q (processes w) ->
  (forall proc, killed (f proc) = killed proc) -> Globals w'.
Proof.
  unfold Globals. intros H -> -> Hf p Hp.
  destruct (H p Hp) as (proc & Hproc & Hk).
  destruct (decide (q = p)) as [->|Hne].
  - exists (f proc). rewrite list_lookup_alter_eq, Hproc, Hf. done.
  - exists proc. rewrite list_lookup_alter_ne by done. done.
Qed.

Lemma globals_none w : pythonProcess w = None -> Globals w.
Proof. unfold Globals. intros ->. done. Qed.

Lemma process_usable_globals w p :
  Globals w -> pythonProcess w = Some p -> process_usable w = true.
Proof.
  intros H Hp. unfold process_usable. rewrite Hp.
  destruct (H p Hp) as (proc & -> & ->). done.
Qed.

Lemma sendRequest_globals self method params timeoutMs w :
  Globals w -> Globals (sendRequest self method params timeoutMs w).2.
Proof.
  intros Hg. unfold sendRequest.
  destruct (managers w !! self) as [this|]; [|done].
  unfold stdin_of. simpl.
  destruct (processes w !! process this) as [proc|]; simpl;
    [destruct (stdin proc); simpl|].
  - eapply globals_alter; [exact Hg|reflexivity..|done].
  - eapply globals_same; [exact Hg|reflexivity..].
  - eapply globals_same; [exact Hg|reflexivity..].
Qed.

(** ** [getRequestManager] *)

(** What [getRequestManager] does when it has to rebuild: a manager with
    nothing pending is appended and made current. *)
Lemma getRequestManager_rebuilds io w :
  requestManager w = None \/ process_usable w = false ->
  exists p,
    let '(m, w') := getRequestManager io w in
    m = length (managers w) /\ requestManager w' = Some m /\
    pythonProcess w' = Some p /\
    managers w' = managers w ++
      [{| pendingRequests := ∅; requestId := 1; process := p |}] /\
    promises w' = promises w /\ timers w' = timers w /\
    nextTimer w' = nextTimer w /\ settled w' = settled w /\
    console w' = console w /\
    ((process_usable w = true /\ pythonProcess w = Some p /\
      processes w' = alter (add_listener m) p (processes w)) \/
     (process_usable w = false /\ p = length (processes w) /\
      processes w' =
        alter (add_listener m) p (processes w ++ [spawn io]))).
Proof.
  intros Hre. unfold getRequestManager, startPythonProcess.
  assert (process_usable (set_requestManager None w) = process_usable w)
    as Eu by reflexivity.
  destruct (requestManager w) as [m|] eqn:Hm.
  - destruct Hre as [?|Hu]; [done|]. rewrite Hu. simpl. rewrite Eu, Hu.
    destruct (pythonProcess w) eqn:Hp; simpl;
      exists (length (processes w)); repeat split; right; done.
  - simpl. rewrite Eu.
    destruct (pythonProcess w) as [p|] eqn:Hp; simpl.
    + destruct (process_usable w) eqn:Hu; simpl.
      * exists p. rewrite Hp. repeat split. left. done.
      * exists (length (processes w)). repeat split. right. done.
    + exists (length (processes w)). repeat split. right.
      unfold process_usable. rewrite Hp. done.
Qed.

Lemma getRequestManager_keeps io w m :
  requestManager w = Some m -> process_usable w = true ->
  getRequestManager io w = (m, w).
Proof. intros Hm Hu. unfold getRequestManager. by rewrite Hm, Hu. Qed.

Lemma getRequestManager_core io w :
  Core w -> Core (getRequestManager io w).2.
Proof.
  intros Hcore.
  destruct (requestManager w) as [m|] eqn:Hm;
    [destruct (process_usable w) eqn:Hu|].
  - by rewrite (getRequestManager_keeps io w m).
  - destruct (getRequestManager_rebuilds io w) as (p & H); [by right|].
    destruct (getRequestManager io w) as [m' w'].
    destruct H as (_&_&_&?&?&?&?&?&_). simpl.
    by eapply core_new_manager.
  - destruct (getRequestManager_rebuilds io w) as (p & H); [by left|].
    destruct (getRequestManager io w) as [m' w'].
    destruct H as (_&_&_&?&?&?&?&?&_). simpl.
    by eapply core_new_manager.
Qed.

Lemma rebuilt_globals io w m' w' p :
  pythonProcess w' = Some p ->
  (process_usable w = true /\ pythonProcess w = Some p /\
   processes w' = alter (add_listener m') p (processes w)) \/
  (process_usable w = false /\ p = length (processes w) /\
   processes w' = alter (add_listener m') p (processes w ++ [spawn io])) ->
  Globals w'.
Proof.
  intros Hp' [(Hu & Hp & Hps)|(Hu & -> & Hps)] q Hq;
    rewrite Hp' in Hq; injection Hq as <-; rewrite Hps.
  - unfold process_usable in Hu. rewrite Hp in Hu.
    destruct (processes w !! p) as [proc|] eqn:Hproc; [|done].
    exists (add_listener m' proc).
    rewrite list_lookup_alter_eq, Hproc. simpl.
    by destruct (killed proc).
  - exists (add_listener m' (spawn io)).
    rewrite list_lookup_alter_eq, lookup_app_r by lia.
    rewrite Nat.sub_diag. done.
Qed.

Lemma getRequestManager_globals io w :
  Globals w -> Globals (getRequestManager io w).2.
Proof.
  intros Hg.
  destruct (requestManager w) as [m|] eqn:Hm;
    [destruct (process_usable w) eqn:Hu|].
  - by rewrite (getRequestManager_keeps io w m).
  - destruct (getRequestManager_rebuilds io w) as (p & H); [by right|].
    destruct (getRequestManager io w) as [m' w'].
    destruct H as (_&_&Hp&_&_&_&_&_&_&Hps). simpl.
    by eapply rebuilt_globals.
  - destruct (getRequestManager_rebuilds io w) as (p & H); [by left|].
    destruct (getRequestManager io w) as [m' w'].
    destruct H as (_&_&Hp&_&_&_&_&_&_&Hps). simpl.
    by eapply rebuilt_globals.
Qed.

(** ** The invariant holds in every reachable world *)

Lemma init_inv : Inv init.
Proof.
  split; [split|]; simpl; try done.
  - intros p Hp. simpl in Hp. lia.
  - intros c Hc. by apply elem_of_nil in Hc.
Qed.

Lemma fire_frame h w :
  pythonProcess (fire h w) = pythonProcess w /\
  requestManager (fire h w) = requestManager w /\
  processes (fire h w) = processes w.
Proof. unfold fire. by destruct (timers w !! h). Qed.

Lemma deactivate_inv w : Inv w -> Inv (deactivate w).
Proof.
  intros [Hcore Hg]. unfold deactivate. split.
  - destruct (pythonProcess w); [destruct (process_usable w)|];
      (eapply core_same; [exact Hcore|reflexivity..]).
  - destruct (pythonProcess w) as [p|] eqn:Hp.
    + rewrite (process_usable_globals w p) by done. by apply globals_none.
    + by apply globals_none.
Qed.

Lemma step_inv w e : Inv w -> Inv (step w e).
Proof.
  intros [Hcore Hg]. destruct e as [method params io|io|m method params ms
    |p data|p data|p|p code|h|]; simpl.
  - unfold sendToPython.
    pose proof (getRequestManager_core io w Hcore) as Hc.
    pose proof (getRequestManager_globals io w Hg) as Hg'.
    destruct (getRequestManager io w) as [m w']. simpl in *.
    split; [by apply sendRequest_core|by apply sendRequest_globals].
  - split; [by apply getRequestManager_core
           |by apply getRequestManager_globals].
  - split; [by apply sendRequest_core|by apply sendRequest_globals].
  - split; [by apply emit_data_core|].
    destruct (emit_data_frame (stdout_listeners p w) data w) as (?&?&?).
    by eapply globals_same.
  - destruct (processes w !! p) as [proc|]; [destruct (stderr proc)|];
      try done.
    split; [eapply core_same; [exact Hcore|reflexivity..]|].
    eapply globals_same; [exact Hg|reflexivity..].
  - split; [eapply core_same; [exact Hcore|reflexivity..]|].
    eapply globals_alter; [exact Hg|reflexivity..|done].
  - destruct (processes w !! p) as [proc|]; [destruct (exited proc)|];
      try done.
    split; [eapply core_same; [exact Hcore|reflexivity..]|].
    by apply globals_none.
  - split; [by apply fire_core|].
    destruct (fire_frame h w) as (?&?&?). by eapply globals_same.
  - by apply deactivate_inv.
Qed.

Lemma run_inv w es : Inv w -> Inv (run w es).
Proof.
  revert w. induction es as [|e es IH]; intros w Hw; [done|].
  simpl. apply IH. by apply step_inv.
Qed.

Lemma reachable_inv w : reachable w -> Inv w.
Proof. intros [es ->]. apply run_inv, init_inv. Qed.

Lemma reachable_step w e : reachable w -> reachable (step w e).
Proof.
  intros [es ->]. exists (es ++ [e]). unfold run.
  by rewrite foldl_app.
Qed.

(** ** Evolution *)

Lemma manager_evolves_refl this : manager_evolves this this.
Proof. split; [lia|]. split; done. Qed.

Lemma manager_evolves_trans t1 t2 t3 :
  manager_evolves t1 t2 -> manager_evolves t2 t3 -> manager_evolves t1 t3.
Proof.
  intros (Hr1 & Hp1 & Hk1) (Hr2 & Hp2 & Hk2).
  split; [lia|]. split; [congruence|].
  intros k Hk Hn. apply Hk2; [lia|]. by apply Hk1.
Qed.

Lemma evolves_refl w : evolves w w.
Proof.
  split; [lia|]. split; [by left|].
  intros m this Hm. exists this. split; [done|apply manager_evolves_refl].
Qed.

Lemma evolves_trans w1 w2 w3 :
  evolves w1 w2 -> evolves w2 w3 -> evolves w1 w3.
Proof.
  intros (Hl1 & Ht1 & Hm1) (Hl2 & Ht2 & Hm2). split; [lia|]. split.
  - intros h c Hc. destruct (Ht2 _ _ Hc) as [Hc'|?]; [|right; lia].
    destruct (Ht1 _ _ Hc') as [?|?]; [by left|by right].
  - intros m this Hm. destruct (Hm1 _ _ Hm) as (this' & Hm' & ?).
    destruct (Hm2 _ _ Hm') as (this'' & ? & ?).
    exists this''. split; [done|]. by eapply manager_evolves_trans.
Qed.

Lemma evolves_same w w' :
  managers w' = managers w -> timers w' = timers w ->
  promises w' = promises w -> evolves w w'.
Proof.
  intros Em Et Ep. unfold evolves. rewrite Em, Et, Ep.
  apply evolves_refl.
Qed.

Lemma managers_alter (f : PythonRequestManager -> PythonRequestManager)
    self (ms : list PythonRequestManager) m this :
  (forall t, manager_evolves t (f t)) ->
  ms !! m = Some this ->
  exists this', alter f self ms !! m = Some this' /\
                manager_evolves this this'.
Proof.
  intros Hf Hm. destruct (decide (self = m)) as [->|Hne].
  - exists (f this). rewrite list_lookup_alter_eq, Hm. done.
  - exists this. rewrite list_lookup_alter_ne by done.
    split; [done|apply manager_evolves_refl].
Qed.

Lemma delete_evolves k t : manager_evolves t (with_pending (delete k) t).
Proof.
  split; [simpl; lia|]. split; [done|]. simpl.
  intros k' _ Hk'. apply lookup_delete_None. by right.
Qed.

(** Allocating the next identifier and recording an entry under it. *)
Lemma allocate_evolves t pr :
  manager_evolves t
    (with_pending (<[requestId t := pr]>) (bump_requestId t)).
Proof.
  split; [|split]; simpl.
  - unfold increment. destruct (requestId t <? MAX_SAFE); lia.
  - done.
  - intros k Hk Hn. rewrite lookup_insert_ne; [done|lia].
Qed.

Lemma handleResponse_evolves self data w :
  evolves w (world_of (handleResponse self data w)).
Proof.
  destruct (answers_or_orphan self data w)
    as [(response & k & pr & Hans)|Horph].
  - rewrite (handleResponse_matched _ _ _ _ _ _ Hans). simpl.
    split; [|split]; simpl.
    + by rewrite settle_promise_length.
    + intros h c [_ ?]%lookup_delete_Some. by left.
    + intros m this Hm. apply managers_alter; [apply delete_evolves|done].
  - destruct (handleResponse_orphan _ _ _ Horph)
      as (w' & -> & (?&?&?&?&?&?&?&?)).
    by apply evolves_same.
Qed.

Lemma fire_evolves h w : evolves w (fire h w).
Proof.
  unfold fire. destruct (timers w !! h) as [c|]; [|apply evolves_refl].
  split; [|split]; simpl.
  - by rewrite settle_promise_length.
  - intros h' c' [_ ?]%lookup_delete_Some. by left.
  - intros m this Hm. apply managers_alter; [apply delete_evolves|done].
Qed.

Lemma sendRequest_evolves self method params timeoutMs w :
  evolves w (sendRequest self method params timeoutMs w).2.
Proof.
  unfold sendRequest.
  destruct (managers w !! self) as [this|] eqn:Hthis;
    [|apply evolves_refl].
  unfold stdin_of. simpl.
  set (pr := {| id := requestId this; promise := length (promises w);
                timeout := nextTimer w |}).
  assert (forall m this0, managers w !! m = Some this0 ->
    exists this',
      alter (with_pending (<[requestId this := pr]>)) self
        (alter bump_requestId self (managers w)) !! m = Some this' /\
      manager_evolves this0 this') as Hms.
  { intros m this0 Hm. destruct (decide (self = m)) as [->|Hne].
    - rewrite !list_lookup_alter_eq, Hm. simpl. eexists. split; [done|].
      assert (this0 = this) as -> by congruence. apply allocate_evolves.
    - rewrite !list_lookup_alter_ne by done. exists this0.
      split; [done|apply manager_evolves_refl]. }
  assert (forall m this0, managers w !! m = Some this0 ->
    exists this',
      alter (with_pending (delete (requestId this))) self
        (alter (with_pending (<[requestId this := pr]>)) self
           (alter bump_requestId self (managers w))) !! m = Some this' /\
      manager_evolves this0 this') as Hms'.
  { intros m this0 Hm. destruct (Hms _ _ Hm) as (t1 & H1 & ?).
    destruct (managers_alter (with_pending (delete (requestId this))) self
                _ _ _ (delete_evolves _) H1) as (t2 & ? & ?).
    exists t2. split; [done|]. by eapply manager_evolves_trans. }
  destruct (processes w !! process this) as [proc|]; simpl;
    [destruct (stdin proc); simpl|].
  - split; [|split]; simpl.
    + rewrite length_app. lia.
    + intros h c [[_ <-]|[_ ?]]%lookup_insert_Some; [right|left]; done.
    + done.
  - split; [|split]; simpl.
    + rewrite settle_promise_length, length_app. lia.
    + intros h c [_ [[_ <-]|[_ ?]]%lookup_insert_Some]%lookup_delete_Some;
        [right|left]; done.
    + done.
  - split; [|split]; simpl.
    + rewrite settle_promise_length, length_app. lia.
    + intros h c [_ [[_ <-]|[_ ?]]%lookup_insert_Some]%lookup_delete_Some;
        [right|left]; done.
    + done.
Qed.

Lemma evolves_append w w' x :
  managers w' = managers w ++ [x] -> timers w' = timers w ->
  promises w' = promises w -> evolves w w'.
Proof.
  intros Em Et Ep. unfold evolves. rewrite Em, Et, Ep.
  split; [lia|]. split; [by left|].
  intros m this Hm. exists this. rewrite lookup_app_l.
  - split; [done|apply manager_evolves_refl].
  - by eapply lookup_lt_Some.
Qed.

Lemma getRequestManager_evolves io w :
  evolves w (getRequestManager io w).2.
Proof.
  destruct (requestManager w) as [m|] eqn:Hm;
    [destruct (process_usable w) eqn:Hu|].
  - rewrite (getRequestManager_keeps io w m) by done. apply evolves_refl.
  - destruct (getRequestManager_rebuilds io w) as (p & H); [by right|].
    destruct (getRequestManager io w) as [m' w'].
    destruct H as (_&_&_&?&?&?&_). simpl. by eapply evolves_append.
  - destruct (getRequestManager_rebuilds io w) as (p & H); [by left|].
    destruct (getRequestManager io w) as [m' w'].
    destruct H as (_&_&_&?&?&?&_). simpl. by eapply evolves_append.
Qed.

Lemma emit_data_evolves ls data w :
  evolves w (world_of (emit_data ls data w)).
Proof.
  revert w. induction ls as [|m ls IH]; intros w; [apply evolves_refl|].
  simpl. pose proof (handleResponse_evolves m data w) as He.
  destruct (handleResponse m data w) as [w'|e w']; simpl in *; [|done].
  eapply evolves_trans; eauto.
Qed.

Lemma step_evolves w e : evolves w (step w e).
Proof.
  destruct e as [method params io|io|m method params ms
    |p data|p data|p|p code|h|]; simpl.
  - unfold sendToPython.
    pose proof (getRequestManager_evolves io w) as He.
    destruct (getRequestManager io w) as [m w']. simpl in *.
    eapply evolves_trans; [exact He|apply sendRequest_evolves].
  - apply getRequestManager_evolves.
  - apply sendRequest_evolves.
  - apply emit_data_evolves.
  - destruct (processes w !! p) as [proc|]; [destruct (stderr proc)|];
      by apply evolves_same.
  - by apply evolves_same.
  - destruct (processes w !! p) as [proc|]; [destruct (exited proc)|];
      by apply evolves_same.
  - apply fire_evolves.
  - unfold deactivate.
    destruct (pythonProcess w); [destruct (process_usable w)|];
      by apply evolves_same.
Qed.

Lemma run_evolves w es : evolves w (run w es).
Proof.
  revert w. induction es as [|e es IH]; intros w; [apply evolves_refl|].
  simpl. eapply evolves_trans; [apply step_evolves|apply IH].
Qed.

Lemma deliver_core self chunks w : Core w -> Core (deliver self chunks w).
Proof.
  revert w. induction chunks as [|d ds IH]; intros w Hc; [done|].
  simpl. apply IH. by apply handleResponse_core.
Qed.

(** ** Settlement *)

(** [sendRequest] creates one promise and returns it; nothing else in the
    module creates promises, so the promises of a world are exactly the
    calls issued so far. *)
Lemma sendRequest_returns self method params timeoutMs w :
  is_Some (managers w !! self) ->
  (sendRequest self method params timeoutMs w).1 = length (promises w) /\
  length (promises (sendRequest self method params timeoutMs w).2) =
    S (length (promises w)).
Proof.
  intros [this Hthis]. unfold sendRequest, stdin_of. rewrite Hthis. simpl.
  destruct (processes w !! process this) as [proc|]; simpl;
    [destruct (stdin proc); simpl|];
    rewrite ?settle_promise_length, length_app; simpl; split; lia.
Qed.

Lemma fire_settles w h c :
  Core w -> timers w !! h = Some c ->
  let msg := timeout_message (tc_id c) (tc_method c) (tc_timeoutMs c) in
  calls_on (tc_reject c) (settled (fire h w)) =
    [SettleCall (tc_reject c) ViaTimeout (Rejected (ReasonError msg))] /\
  promises (fire h w) !! tc_reject c = Some (Rejected (ReasonError msg)) /\
  timers (fire h w) !! h = None /\
  pending_of (tc_this c) (fire h w) !! tc_id c = None.
Proof.
  intros Hcore Hc. destruct (core_timer _ Hcore _ _ Hc) as (_ & Hp & Hl).
  unfold fire. rewrite Hc. simpl. repeat split.
  - rewrite calls_on_snoc, Hl. simpl. by rewrite decide_True.
  - by apply settle_promise_pending.
  - apply lookup_delete_eq.
  - unfold pending_of. simpl. rewrite list_lookup_alter_eq.
    destruct (managers w !! tc_this c); simpl; [|apply lookup_empty].
    apply lookup_delete_eq.
Qed.

Lemma core_settles_once w p :
  Core w -> (p < length (promises w))%nat -> settles_once w p.
Proof.
  intros Hcore Hp.
  destruct (core_promise _ Hcore p Hp)
    as [(h & c & Hc & Hr)|(how & o & Hl & Ho & Hne & Hhow)].
  - right. destruct (core_timer _ Hcore _ _ Hc) as (_ & Hpend & Hcalls).
    rewrite Hr in Hpend, Hcalls.
    split; [done|]. split; [done|]. exists h, c.
    split; [done|]. split; [done|]. split.
    + intros h' c' Hc' Hr'. eapply core_inj; eauto. congruence.
    + destruct (fire_settles _ _ _ Hcore Hc) as (H1 & H2 & _).
      rewrite Hr in H1, H2. split; assumption.
  - left. exists how, o. split; [done|]. split; [done|]. split; [done|].
    destruct how; auto. done.
Qed.

(** C1.  Take any invocation of [sendRequest] on a manager, in a world
    that any sequence of events led to, and any sequence [es2] of later
    events: calls, stdout chunks (interleaved, reordered, duplicated),
    exits, teardowns and timer firings.  In the world they lead to, the
    promise the invocation returned is in one of two states.  Either
    its [resolve]/[reject] was invoked exactly once, through one of the
    five paths result, RPC error, malformed response, timeout and
    transport error, and the promise holds that outcome; or it was
    never invoked, the promise is pending, and exactly one timer for it
    is armed, whose firing invokes [reject] once with the timeout error.
    So no call is settled twice and none is left without its
    settlement. *)
Theorem exactly_once_settlement (es1 es2 : list event) (self : nat)
    (method : jsstring) (params : option json) (timeoutMs : N) :
  is_Some (managers (run init es1) !! self) ->
  settles_once
    (run (sendRequest self method params timeoutMs (run init es1)).2 es2)
    (sendRequest self method params timeoutMs (run init es1)).1.
Proof.
  intros Hself.
  set (w0 := run init es1) in *.
  set (sent := sendRequest self method params timeoutMs w0).
  assert (Inv sent.2) as Hinv.
  { apply (step_inv w0 (Request self method params timeoutMs)).
    apply run_inv, init_inv. }
  destruct (run_inv sent.2 es2 Hinv) as [Hcore _].
  destruct (sendRequest_returns self method params timeoutMs w0 Hself)
    as [Hret Hlen].
  destruct (run_evolves sent.2 es2) as (Hle & _).
  apply core_settles_once; [done|]. fold sent in Hret, Hlen. lia.
Qed.

Lemma exactly_once_settlement_witness :
  is_Some (managers (run init [GetManager piped]) !! 0%nat) /\
  settles_once
    (run (sendRequest 0 (str "say_hello") None 3000
            (run init [GetManager piped])).2 settlement_trace)
    (sendRequest 0 (str "say_hello") None 3000
       (run init [GetManager piped])).1.
Proof.
  assert (is_Some (managers (run init [GetManager piped]) !! 0%nat)) as H1
    by (eexists; vm_compute; reflexivity).
  split; [exact H1|].
  exact (exactly_once_settlement [GetManager piped] settlement_trace 0
           (str "say_hello") None 3000 H1).
Defined.

(** ** Dispatch *)

Lemma pending_of_delete self k w w' :
  managers w' = alter (with_pending (delete k)) self (managers w) ->
  pending_of self w' = delete k (pending_of self w).
Proof.
  unfold pending_of. intros ->. rewrite list_lookup_alter_eq.
  destruct (managers w !! self); simpl; [done|]. by rewrite delete_empty.
Qed.

(** C9.  An envelope whose identifier matches no pending call of the
    manager (and likewise a chunk that is no envelope at all) makes
    [handleResponse] return normally, and nothing but the console
    changes: no promise is settled and every pending entry and armed
    timer stays as it was.  For an envelope the last console line is
    the warning about the unknown request ID. *)
Theorem orphan_tolerance (self : nat) (data : jsstring) (w : World) :
  orphan self data w ->
  exists w',
    handleResponse self data w = Normal w' /\ unchanged w w' /\
    forall response,
      JSON.parse data = Some response -> response <> JNull ->
      last (console w') =
        Some (ConsoleEntry LWarn
                (str "Received response for unknown request ID:")
                [AValue (get_prop response (str "id"))]).
Proof.
  intros Horph.
  destruct (handleResponse_orphan _ _ _ Horph) as (w' & Hw' & Hun).
  exists w'. split; [done|]. split; [done|].
  intros response Hparse Hnn. specialize (Horph _ Hparse).
  revert Hw'. unfold handleResponse, handleResponse_try. rewrite Hparse.
  destruct response; try done;
    change (pending_of self (console_write _ _ _ (console_write _ _ _ w)))
      with (pending_of self w); rewrite Horph;
    intros [= <-]; simpl; by rewrite last_snoc.
Qed.

Lemma orphan_tolerance_witness :
  orphan 0 (wire "{'jsonrpc':'2.0','id':7,'result':'late'}") one_pending /\
  exists w',
    handleResponse 0 (wire "{'jsonrpc':'2.0','id':7,'result':'late'}")
      one_pending = Normal w' /\
    unchanged one_pending w' /\
    forall response,
      JSON.parse (wire "{'jsonrpc':'2.0','id':7,'result':'late'}")
        = Some response ->
      response <> JNull ->
      last (console w') =
        Some (ConsoleEntry LWarn
                (str "Received response for unknown request ID:")
                [AValue (get_prop response (str "id"))]).
Proof.
  assert (orphan 0 (wire "{'jsonrpc':'2.0','id':7,'result':'late'}")
            one_pending) as Horph.
  { intros response Hparse. vm_compute in Hparse.
    injection Hparse as <-. vm_compute. reflexivity. }
  split; [exact Horph|].
  exact (orphan_tolerance 0 _ one_pending Horph).
Defined.

(** A call that was answered is gone: the same envelope again is an
    orphan. *)
Lemma answered_then_orphan self data w response k pr :
  answers self data w response k pr ->
  orphan self data (world_of (handleResponse self data w)).
Proof.
  intros Hans. rewrite (handleResponse_matched _ _ _ _ _ _ Hans).
  destruct Hans as (Hparse & Hkey & _). intros r Hr.
  assert (r = response) as -> by congruence.
  unfold Map_get. rewrite Hkey. simpl.
  rewrite (pending_of_delete self k w) by reflexivity.
  apply lookup_delete_eq.
Qed.

(** C6.  An envelope that matches a pending call cancels that call's
    timer, removes the entry and invokes the call's [resolve] or [reject]
    once: the promise is fulfilled with the result when a result field is
    present; otherwise rejected with the error payload when the error
    field is truthy; otherwise (no error field, or a falsy one such as 0
    or the empty string) rejected with the generic string. *)
Theorem matched_response_settles (w : World) (self : nat)
    (data : jsstring) (response : json) (k : N) (pr : PendingRequest) :
  reachable w -> answers self data w response k pr ->
  exists w', handleResponse self data w = Normal w' /\
             dispatched self response k pr w w'.
Proof.
  intros [Hcore _]%reachable_inv Hans. eexists.
  split; [by apply handleResponse_matched|].
  destruct Hans as (_ & _ & Hpr).
  apply pending_of_Some in Hpr as (this & Hthis & Hpr).
  destruct (core_entry _ Hcore _ _ _ _ Hthis Hpr)
    as (c & Hc & _ & _ & Hr & _).
  destruct (core_timer _ Hcore _ _ Hc) as (_ & Hp & Hl).
  rewrite Hr in Hp, Hl.
  assert (forall o how w0,
    promises w0 = promises w ->
    promises (settle (promise pr) how o w0) !! promise pr = Some o) as Hset.
  { intros o how w0 E. simpl. rewrite E.
    by apply settle_promise_pending. }
  split; [by rewrite Hc|]. split; [done|].
  split. { by apply pending_of_delete. }
  split; [done|]. split.
  { unfold settle_count. simpl.
    rewrite calls_on_snoc, Hl. simpl. by rewrite decide_True. }
  unfold verdict. split; [|split].
  - intros result ->. by apply Hset.
  - intros error -> -> ->. by apply Hset.
  - intros -> Hfalsy.
    destruct (get_prop response (str "error")) as [error|];
      [rewrite (Hfalsy error eq_refl)|]; by apply Hset.
Qed.

Lemma matched_response_settles_witness :
  reachable one_pending /\
  answers 0 (wire "{'jsonrpc':'2.0','id':1,'error':0}") one_pending
    (JObject [(str "jsonrpc", JString (str "2.0")); (str "id", JInt 1);
              (str "error", JInt 0)])
    1 {| id := 1; promise := 0; timeout := 0 |} /\
  exists w',
    handleResponse 0 (wire "{'jsonrpc':'2.0','id':1,'error':0}")
      one_pending = Normal w' /\
    dispatched 0
      (JObject [(str "jsonrpc", JString (str "2.0")); (str "id", JInt 1);
                (str "error", JInt 0)])
      1 {| id := 1; promise := 0; timeout := 0 |} one_pending w'.
Proof.
  assert (reachable one_pending) as Hr by (eexists; reflexivity).
  assert (answers 0 (wire "{'jsonrpc':'2.0','id':1,'error':0}") one_pending
            (JObject [(str "jsonrpc", JString (str "2.0"));
                      (str "id", JInt 1); (str "error", JInt 0)])
            1 {| id := 1; promise := 0; timeout := 0 |}) as Ha.
  { repeat split; vm_compute; reflexivity. }
  split; [exact Hr|]. split; [exact Ha|].
  exact (matched_response_settles one_pending 0 _ _ 1 _ Hr Ha).
Defined.

(** ** Timeout of a call *)

Lemma sendRequest_timers self this method params timeoutMs w h c :
  managers w !! self = Some this ->
  timers (sendRequest self method params timeoutMs w).2 !! h = Some c ->
  c = {| tc_this := self; tc_id := requestId this; tc_method := method;
         tc_timeoutMs := timeoutMs; tc_reject := length (promises w) |} \/
  timers w !! h = Some c.
Proof.
  intros Hthis. unfold sendRequest, stdin_of. rewrite Hthis. simpl.
  destruct (processes w !! process this) as [proc|]; simpl;
    [destruct (stdin proc); simpl|].
  - intros [[_ <-]|[_ ?]]%lookup_insert_Some; auto.
  - intros [_ [[_ <-]|[_ ?]]%lookup_insert_Some]%lookup_delete_Some; auto.
  - intros [_ [[_ <-]|[_ ?]]%lookup_insert_Some]%lookup_delete_Some; auto.
Qed.

Lemma sendRequest_counter self this method params timeoutMs w :
  managers w !! self = Some this ->
  exists this',
    managers (sendRequest self method params timeoutMs w).2 !! self
      = Some this' /\
    requestId this' = increment (requestId this).
Proof.
  intros Hthis. unfold sendRequest, stdin_of. rewrite Hthis. simpl.
  destruct (processes w !! process this) as [proc|]; simpl;
    [destruct (stdin proc); simpl|];
    rewrite !list_lookup_alter_eq, Hthis; simpl; eauto.
Qed.




Example timeout_message_example :
  timeout_message 1 (str "say_hello") 3000 =
  str "Request 1 (say_hello) timed out after 3000ms".
Proof. vm_compute. reflexivity. Qed.

(** ** Correlation *)

Lemma handleResponse_keeps_settled self data w p o :
  Core w -> promises w !! p = Some o -> o <> Pending ->
  promises (world_of (handleResponse self data w)) !! p = Some o /\
  calls_on p (settled (world_of (handleResponse self data w))) =
    calls_on p (settled w).
Proof.
  intros Hcore Hp Ho.
  destruct (answers_or_orphan self data w)
    as [(response & k & pr & Hans)|Horph].
  - rewrite (handleResponse_matched _ _ _ _ _ _ Hans). simpl.
    destruct Hans as (_ & _ & Hpr).
    apply pending_of_Some in Hpr as (this & Hthis & Hpr).
    destruct (core_entry _ Hcore _ _ _ _ Hthis Hpr)
      as (c & Hc & _ & _ & Hr & _).
    destruct (core_timer _ Hcore _ _ Hc) as (_ & Hpend & _).
    rewrite Hr in Hpend.
    assert (promise pr <> p) as Hne by (intros E; rewrite E in Hpend; congruence).
    split.
    + by rewrite settle_promise_other.
    + rewrite calls_on_snoc. simpl. rewrite decide_False by done.
      by rewrite app_nil_r.
  - destruct (handleResponse_orphan _ _ _ Horph)
      as (w' & -> & (?&?&?&?&?&?&?&?)).
    simpl. split; congruence.
Qed.

Lemma deliver_keeps_settled self chunks w p o :
  Core w -> promises w !! p = Some o -> o <> Pending ->
  promises (deliver self chunks w) !! p = Some o /\
  calls_on p (settled (deliver self chunks w)) = calls_on p (settled w).
Proof.
  revert w. induction chunks as [|d ds IH]; intros w Hcore Hp Ho; [done|].
  simpl.
  destruct (handleResponse_keeps_settled self d w p o Hcore Hp Ho)
    as [Hp' Hl'].
  destruct (IH _ (handleResponse_core self d w Hcore) Hp' Ho) as [? Hl''].
  split; [done|]. by rewrite Hl''.
Qed.

(** Delivering answers with distinct identifiers, in the order of the
    list, resolves each outstanding call with the result of its own
    envelope. *)
Lemma deliver_resolves self (order : list Answer) w :
  Core w -> NoDup (ans_id <$> order) ->
  Forall (outstanding self w) order ->
  Forall (resolved_with_own self w (deliver self (ans_data <$> order) w))
    order.
Proof.
  revert w. induction order as [|a rest IH]; intros w Hcore Hnd Hall;
    [constructor|].
  apply NoDup_cons in Hnd as [Hnotin Hnd].
  apply Forall_cons in Hall as [(response & pr & Hans & Hres) Hall].
  simpl.
  pose proof (handleResponse_core self (ans_data a) w Hcore) as Hcore1.
  pose proof (handleResponse_matched _ _ _ _ _ _ Hans) as Hw1.
  set (w1 := world_of (handleResponse self (ans_data a) w)) in *.
  destruct Hans as (Hparse & Hkey & Hpr).
  assert (pending_of self w1 = delete (ans_id a) (pending_of self w))
    as Hpend1.
  { unfold w1. rewrite Hw1. simpl. by apply pending_of_delete. }
  constructor.
  - exists pr. split; [done|].
    apply pending_of_Some in Hpr as (this & Hthis & Hpr).
    destruct (core_entry _ Hcore _ _ _ _ Hthis Hpr)
      as (c & Hc & _ & _ & Hr & _).
    destruct (core_timer _ Hcore _ _ Hc) as (_ & Hp & Hl).
    rewrite Hr in Hp, Hl.
    assert (promises w1 !! promise pr = Some (Fulfilled (ans_result a)) /\
            calls_on (promise pr) (settled w1) =
              [SettleCall (promise pr) ViaResult
                 (Fulfilled (ans_result a))]) as [Hp1 Hl1].
    { unfold w1. rewrite Hw1. unfold verdict. rewrite Hres. simpl. split.
      - by apply settle_promise_pending.
      - rewrite calls_on_snoc, Hl. simpl. by rewrite decide_True. }
    destruct (deliver_keeps_settled self (ans_data <$> rest) w1 _ _
                Hcore1 Hp1) as [Hp2 Hl2]; [done|].
    split; [exact Hp2|]. exact (eq_trans Hl2 Hl1).
  - assert (Forall (outstanding self w1) rest) as Hall1.
    { apply Forall_forall. intros a' Ha'.
      rewrite Forall_forall in Hall.
      destruct (Hall a' Ha') as (r' & pr' & (? & ? & Hpr') & ?).
      exists r', pr'. split; [|done]. split; [done|]. split; [done|].
      rewrite Hpend1, lookup_delete_ne; [done|].
      intros E. apply Hnotin. rewrite E.
      apply list_elem_of_fmap. by exists a'. }
    specialize (IH w1 Hcore1 Hnd Hall1).
    apply Forall_forall. intros a' Ha'.
    rewrite Forall_forall in IH.
    destruct (IH a' Ha') as (pr' & Hpr' & ? & ?).
    exists pr'. split; [|done].
    rewrite Hpend1 in Hpr'. by apply lookup_delete_Some in Hpr' as [_ ?].
Qed.

Lemma sendRequest_records self this method params timeoutMs w :
  managers w !! self = Some this -> is_Some (stdin_of this w) ->
  pending_of self (sendRequest self method params timeoutMs w).2
    !! requestId this =
  Some {| id := requestId this; promise := length (promises w);
          timeout := nextTimer w |} /\
  timers (sendRequest self method params timeoutMs w).2 !! nextTimer w =
  Some {| tc_this := self; tc_id := requestId this; tc_method := method;
          tc_timeoutMs := timeoutMs; tc_reject := length (promises w) |} /\
  promises (sendRequest self method params timeoutMs w).2
    !! length (promises w) = Some Pending /\
  settled (sendRequest self method params timeoutMs w).2 = settled w.
Proof.
  intros Hthis [s Hs]. unfold sendRequest, stdin_of, pending_of in *.
  rewrite Hthis. simpl.
  destruct (processes w !! process this) as [proc|]; [|done].
  rewrite Hs. simpl. rewrite !list_lookup_alter_eq, Hthis. simpl.
  rewrite !lookup_insert_eq. repeat split.
  rewrite lookup_app_r by lia. by rewrite Nat.sub_diag.
Qed.

Lemma run_snoc w es e : run w (es ++ [e]) = step (run w es) e.
Proof. unfold run. by rewrite foldl_app. Qed.

(** [sendRequest] on a manager whose worker has its stdin. *)
Lemma sendRequest_open self this method params timeoutMs w :
  managers w !! self = Some this -> is_Some (stdin_of this w) ->
  pythonProcess (sendRequest self method params timeoutMs w).2 =
    pythonProcess w /\
  requestManager (sendRequest self method params timeoutMs w).2 =
    requestManager w /\
  (sendRequest self method params timeoutMs w).1 = length (promises w) /\
  (forall p, (p < length (promises w))%nat ->
     promises (sendRequest self method params timeoutMs w).2 !! p =
       promises w !! p) /\
  promises (sendRequest self method params timeoutMs w).2
    !! length (promises w) = Some Pending /\
  exists this',
    managers (sendRequest self method params timeoutMs w).2 !! self =
      Some this' /\
    requestId this' = increment (requestId this) /\
    is_Some (stdin_of this' (sendRequest self method params timeoutMs w).2) /\
    pendingRequests this' !! requestId this =
      Some {| id := requestId this; promise := length (promises w);
              timeout := nextTimer w |}.
Proof.
  intros Hthis [s Hs]. unfold sendRequest, stdin_of in *.
  rewrite Hthis. simpl.
  destruct (processes w !! process this) as [proc|] eqn:Hproc; [|done].
  rewrite Hs. simpl. repeat split.
  - intros p Hp. by rewrite lookup_app_l.
  - rewrite lookup_app_r by lia. by rewrite Nat.sub_diag.
  - rewrite !list_lookup_alter_eq, Hthis. simpl. eexists.
    split; [done|]. simpl. split; [done|].
    rewrite list_lookup_alter_eq, Hproc. simpl. rewrite Hs.
    split; [by eexists|]. by rewrite lookup_insert_eq.
Qed.

(** The state of the first manager after [n] calls back to back. *)
Lemma calls_back_to_back (n : nat) :
  1 <= N.of_nat n ->
  exists this pr,
    pythonProcess
      (run init (replicate n (Call (str "say_hello") None piped))) =
      Some 0%nat /\
    requestManager
      (run init (replicate n (Call (str "say_hello") None piped))) =
      Some 0%nat /\
    managers (run init (replicate n (Call (str "say_hello") None piped)))
      !! 0%nat = Some this /\
    is_Some
      (stdin_of this
         (run init (replicate n (Call (str "say_hello") None piped)))) /\
    requestId this = N.min (N.of_nat n + 1) MAX_SAFE /\
    pendingRequests this !! N.min (N.of_nat n) MAX_SAFE = Some pr /\
    promises (run init (replicate n (Call (str "say_hello") None piped)))
      !! promise pr = Some Pending.
Proof.
  induction n as [|n IH]; [lia|]. intros _.
  destruct n as [|n].
  - exists manager_after_one, {| id := 1; promise := 0; timeout := 0 |}.
    repeat split; try (vm_compute; reflexivity). by eexists.
  - destruct IH as (this & pr & Hp & Hm & Hthis & Hs & Hid & Hpr & Hpend);
      [lia|].
    rewrite (replicate_S_end (S n)), run_snoc.
    set (w := run init (replicate (S n) (Call (str "say_hello") None piped)))
      in *.
    assert (Inv w) as [_ Hg] by apply run_inv, init_inv.
    simpl. unfold sendToPython.
    rewrite (getRequestManager_keeps piped w 0 Hm
               (process_usable_globals w 0 Hg Hp)).
    destruct (sendRequest_open 0 this (str "say_hello") None 10000 w Hthis Hs)
      as (Ep & Em & _ & _ & Hnew & this' & Hthis' & Hid' & Hs' & Hent).
    exists this', {| id := requestId this; promise := length (promises w);
                     timeout := nextTimer w |}.
    rewrite Ep, Em.
    split; [done|]. split; [done|]. split; [done|]. split; [done|].
    split; [|split; [|exact Hnew]].
    + rewrite Hid', Hid. unfold increment.
      destruct (N.ltb_spec (N.min (N.of_nat (S n) + 1) MAX_SAFE) MAX_SAFE);
        lia.
    + rewrite <- Hent. f_equal. rewrite Hid. lia.
Qed.

(** At saturation the identifier of the latest call, still pending, is
    the one the next call is given. *)
Lemma reuse_at_saturation self this pr method params timeoutMs w :
  managers w !! self = Some this -> is_Some (stdin_of this w) ->
  requestId this = MAX_SAFE ->
  pendingRequests this !! requestId this = Some pr ->
  promises w !! promise pr = Some Pending ->
  reuses_identifier self method params timeoutMs w.
Proof.
  intros Hthis Hs Hid Hpr Hpend.
  destruct (sendRequest_open self this method params timeoutMs w Hthis Hs)
    as (_ & _ & E1 & Hold & Hnew & this' & Hthis' & Hid' & _ & Hent).
  pose proof (lookup_lt_Some _ _ _ Hpend) as Hlt.
  exists this, pr, this'. rewrite E1.
  split; [done|]. split; [done|]. split; [done|]. split; [done|].
  split; [|split; [done|split; [lia|split; [done|split]]]].
  - rewrite Hid', Hid. unfold increment.
    destruct (N.ltb_spec MAX_SAFE MAX_SAFE); [lia|done].
  - by rewrite Hold.
  - intros (Hnone & _). congruence.
Qed.

(** At [2 ^ 53] the counter no longer advances: after that many calls
    on one manager, the next call is given the identifier of the call
    before it, which is still pending. *)
Lemma identifier_reuse_counterexample :
  reuses_identifier 0 (str "say_hello") None 10000
    (run init saturating_calls).
Proof.
  unfold saturating_calls.
  destruct (calls_back_to_back (N.to_nat MAX_SAFE))
    as (this & pr & _ & _ & Hthis & Hs & Hid & Hpr & Hpend).
  { rewrite N2Nat.id. vm_compute. discriminate. }
  rewrite N2Nat.id in Hid, Hpr.
  rewrite N.min_r in Hid by lia. rewrite N.min_id in Hpr.
  rewrite <- Hid in Hpr.
  exact (reuse_at_saturation 0 this pr _ _ _ _ Hthis Hs Hid Hpr Hpend).
Qed.

(** C2.  In any reachable world, for a manager [self]:
    - while its counter is below [2 ^ 53], [sendRequest] allocates an
      identifier that is pending for no call, exceeds every pending
      identifier, and is exceeded by the identifier of every later call
      on the manager;
    - given calls outstanding under pairwise distinct identifiers and one
      result envelope for each, delivering the envelopes in any
      permutation fulfils each call's promise with the result of its own
      envelope, through a single invocation of [resolve].
    The bound in the first part is needed: at [2 ^ 53] the increment no
    longer changes the counter, and the identifier of a pending call is
    given again (the lemma above). *)
Theorem correlation_correct (es : list event) (self : nat)
    (this : PythonRequestManager) (method : jsstring)
    (params : option json) (timeoutMs : N) (calls order : list Answer) :
  managers (run init es) !! self = Some this ->
  NoDup (ans_id <$> calls) ->
  Forall (outstanding self (run init es)) calls ->
  order ≡ₚ calls ->
  (requestId this < MAX_SAFE ->
   allocates_fresh self this method params timeoutMs (run init es)) /\
  Forall (resolved_with_own self (run init es)
            (deliver self (ans_data <$> order) (run init es))) calls.
Proof.
  intros Hthis Hnd Hall Hperm.
  destruct (run_inv init es init_inv) as [Hcore _]. split.
  - intros Hsafe. destruct (core_ids _ Hcore _ _ Hthis) as [_ Hkeys].
    specialize (Hkeys Hsafe).
    destruct (sendRequest_counter self this method params timeoutMs _ Hthis)
      as (t1 & Ht1 & Hid1).
    assert (requestId t1 = requestId this + 1) as Hid1'.
    { rewrite Hid1. unfold increment.
      destruct (N.ltb_spec (requestId this) MAX_SAFE); lia. }
    split; [|split; [done|split]].
    + destruct (pendingRequests this !! requestId this) eqn:E; [|done].
      assert (requestId this < requestId this) by (apply Hkeys; eauto).
      lia.
    + exists t1. split; [done|]. split; [done|].
      intros Hs.
      destruct (sendRequest_records self this method params timeoutMs _
                  Hthis Hs) as (Hrec & _).
      unfold pending_of in Hrec. rewrite Ht1 in Hrec.
      destruct (sendRequest_returns self method params timeoutMs
                  (run init es)) as [-> _]; [by eexists|done].
    + intros es' t2 Ht2.
      destruct (run_evolves (sendRequest self method params timeoutMs
                               (run init es)).2 es') as (_ & _ & Hm).
      destruct (Hm _ _ Ht1) as (t2' & Ht2' & (Hle & _)).
      assert (t2' = t2) as -> by congruence. lia.
  - rewrite <- Hperm. apply deliver_resolves; [done| |].
    + by rewrite Hperm.
    + by rewrite Hperm.
Qed.

Lemma correlation_correct_witness :
  managers (run init three_calls) !! 0%nat = Some manager_after_three /\
  NoDup (ans_id <$> [answer1; answer2; answer3]) /\
  Forall (outstanding 0 (run init three_calls))
    [answer1; answer2; answer3] /\
  [answer3; answer1; answer2] ≡ₚ [answer1; answer2; answer3] /\
  requestId manager_after_three < MAX_SAFE /\
  allocates_fresh 0 manager_after_three (str "say_hello") None 10000
    (run init three_calls) /\
  Forall (resolved_with_own 0 (run init three_calls)
            (deliver 0 (ans_data <$> [answer3; answer1; answer2])
               (run init three_calls)))
    [answer1; answer2; answer3].
Proof.
  assert (managers (run init three_calls) !! 0%nat =
          Some manager_after_three) as H1 by (vm_compute; reflexivity).
  assert (NoDup (ans_id <$> [answer1; answer2; answer3])) as H2.
  { apply (bool_decide_unpack _). vm_compute. reflexivity. }
  assert (Forall (outstanding 0 (run init three_calls))
            [answer1; answer2; answer3]) as H3.
  { repeat constructor.
    - exists (JObject [(str "jsonrpc", JString (str "2.0"));
                       (str "id", JInt 1);
                       (str "result", JString (str "first"))]),
             {| id := 1; promise := 0; timeout := 0 |}.
      repeat split; vm_compute; reflexivity.
    - exists (JObject [(str "jsonrpc", JString (str "2.0"));
                       (str "id", JInt 2);
                       (str "result", JString (str "second"))]),
             {| id := 2; promise := 1; timeout := 1 |}.
      repeat split; vm_compute; reflexivity.
    - exists (JObject [(str "jsonrpc", JString (str "2.0"));
                       (str "id", JInt 3);
                       (str "result", JString (str "third"))]),
             {| id := 3; promise := 2; timeout := 2 |}.
      repeat split; vm_compute; reflexivity. }
  assert ([answer3; answer1; answer2] ≡ₚ [answer1; answer2; answer3])
    as H4.
  { etrans; [apply perm_swap|]. apply perm_skip, perm_swap. }
  assert (requestId manager_after_three < MAX_SAFE) as H5
    by (vm_compute; reflexivity).
  split; [exact H1|]. split; [exact H2|]. split; [exact H3|].
  split; [exact H4|]. split; [exact H5|].
  destruct (correlation_correct three_calls 0 manager_after_three
              (str "say_hello") None 10000 _ _ H1 H2 H3 H4) as [Ha Hb].
  split; [exact (Ha H5)|exact Hb].
Defined.

(** ** Transport failure *)

(** C8, counterexample.  The stream exists but the worker has closed
    its end: the write is dropped (the stream's [written] is unchanged),
    yet the call is neither settled nor removed, and its timer stays
    armed. *)
Lemma transport_counterexample :
  stdin_of manager_after_one stdin_broken =
    Some {| destroyed := true;
            written := [{| jsonrpc := str "2.0"; req_id := 1;
                           method := str "say_hello"; params := None |}] |}
  /\
  stdin_of manager_after_one
    (sendRequest 0 (str "process_path") None 3000 stdin_broken).2 =
    Some {| destroyed := true;
            written := [{| jsonrpc := str "2.0"; req_id := 1;
                           method := str "say_hello"; params := None |}] |}
  /\
  (sendRequest 0 (str "process_path") None 3000 stdin_broken).1 = 1%nat /\
  promises (sendRequest 0 (str "process_path") None 3000 stdin_broken).2
    !! 1%nat = Some Pending /\
  settled (sendRequest 0 (str "process_path") None 3000 stdin_broken).2
    = [] /\
  pending_of 0 (sendRequest 0 (str "process_path") None 3000 stdin_broken).2
    !! 2 = Some {| id := 2; promise := 1; timeout := 1 |} /\
  timers (sendRequest 0 (str "process_path") None 3000 stdin_broken).2
    !! 1%nat =
    Some {| tc_this := 0; tc_id := 2; tc_method := str "process_path";
            tc_timeoutMs := 3000; tc_reject := 1 |}.
Proof. repeat split; vm_compute; reflexivity. Qed.

(** C8, amended.  If the manager's process has no stdin stream at send
    time, the call is rejected at once with the string "Python process
    stdin not available", by one invocation of [reject]; no entry for it
    stays in the pending set and no timer for it stays armed.  If the
    stream exists, the call is left pending with its timer armed,
    whether or not the stream accepts the write. *)
Theorem transport_failure (w : World) (self : nat)
    (this : PythonRequestManager) (method : jsstring)
    (params : option json) (timeoutMs : N) :
  reachable w -> managers w !! self = Some this ->
  transport_outcome self this method params timeoutMs w.
Proof.
  intros [Hcore _]%reachable_inv Hthis.
  destruct (sendRequest_returns self method params timeoutMs w)
    as [Hret _]; [by eexists|].
  unfold transport_outcome. rewrite Hret. split.
  - intros Hnone.
    assert (timers w !! nextTimer w = None) as Hfresh.
    { destruct (timers w !! nextTimer w) as [c|] eqn:E; [|done].
      destruct (core_timer _ Hcore _ _ E) as (? & _). lia. }
    assert (calls_on (length (promises w)) (settled w) = []) as Hl.
    { apply calls_on_nil. intros c Hc%(core_log _ Hcore). lia. }
    unfold sendRequest, pending_of, stdin_of in Hnone |- *.
    rewrite Hthis. simpl. rewrite Hnone. simpl.
    rewrite !list_lookup_alter_eq, Hthis. simpl. repeat split.
    + apply settle_promise_pending. by apply list_lookup_middle.
    + rewrite calls_on_snoc, Hl. simpl. by rewrite decide_True.
    + apply lookup_delete_eq.
    + by apply delete_insert_id.
  - intros Hs.
    destruct (sendRequest_records self this method params timeoutMs w
                Hthis Hs) as (H1 & H2 & H3 & H4).
    repeat split; [done| |done..].
    rewrite H4. apply calls_on_nil. intros c Hc%(core_log _ Hcore). lia.
Qed.

Lemma transport_failure_witness :
  reachable stdin_broken /\
  managers stdin_broken !! 0%nat = Some manager_after_one /\
  transport_outcome 0 manager_after_one (str "process_path") None 3000
    stdin_broken.
Proof.
  assert (reachable stdin_broken) as H1 by (eexists; reflexivity).
  assert (managers stdin_broken !! 0%nat = Some manager_after_one) as H2
    by (vm_compute; reflexivity).
  split; [exact H1|]. split; [exact H2|].
  exact (transport_failure stdin_broken 0 _ (str "process_path") None 3000
           H1 H2).
Defined.

(** ** Teardown *)

(** C4, counterexample.  With three calls pending, neither the exit of
    the worker nor [deactivate] settles any of them: all three promises
    stay pending, no [reject] is invoked, and the three timers stay
    armed; a timer firing after the teardown runs its callback and
    rejects its call with the timeout error. *)
Lemma teardown_counterexample :
  (promises (step three_pending (Exit 0 (Some 1%Z)))
     = [Pending; Pending; Pending] /\
   settled (step three_pending (Exit 0 (Some 1%Z))) = [] /\
   size (timers (step three_pending (Exit 0 (Some 1%Z)))) = 3%nat /\
   promises (run three_pending [Exit 0 (Some 1%Z); TimeoutFires 0])
     !! 0%nat =
     Some (Rejected (ReasonError
       (str "Request 1 (say_hello) timed out after 10000ms")))) /\
  (promises (step three_pending Deactivate)
     = [Pending; Pending; Pending] /\
   settled (step three_pending Deactivate) = [] /\
   size (timers (step three_pending Deactivate)) = 3%nat /\
   promises (run three_pending [Deactivate; TimeoutFires 0]) !! 0%nat =
     Some (Rejected (ReasonError
       (str "Request 1 (say_hello) timed out after 10000ms")))).
Proof. repeat split; vm_compute; reflexivity. Qed.

(** C4, amended.  When the worker exits or [deactivate] runs, the two
    module globals are cleared and nothing else happens to the calls:
    every manager keeps its pending set, no promise is settled, and
    every timer stays armed; each still-pending call is settled later,
    when its timer fires, with the timeout error. *)
Theorem teardown_leaves_calls_pending (w : World) (e : event) :
  reachable w -> teardown w e -> teardown_outcome w e.
Proof.
  intros Hreach Hdown.
  pose proof (reachable_inv _ Hreach) as [Hcore Hg].
  pose proof (reachable_inv _ (reachable_step w e Hreach)) as [Hcore' _].
  assert (pythonProcess (step w e) = None /\
          requestManager (step w e) = None /\
          managers (step w e) = managers w /\
          promises (step w e) = promises w /\
          settled (step w e) = settled w /\
          timers (step w e) = timers w) as (H1 & H2 & H3 & H4 & H5 & H6).
  { destruct Hdown as [->|(p & code & proc & -> & Hproc & Hex)]; simpl.
    - unfold deactivate. destruct (pythonProcess w) as [p|] eqn:Hp.
      + rewrite (process_usable_globals w p) by done. done.
      + done.
    - rewrite Hproc, Hex. done. }
  unfold teardown_outcome.
  split; [done|]. split; [done|]. split; [done|]. split; [done|].
  split; [done|]. split; [done|].
  intros h c Hc. rewrite <- H6 in Hc.
  destruct (core_timer _ Hcore' _ _ Hc) as (_ & Hp & _).
  destruct (fire_settles _ _ _ Hcore' Hc) as (Hl & Hrej & _).
  done.
Qed.

Lemma teardown_leaves_calls_pending_witness :
  reachable three_pending /\
  teardown three_pending (Exit 0 (Some 1%Z)) /\
  teardown_outcome three_pending (Exit 0 (Some 1%Z)).
Proof.
  assert (reachable three_pending) as H1 by (eexists; reflexivity).
  assert (teardown three_pending (Exit 0 (Some 1%Z))) as H2.
  { right. eexists 0%nat, (Some 1%Z), _.
    split; [reflexivity|]. split; vm_compute; reflexivity. }
  split; [exact H1|]. split; [exact H2|].
  exact (teardown_leaves_calls_pending three_pending _ H1 H2).
Defined.

(** ** Worker swap *)

(** C5, counterexample.  After the worker exits and the next call has
    spawned a new worker with a new manager, the call that was pending
    on the old manager is still pending there, with its timer armed; a
    late chunk on the old worker's stdout still resolves it. *)
Lemma swap_counterexample :
  pythonProcess swapped = Some 1%nat /\
  requestManager swapped = Some 1%nat /\
  pending_of 0 swapped !! 1 = Some {| id := 1; promise := 0; timeout := 0 |}
  /\
  promises swapped !! 0%nat = Some Pending /\
  timers swapped !! 0%nat =
    Some {| tc_this := 0; tc_id := 1; tc_method := str "say_hello";
            tc_timeoutMs := 10000; tc_reject := 0 |} /\
  promises
    (step swapped
       (StdoutData 0 (wire "{'jsonrpc':'2.0','id':1,'result':'late'}")))
    !! 0%nat = Some (Fulfilled (JString (str "late"))).
Proof. repeat split; vm_compute; reflexivity. Qed.

(** C5, amended.  When a worker process exits, its object is marked
    exited and both globals are cleared, so the next
    [getRequestManager] spawns a new process and binds a new manager to
    it, with an empty pending set and the counter at 1.  The pending
    calls of the old manager are not carried over: they stay, unsettled,
    in the old manager, and their timers stay armed. *)
Theorem worker_exit_rebinds (w : World) (p : nat) (code : option Z)
    (proc : ChildProcess) (io : Stdio) :
  processes w !! p = Some proc -> exited proc = false ->
  rebinds w p code io.
Proof.
  intros Hproc Hex. unfold rebinds. simpl. rewrite Hproc, Hex.
  set (w1 := on_exit code
               (set_processes (alter mark_exited p (processes w)) w)).
  assert (length (processes w1) = length (processes w)) as Hlen.
  { unfold w1. simpl. apply length_alter. }
  destruct (getRequestManager_rebuilds io w1) as (p' & Hgot); [by left|].
  destruct (getRequestManager io w1) as [m' w'] eqn:Eg.
  destruct Hgot as (-> & Hrm & Hpp & Hms & Hps & Hts & _ & Hss & _ & Hcase).
  destruct Hcase as [(Hu & _)|(_ & -> & Hprocs)]; [done|].
  simpl. split.
  { exists (mark_exited proc). unfold w1. simpl.
    by rewrite list_lookup_alter_eq, Hproc. }
  split; [done|]. split; [done|]. split; [done|]. split; [done|].
  split; [by rewrite Hpp, Hlen|]. split.
  { rewrite Hprocs, Hlen. unfold w1 at 2. simpl.
    rewrite list_lookup_alter_eq.
    rewrite lookup_app_r by (rewrite length_alter; lia).
    by rewrite length_alter, Nat.sub_diag. }
  split; [by rewrite Hms, Hlen|]. done.
Qed.

Lemma worker_exit_rebinds_witness :
  processes one_pending !! 0%nat =
    Some {| killed := false; exited := false;
            stdin := Some {| destroyed := false;
                             written := [{| jsonrpc := str "2.0";
                                            req_id := 1;
                                            method := str "say_hello";
                                            params := None |}] |};
            stdout := Some [0%nat]; stderr := true |} /\
  rebinds one_pending 0 (Some 1%Z) piped.
Proof.
  assert (processes one_pending !! 0%nat =
    Some {| killed := false; exited := false;
            stdin := Some {| destroyed := false;
                             written := [{| jsonrpc := str "2.0";
                                            req_id := 1;
                                            method := str "say_hello";
                                            params := None |}] |};
            stdout := Some [0%nat]; stderr := true |}) as H2
    by (vm_compute; reflexivity).
  split; [exact H2|].
  exact (worker_exit_rebinds one_pending 0 (Some 1%Z) _ piped H2 eq_refl).
Defined.

(** ** Framing of inbound chunks *)

Lemma unchanged_sym w w' : unchanged w w' -> unchanged w' w.
Proof. unfold unchanged. intros (?&?&?&?&?&?&?&?). by repeat split. Qed.

(** [handleResponse] never reads the console. *)
Lemma handleResponse_console_irrelevant self data w1 w2 :
  unchanged w1 w2 ->
  unchanged (world_of (handleResponse self data w1))
    (world_of (handleResponse self data w2)).
Proof.
  intros Hun.
  assert (pending_of self w2 = pending_of self w1) as Hpend.
  { destruct Hun as (_&_&_&Hm&_). unfold pending_of. by rewrite Hm. }
  destruct (answers_or_orphan self data w1)
    as [(response & k & pr & Hans)|Horph].
  - assert (answers self data w2 response k pr) as Hans2.
    { destruct Hans as (?&?&?). repeat split; [done..|]. by rewrite Hpend. }
    rewrite (handleResponse_matched _ _ _ _ _ _ Hans).
    rewrite (handleResponse_matched _ _ _ _ _ _ Hans2).
    destruct Hun as (?&?&?&?&?&?&?&?). unfold unchanged. simpl.
    repeat split; congruence.
  - assert (orphan self data w2) as Horph2.
    { intros r Hr. rewrite Hpend. by apply Horph. }
    destruct (handleResponse_orphan _ _ _ Horph) as (w1' & -> & H1).
    destruct (handleResponse_orphan _ _ _ Horph2) as (w2' & -> & H2).
    simpl. eapply unchanged_trans; [|exact H2].
    eapply unchanged_trans; [|exact Hun]. by apply unchanged_sym.
Qed.

(** C3, counterexample.  The envelope of the pending call, split over
    two deliveries, decodes to nothing: both chunks are logged as parse
    failures and the call stays pending, whereas the same bytes in one
    delivery resolve it.  Two complete envelopes in one delivery are not
    decoded either. *)
Lemma partial_frame_counterexample :
  (promises (run one_pending
               [StdoutData 0 (wire "{'jsonrpc':'2");
                StdoutData 0 (wire ".0','id':1,'result':'ok'}" ++ [10])])
     = [Pending] /\
   settled (run one_pending
              [StdoutData 0 (wire "{'jsonrpc':'2");
               StdoutData 0 (wire ".0','id':1,'result':'ok'}" ++ [10])])
     = [] /\
   lvl <$> console (run one_pending
                      [StdoutData 0 (wire "{'jsonrpc':'2");
                       StdoutData 0
                         (wire ".0','id':1,'result':'ok'}" ++ [10])])
     = [LLog; LLog; LError; LLog; LError]) /\
  promises (run one_pending
              [StdoutData 0
                 (wire "{'jsonrpc':'2.0','id':1,'result':'ok'}" ++ [10])])
    = [Fulfilled (JString (str "ok"))] /\
  (promises (run three_pending
               [StdoutData 0
                  (wire "{'jsonrpc':'2.0','id':1,'result':'a'}" ++ [10] ++
                   wire "{'jsonrpc':'2.0','id':2,'result':'b'}" ++ [10])])
     = [Pending; Pending; Pending] /\
   settled (run three_pending
              [StdoutData 0
                 (wire "{'jsonrpc':'2.0','id':1,'result':'a'}" ++ [10] ++
                  wire "{'jsonrpc':'2.0','id':2,'result':'b'}" ++ [10])])
     = []).
Proof. repeat split; vm_compute; reflexivity. Qed.

(** C3, amended.  The handler keeps no buffer and parses each delivered
    chunk as a whole with [JSON.parse].  A chunk that is not one JSON
    document (a fragment of an envelope, or several envelopes) is logged
    as a parse failure and dropped, changing nothing but the console,
    and the chunk that follows is handled as if the dropped one had
    never arrived. *)
Theorem chunk_parsed_whole (self : nat) (data0 data : jsstring)
    (w : World) :
  JSON.parse data0 = None -> dropped_whole self data0 data w.
Proof.
  intros Hnone.
  assert (handleResponse self data0 w =
    Normal (console_write LError (str "Failed to parse Python response:")
              [AExn SyntaxError; AText (str "Raw data:"); AText data0]
              (console_write LLog (str "Raw Python response:")
                 [AText data0] w))) as Hdrop.
  { unfold handleResponse, handleResponse_try. by rewrite Hnone. }
  split; [exact Hdrop|].
  apply handleResponse_console_irrelevant. rewrite Hdrop. simpl.
  by repeat split.
Qed.

Lemma chunk_parsed_whole_witness :
  JSON.parse (wire "{'jsonrpc':'2") = None /\
  dropped_whole 0 (wire "{'jsonrpc':'2")
    (wire ".0','id':1,'result':'ok'}" ++ [10]) one_pending.
Proof.
  assert (JSON.parse (wire "{'jsonrpc':'2") = None) as H1
    by (vm_compute; reflexivity).
  split; [exact H1|].
  exact (chunk_parsed_whole 0 _ _ one_pending H1).
Defined.

End ManagerFacts.

(** * Properties of the legacy bridge *)

Section LegacyFacts.
Import Legacy.

Lemma two_calls_world now1 now2 method1 method2 params1 params2 :
  two_calls now1 now2 method1 method2 params1 params2 =
  {| pythonProcess := Some 0%nat;
     processes :=
       [{| killed := false; exited := false;
           stdin :=
             Some {| destroyed := false;
                     written :=
                       [{| jsonrpc := str "2.0"; req_id := now1;
                           method := method1; params := params1 |};
                        {| jsonrpc := str "2.0"; req_id := now2;
                           method := method2; params := params2 |}] |};
           stdout := Some [0%nat; 1%nat]; stderr := true |}];
     promises := [Pending; Pending]; console := []; settled := [] |}.
Proof. reflexivity. Qed.

(** A handler settles the promise of its own call with the outcome of
    the chunk, and touches no other promise. *)
Lemma dataHandler_promises proc p data w :
  promises (dataHandler proc p data w) =
  settle_promise p (chunk_outcome data) (promises w).
Proof.
  unfold dataHandler, chunk_outcome.
  destruct (JSON.parse data) as [response|]; [|reflexivity].
  assert (promises (if has_stdout_stream proc w
                    then removeListener proc p w else w) = promises w)
    as Hp by (by destruct (has_stdout_stream proc w)).
  destruct response; simpl; rewrite ?Hp; try reflexivity;
    (destruct (assoc_last (str "result") fields) as [result|];
       [by simpl; rewrite Hp|];
     destruct (assoc_last (str "error") fields) as [error|];
       [destruct (truthy error)|]; by simpl; rewrite Hp).
Qed.

Lemma chunk_outcome_settles data : chunk_outcome data <> Pending.
Proof.
  unfold chunk_outcome.
  destruct (JSON.parse data) as [response|]; [|done].
  destruct response; simpl; try done;
    (destruct (assoc_last (str "result") fields); [done|];
     destruct (assoc_last (str "error") fields) as [error|]; [|done];
     by destruct (truthy error)).
Qed.

Lemma chunk_outcome_result data response result :
  JSON.parse data = Some response ->
  get_prop response (str "result") = Some result ->
  chunk_outcome data = Fulfilled result.
Proof.
  intros Hparse Hres. unfold chunk_outcome. rewrite Hparse.
  destruct response; simpl in *; try discriminate. by rewrite Hres.
Qed.

(** The handlers of an emit settle their promises one after the
    other. *)
Lemma emit_data_promises proc ls data w :
  promises (emit_data proc ls data w) =
  foldl (fun ps p => settle_promise p (chunk_outcome data) ps)
    (promises w) ls.
Proof.
  unfold emit_data. revert w.
  induction ls as [|p ls IH]; intros w; [done|].
  simpl. by rewrite IH, dataHandler_promises.
Qed.

Lemma foldl_settle_other (ls : list nat) o (ps : list promise_state) p :
  p ∉ ls ->
  foldl (fun ps p => settle_promise p o ps) ps ls !! p = ps !! p.
Proof.
  revert ps. induction ls as [|q ls IH]; intros ps Hnotin; [done|].
  simpl. rewrite IH by set_solver.
  apply settle_promise_other. set_solver.
Qed.

Lemma listeners_bounded_mono procs n n' :
  (n <= n')%nat -> listeners_bounded procs n -> listeners_bounded procs n'.
Proof.
  intros Hle Hb q proc ls p Hq Hs Hp.
  specialize (Hb q proc ls p Hq Hs Hp). lia.
Qed.

Lemma listeners_bounded_alter procs n f q :
  (forall proc ls', stdout (f proc) = Some ls' ->
     exists ls, stdout proc = Some ls /\
                forall p, p ∈ ls' -> p ∈ ls \/ (p < n)%nat) ->
  listeners_bounded procs n -> listeners_bounded (alter f q procs) n.
Proof.
  intros Hf Hb q' proc ls p Hq Hs Hp.
  destruct (decide (q = q')) as [<-|Hne].
  - rewrite list_lookup_alter_eq in Hq.
    destruct (procs !! q) as [proc0|] eqn:E; simplify_eq/=.
    destruct (Hf _ _ Hs) as (ls0 & Hs0 & Hsub).
    destruct (Hsub p Hp) as [Hin|?]; [|done]. by eapply Hb.
  - rewrite list_lookup_alter_ne in Hq by done. by eapply Hb.
Qed.

Lemma listeners_bounded_keep procs n f q :
  (forall proc, stdout (f proc) = stdout proc) ->
  listeners_bounded procs n -> listeners_bounded (alter f q procs) n.
Proof.
  intros Hf. apply listeners_bounded_alter.
  intros proc ls' Hs. rewrite Hf in Hs. exists ls'. split; [done|]. auto.
Qed.

Lemma listeners_bounded_spawn procs n io :
  listeners_bounded procs n -> listeners_bounded (procs ++ [spawn io]) n.
Proof.
  intros Hb q proc ls p Hq Hs Hp.
  apply lookup_app_Some in Hq as [Hq|[_ Hq]]; [by eapply Hb|].
  apply list_lookup_singleton_Some in Hq as [_ <-].
  unfold spawn in Hs. simpl in Hs.
  destruct (has_stdout io); simplify_eq. by apply elem_of_nil in Hp.
Qed.

Lemma dataHandler_bounded proc p data w :
  listeners_bounded (processes w) (length (promises w)) ->
  listeners_bounded (processes (dataHandler proc p data w))
    (length (promises (dataHandler proc p data w))).
Proof.
  intros Hb. rewrite dataHandler_promises, settle_promise_length.
  assert (listeners_bounded
            (processes (if has_stdout_stream proc w
                        then removeListener proc p w else w))
            (length (promises w))) as Hb'.
  { destruct (has_stdout_stream proc w); [|done]. simpl.
    apply listeners_bounded_alter; [|done].
    intros pr ls' Hs. unfold with_stdout in Hs. simpl in Hs.
    destruct (stdout pr) as [ls|]; simplify_eq/=.
    exists ls. split; [done|]. intros x Hx%list_elem_of_filter. left.
    by destruct Hx. }
  unfold dataHandler.
  destruct (JSON.parse data) as [response|]; [|done].
  destruct response; simpl; try done;
    (destruct (assoc_last (str "result") fields); [done|];
     destruct (assoc_last (str "error") fields) as [error|]; [|done];
     by destruct (truthy error)).
Qed.

Lemma emit_data_bounded proc ls data w :
  listeners_bounded (processes w) (length (promises w)) ->
  listeners_bounded (processes (emit_data proc ls data w))
    (length (promises (emit_data proc ls data w))).
Proof.
  unfold emit_data. revert w.
  induction ls as [|p ls IH]; intros w Hb; [done|].
  simpl. apply IH. by apply dataHandler_bounded.
Qed.

Lemma startPythonProcess_bounded io w n :
  listeners_bounded (processes w) n ->
  listeners_bounded (processes (startPythonProcess io w).2) n.
Proof.
  intros Hb. unfold startPythonProcess.
  destruct (pythonProcess w); [destruct (process_usable w)|]; simpl;
    auto using listeners_bounded_spawn.
Qed.

(** [sendToPython] by cases on the streams of the process it got. *)
Lemma sendToPython_cases now method params io w :
  let p := length (promises w) in
  let q := (startPythonProcess io (new_promise w).2).1 in
  let w1 := (startPythonProcess io (new_promise w).2).2 in
  let registered :=
    set_processes
      (alter (with_stdout (fun ls => ls ++ [p])) q (processes w1)) w1 in
  let request :=
    {| jsonrpc := str "2.0"; req_id := now;
       method := method; params := params |} in
  (sendToPython now method params io w).1 = p /\
  ((exists proc ls sin,
      processes w1 !! q = Some proc /\ stdout proc = Some ls /\
      stdin proc = Some sin /\
      (sendToPython now method params io w).2 =
        set_processes
          (alter (with_stdin (stream_write request)) q
             (processes registered)) registered) \/
   (exists why,
      (sendToPython now method params io w).2 =
        reject p ViaTransport why registered) \/
   (exists why,
      (sendToPython now method params io w).2 =
        reject p ViaTransport why w1)).
Proof.
  unfold sendToPython. simpl.
  destruct (startPythonProcess io (new_promise w).2) as [q w1] eqn:Es.
  unfold new_promise in Es. simpl in Es. rewrite Es. simpl.
  unfold has_stdout_stream. rewrite list_lookup_alter_eq.
  destruct (processes w1 !! q) as [proc|] eqn:Hproc; simpl.
  2: { split; [done|]. right. right. by eexists. }
  destruct (stdout proc) as [ls|] eqn:Hls; simpl.
  2: { split; [done|]. right. right. by eexists. }
  destruct (stdin proc) as [sin|] eqn:Hsin; simpl.
  - split; [done|]. left. by exists proc, ls, sin.
  - split; [done|]. right. left. by eexists.
Qed.

Lemma startPythonProcess_promises io w :
  promises (startPythonProcess io w).2 = promises w.
Proof.
  unfold startPythonProcess.
  destruct (pythonProcess w); [destruct (process_usable w)|]; done.
Qed.

Lemma startPythonProcess_current io w :
  pythonProcess (startPythonProcess io w).2 =
  Some (startPythonProcess io w).1.
Proof.
  unfold startPythonProcess.
  destruct (pythonProcess w) eqn:E; [destruct (process_usable w)|]; done.
Qed.

Lemma register_bounded q (w1 : World) p :
  (p < length (promises w1))%nat ->
  listeners_bounded (processes w1) (length (promises w1)) ->
  listeners_bounded
    (alter (with_stdout (fun ls => ls ++ [p])) q (processes w1))
    (length (promises w1)).
Proof.
  intros Hp. apply listeners_bounded_alter.
  intros pr ls' Hs. unfold with_stdout in Hs. simpl in Hs.
  destruct (stdout pr) as [ls|]; simplify_eq/=.
  exists ls. split; [done|].
  intros x [Hx|Hx%list_elem_of_singleton]%elem_of_app; [by left|right].
  by subst.
Qed.

Lemma sendToPython_bounded now method params io w :
  listeners_bounded (processes w) (length (promises w)) ->
  listeners_bounded (processes (sendToPython now method params io w).2)
    (length (promises (sendToPython now method params io w).2)).
Proof.
  intros Hb.
  pose proof (startPythonProcess_bounded io (new_promise w).2 _ Hb) as Hb1.
  pose proof (startPythonProcess_promises io (new_promise w).2) as Hp.
  destruct (sendToPython_cases now method params io w) as [_ Hcases].
  set (w1 := (startPythonProcess io (new_promise w).2).2) in *.
  set (q := (startPythonProcess io (new_promise w).2).1) in *.
  simpl in Hp.
  assert (length (promises w) < length (promises w1))%nat as Hlt
    by (rewrite Hp, length_app; simpl; lia).
  assert (listeners_bounded (processes w1) (length (promises w1))) as Hb2.
  { eapply listeners_bounded_mono; [|exact Hb1]. lia. }
  pose proof (register_bounded q w1 _ Hlt Hb2) as Hb3.
  destruct Hcases as [(proc & ls & sin & _ & _ & _ & ->)|[[why ->]|[why ->]]];
    simpl; rewrite ?settle_promise_length; try done.
  by apply listeners_bounded_keep.
Qed.

Lemma legacy_step_bounded w e :
  listeners_bounded (processes w) (length (promises w)) ->
  listeners_bounded (processes (step w e)) (length (promises (step w e))).
Proof.
  intros Hb. destruct e as [now method params io|q data|q code|]; simpl.
  - by apply sendToPython_bounded.
  - by apply emit_data_bounded.
  - destruct (processes w !! q) as [proc|]; [destruct (exited proc)|];
      try done.
    simpl. by apply listeners_bounded_keep.
  - unfold deactivate.
    destruct (pythonProcess w); [destruct (process_usable w)|]; try done.
    simpl. by apply listeners_bounded_keep.
Qed.

Lemma legacy_run_bounded es :
  listeners_bounded (processes (run init es))
    (length (promises (run init es))).
Proof.
  assert (forall w, listeners_bounded (processes w) (length (promises w)) ->
            listeners_bounded (processes (run w es))
              (length (promises (run w es)))) as H.
  { induction es as [|e es IH]; intros w Hb; [done|].
    simpl. apply IH. by apply legacy_step_bounded. }
  apply H. intros q proc ls p Hq. done.
Qed.

(** C10.  Any call through the legacy [sendToPython] that is not
    rejected at send time has registered its own [data] listener, after
    those of the earlier calls; the next chunk on the worker's stdout,
    whatever it is, settles the call, and a response carrying a result
    fulfils it with that result whatever identifier the response
    carries.  For two calls at clock readings [now1] and [now2] the
    requests written carry these readings of [Date.now()] as their
    [id]s (which coincide when the readings do), and one response
    fulfils both promises with its result: at least one of the calls is
    settled by a response that answers the other. *)
Theorem legacy_cross_talk (es : list event) (now now1 now2 : N)
    (method method1 method2 : jsstring)
    (params params1 params2 : option json) (io : Stdio) (q : nat)
    (data : jsstring) :
  promises (sendToPython now method params io (run init es)).2
    !! (sendToPython now method params io (run init es)).1
    = Some Pending ->
  pythonProcess (sendToPython now method params io (run init es)).2
    = Some q ->
  settled_by_any_chunk
    (sendToPython now method params io (run init es)).1 q data
    (sendToPython now method params io (run init es)).2 /\
  (req_id <$> requests_written 0
     (two_calls now1 now2 method1 method2 params1 params2)
     = [now1; now2] /\
   promises (two_calls now1 now2 method1 method2 params1 params2)
     = [Pending; Pending] /\
   forall response result,
     JSON.parse data = Some response ->
     get_prop response (str "result") = Some result ->
     promises
       (step (two_calls now1 now2 method1 method2 params1 params2)
          (StdoutData 0 data)) = [Fulfilled result; Fulfilled result]).
Proof.
  intros Hpend Hq. split.
  - pose proof (legacy_run_bounded es) as Hb.
    set (w := run init es) in *.
    pose proof (startPythonProcess_bounded io (new_promise w).2 _ Hb) as Hb1.
    pose proof (startPythonProcess_promises io (new_promise w).2) as Hp.
    pose proof (startPythonProcess_current io (new_promise w).2) as Hcur.
    destruct (sendToPython_cases now method params io w) as [Hret Hcases].
    set (w1 := (startPythonProcess io (new_promise w).2).2) in *.
    set (q' := (startPythonProcess io (new_promise w).2).1) in *.
    simpl in Hp. rewrite Hret in *.
    assert (w1.(promises) !! length (promises w) = Some Pending) as Hnew
      by (rewrite Hp; by apply list_lookup_middle).
    destruct Hcases
      as [(proc & ls & sin & Hproc & Hls & Hsin & Hw)|[[why Hw]|[why Hw]]].
    2, 3: rewrite Hw in Hpend; simpl in Hpend;
          by rewrite settle_promise_pending in Hpend.
    assert (q' = q) as ->.
    { rewrite Hw in Hq. simpl in Hq. congruence. }
    assert (length (promises w) ∉ ls) as Hfresh.
    { intros Hin. specialize (Hb1 q proc ls _ Hproc Hls Hin). lia. }
    assert (stdout_listeners q (sendToPython now method params io w).2 =
            ls ++ [length (promises w)]) as Hlisten.
    { rewrite Hw. unfold stdout_listeners. simpl.
      rewrite !list_lookup_alter_eq, Hproc. simpl. by rewrite Hls. }
    split; [by exists ls|].
    exists (chunk_outcome data).
    split; [apply chunk_outcome_settles|]. split.
    + unfold step. rewrite Hlisten, emit_data_promises, foldl_app. simpl.
      apply settle_promise_pending. by rewrite foldl_settle_other.
    + intros response result Hparse Hres.
      by apply (chunk_outcome_result _ response).
  - assert (promises
      (step (two_calls now1 now2 method1 method2 params1 params2)
         (StdoutData 0 data)) = [chunk_outcome data; chunk_outcome data])
      as Hboth.
    { rewrite two_calls_world. unfold step, emit_data, stdout_listeners.
      simpl. rewrite !dataHandler_promises. reflexivity. }
    rewrite two_calls_world in *.
    split; [reflexivity|]. split; [reflexivity|].
    intros response result Hparse Hres.
    by rewrite Hboth, (chunk_outcome_result _ _ _ Hparse Hres).
Qed.

Lemma legacy_cross_talk_witness :
  promises
    (sendToPython 1700000000001 (str "say_hello") None piped
       (run init [Call 1700000000000 (str "say_hello") None piped])).2
    !! (sendToPython 1700000000001 (str "say_hello") None piped
          (run init [Call 1700000000000 (str "say_hello") None piped])).1
    = Some Pending /\
  pythonProcess
    (sendToPython 1700000000001 (str "say_hello") None piped
       (run init [Call 1700000000000 (str "say_hello") None piped])).2
    = Some 0%nat /\
  settled_by_any_chunk
    (sendToPython 1700000000001 (str "say_hello") None piped
       (run init [Call 1700000000000 (str "say_hello") None piped])).1
    0
    (wire "{'jsonrpc':'2.0','id':1700000000000,'result':'Hello, a!'}"
     ++ [10])
    (sendToPython 1700000000001 (str "say_hello") None piped
       (run init [Call 1700000000000 (str "say_hello") None piped])).2 /\
  (req_id <$> requests_written 0
     (two_calls 1700000000000 1700000000000 (str "say_hello")
        (str "say_hello") None None)
     = [1700000000000; 1700000000000] /\
   promises
     (two_calls 1700000000000 1700000000000 (str "say_hello")
        (str "say_hello") None None) = [Pending; Pending] /\
   forall response result,
     JSON.parse
       (wire "{'jsonrpc':'2.0','id':1700000000000,'result':'Hello, a!'}"
        ++ [10]) = Some response ->
     get_prop response (str "result") = Some result ->
     promises
       (step (two_calls 1700000000000 1700000000000 (str "say_hello")
                (str "say_hello") None None)
          (StdoutData 0
             (wire
                "{'jsonrpc':'2.0','id':1700000000000,'result':'Hello, a!'}"
              ++ [10]))) = [Fulfilled result; Fulfilled result]).
Proof.
  assert (promises
    (sendToPython 1700000000001 (str "say_hello") None piped
       (run init [Call 1700000000000 (str "say_hello") None piped])).2
    !! (sendToPython 1700000000001 (str "say_hello") None piped
          (run init [Call 1700000000000 (str "say_hello") None piped])).1
    = Some Pending) as H1 by (vm_compute; reflexivity).
  assert (pythonProcess
    (sendToPython 1700000000001 (str "say_hello") None piped
       (run init [Call 1700000000000 (str "say_hello") None piped])).2
    = Some 0%nat) as H2 by (vm_compute; reflexivity).
  split; [exact H1|]. split; [exact H2|].
  exact (legacy_cross_talk
           [Call 1700000000000 (str "say_hello") None piped]
           1700000000001 1700000000000 1700000000000
           (str "say_hello") (str "say_hello") (str "say_hello")
           None None None piped 0
           (wire "{'jsonrpc':'2.0','id':1700000000000,'result':'Hello, a!'}"
            ++ [10]) H1 H2).
Defined.

(** Two calls in the same millisecond, and the response to one of
    them. *)
Example legacy_same_millisecond :
  req_id <$> requests_written 0
    (two_calls 1700000000000 1700000000000 (str "say_hello")
       (str "say_hello") (Some (JObject [(str "name", JString (str "a"))]))
       (Some (JObject [(str "name", JString (str "b"))])))
    = [1700000000000; 1700000000000] /\
  promises
    (step (two_calls 1700000000000 1700000000000 (str "say_hello")
             (str "say_hello")
             (Some (JObject [(str "name", JString (str "a"))]))
             (Some (JObject [(str "name", JString (str "b"))])))
       (StdoutData 0
          (wire "{'jsonrpc':'2.0','id':1700000000000,'result':'Hello, a!'}"
           ++ [10])))
    = [Fulfilled (JString (str "Hello, a!"));
       Fulfilled (JString (str "Hello, a!"))].
Proof. split; vm_compute; reflexivity. Qed.

End LegacyFacts.

(** * Workers and managers in pairs *)

Section PairingFacts.
Import Manager Bookkeeping.

Lemma filter_none {A} (P : A -> Prop) `{!forall x, Decision (P x)}
    (l : list A) :
  Forall (fun x => ~ P x) l -> filter P l = [].
Proof.
  induction 1 as [|x l Hx _ IH]; [done|]. by rewrite filter_cons_False.
Qed.

Lemma fmap_alter_same {A B} (f : A -> B) (g : A -> A) i (l : list A) :
  (forall x, f (g x) = f x) -> f <$> alter g i l = f <$> l.
Proof.
  intros Hfg. apply list_eq. intros j. rewrite !list_lookup_fmap.
  destruct (decide (i = j)) as [->|Hne].
  - rewrite list_lookup_alter_eq. destruct (l !! j); simpl; [|done].
    by rewrite Hfg.
  - by rewrite list_lookup_alter_ne.
Qed.

Lemma paired_same w w' :
  Paired w ->
  process <$> managers w' = process <$> managers w ->
  stdout <$> processes w' = stdout <$> processes w ->
  requestManager w' = pythonProcess w' ->
  (forall p, pythonProcess w' = Some p -> pythonProcess w = Some p) ->
  Paired w'.
Proof.
  intros [H1 H2 H3 H4] Em Ep Eg Hcur.
  assert (length (processes w') = length (processes w)) as El.
  { apply (f_equal length) in Ep. by rewrite !length_fmap in Ep. }
  split.
  - by rewrite Em, El.
  - intros p proc Hp.
    assert ((stdout <$> processes w) !! p = Some (stdout proc)) as Hq.
    { rewrite <- Ep, list_lookup_fmap, Hp. done. }
    apply list_lookup_fmap_Some in Hq as (proc0 & -> & Hq). eauto.
  - done.
  - intros p Hp. rewrite El. auto.
Qed.

Lemma handleResponse_shape self data w :
  let w' := world_of (handleResponse self data w) in
  process <$> managers w' = process <$> managers w /\
  requestId <$> managers w' = requestId <$> managers w.
Proof.
  destruct (answers_or_orphan self data w)
    as [(response & k & pr & Hans)|Horph].
  - rewrite (handleResponse_matched _ _ _ _ _ _ Hans). simpl.
    split; by apply fmap_alter_same.
  - destruct (handleResponse_orphan _ _ _ Horph)
      as (w' & -> & (?&?&?&Hm&?)).
    simpl. by rewrite Hm.
Qed.

Lemma emit_data_shape ls data w :
  let w' := world_of (emit_data ls data w) in
  process <$> managers w' = process <$> managers w /\
  requestId <$> managers w' = requestId <$> managers w.
Proof.
  revert w. induction ls as [|m ls IH]; intros w; [done|].
  simpl. pose proof (handleResponse_shape m data w) as [H1 H2].
  destruct (handleResponse m data w) as [w'|e w']; simpl in *; [|done].
  destruct (IH w') as [H3 H4]. split; congruence.
Qed.

Lemma fire_shape h w :
  process <$> managers (fire h w) = process <$> managers w /\
  requestId <$> managers (fire h w) = requestId <$> managers w.
Proof.
  unfold fire. destruct (timers w !! h) as [c|]; [|done]. simpl.
  split; by apply fmap_alter_same.
Qed.

Lemma sendRequest_shape self method params timeoutMs w :
  let w' := (sendRequest self method params timeoutMs w).2 in
  process <$> managers w' = process <$> managers w /\
  stdout <$> processes w' = stdout <$> processes w /\
  pythonProcess w' = pythonProcess w /\
  requestManager w' = requestManager w.
Proof.
  unfold sendRequest.
  destruct (managers w !! self) as [this|]; [|done].
  unfold stdin_of. simpl.
  destruct (processes w !! process this) as [proc|]; simpl;
    [destruct (stdin proc); simpl|];
    rewrite ?(fmap_alter_same process), ?(fmap_alter_same stdout); done.
Qed.

Lemma getRequestManager_paired io w :
  Inv w -> Paired w -> Paired (getRequestManager io w).2.
Proof.
  intros [_ Hg] Hp. pose proof Hp as [H1 H2 H3 H4].
  destruct (requestManager w) as [m|] eqn:Hm.
  - rewrite (getRequestManager_keeps io w m); [done|done|].
    by apply (process_usable_globals w m).
  - assert (process_usable w = false) as Hu.
    { unfold process_usable. by rewrite <- H3. }
    destruct (getRequestManager_rebuilds io w) as (p & H); [by left|].
    destruct (getRequestManager io w) as [m' w'].
    destruct H as (-> & Hm' & Hp' & Ems & _ & _ & _ & _ & _ & Hps). simpl.
    destruct Hps as [(Hu' & _)|(_ & -> & Hps)]; [congruence|].
    assert (length (managers w) = length (processes w)) as El.
    { apply (f_equal length) in H1.
      by rewrite length_fmap, length_seq in H1. }
    rewrite El in *.
    assert (length (processes w') = S (length (processes w))) as El'.
    { rewrite Hps, length_alter, length_app. simpl. lia. }
    split.
    + rewrite Ems, fmap_app, H1, El', seq_S. done.
    + intros q proc. rewrite Hps.
      destruct (decide (length (processes w) = q)) as [<-|Hne].
      * rewrite list_lookup_alter_eq, lookup_app_r, Nat.sub_diag by lia.
        simpl. intros [= <-]. simpl.
        destruct (has_stdout io); simpl; auto.
      * rewrite list_lookup_alter_ne by done. intros Hq.
        apply lookup_app_Some in Hq as [Hq|[Hge Hq]]; [eauto|].
        apply list_lookup_singleton_Some in Hq as [Hq _]. lia.
    + congruence.
    + intros q Hq. rewrite Hp' in Hq. injection Hq as <-. lia.
Qed.

Lemma deactivate_paired w : Inv w -> Paired w -> Paired (deactivate w).
Proof.
  intros [_ Hg] Hp. unfold deactivate.
  destruct (pythonProcess w) as [p|] eqn:Hcur.
  - rewrite (process_usable_globals w p) by done.
    eapply paired_same; [exact Hp|simpl..]; try done.
    by apply fmap_alter_same.
  - eapply paired_same; [exact Hp|simpl..]; try done.
Qed.

Lemma step_paired w e : Inv w -> Paired w -> Paired (step w e).
Proof.
  intros Hinv Hp. destruct e as [method params io|io|m method params ms
    |p data|p data|p|p code|h|]; simpl.
  - unfold sendToPython.
    pose proof (getRequestManager_paired io w Hinv Hp) as Hp'.
    destruct (getRequestManager io w) as [m w']. simpl in *.
    destruct (sendRequest_shape m method params 10000 w') as (?&?&E1&E2).
    eapply paired_same; [exact Hp'|try done..].
    + rewrite E1, E2. apply Hp'.
    + intros q. by rewrite E1.
  - by apply getRequestManager_paired.
  - destruct (sendRequest_shape m method params ms w) as (?&?&E1&E2).
    eapply paired_same; [exact Hp|try done..].
    + rewrite E1, E2. apply Hp.
    + intros q. by rewrite E1.
  - destruct (emit_data_frame (stdout_listeners p w) data w) as (E1&E2&E3).
    destruct (emit_data_shape (stdout_listeners p w) data w) as [E4 _].
    eapply paired_same; [exact Hp|try done..].
    + by rewrite E3.
    + rewrite E1, E2. apply Hp.
    + intros q. by rewrite E1.
  - destruct (processes w !! p) as [proc|]; [destruct (stderr proc)|];
      try done.
    eapply paired_same; [exact Hp|try done..]. apply Hp.
  - eapply paired_same; [exact Hp|simpl; try done..].
    + by apply fmap_alter_same.
    + apply Hp.
  - destruct (processes w !! p) as [proc|]; [destruct (exited proc)|];
      try done.
    eapply paired_same; [exact Hp|simpl; try done..].
    by apply fmap_alter_same.
  - destruct (fire_frame h w) as (E1&E2&E3).
    destruct (fire_shape h w) as [E4 _].
    eapply paired_same; [exact Hp|try done..].
    + by rewrite E3.
    + rewrite E1, E2. apply Hp.
    + intros q. by rewrite E1.
  - by apply deactivate_paired.
Qed.

Lemma init_paired : Paired init.
Proof. split; done. Qed.

Lemma run_paired_from w es : Inv w -> Paired w -> Paired (run w es).
Proof.
  revert w. induction es as [|e es IH]; intros w Hi Hp; [done|].
  simpl. apply IH; [by apply step_inv|by apply step_paired].
Qed.

Lemma run_paired es : Paired (run init es).
Proof. apply run_paired_from; [apply init_inv|apply init_paired]. Qed.

Lemma paired_current w m :
  Inv w -> Paired w -> requestManager w = Some m ->
  pythonProcess w = Some m /\ process_usable w = true /\
  exists this, managers w !! m = Some this /\ process this = m.
Proof.
  intros [_ Hg] Hp Hm.
  assert (pythonProcess w = Some m) as Hcur.
  { rewrite <- Hm. symmetry. apply Hp. }
  split; [done|]. split; [by apply (process_usable_globals w m)|].
  destruct (Hg m Hcur) as (proc & Hproc & _).
  apply lookup_lt_Some in Hproc.
  assert ((process <$> managers w) !! m = Some m) as Hb.
  { rewrite (paired_bound _ Hp). by apply lookup_seq_lt. }
  apply list_lookup_fmap_Some in Hb as (this & ? & ?). eauto.
Qed.

Lemma paired_process w m this :
  Paired w -> managers w !! m = Some this -> process this = m.
Proof.
  intros Hp Hm.
  assert ((process <$> managers w) !! m = Some (process this)) as Hb.
  { by rewrite list_lookup_fmap, Hm. }
  rewrite (paired_bound _ Hp) in Hb.
  apply lookup_seq in Hb as [-> _]. done.
Qed.

Lemma fmap_length_eq {A B} (f : A -> B) (l l' : list A) :
  f <$> l' = f <$> l -> length l' = length l.
Proof. intros E. apply (f_equal length) in E. by rewrite !length_fmap in E. Qed.

(** X2.  While [requestManager] is set (no exit and no [deactivate]
    since the last call), [sendToPython] is [sendRequest] on that manager
    with a timeout of 10000 ms; it spawns no process and creates no
    manager, and leaves both globals pointing to the same pair. *)
Theorem call_reuses_worker (es : list event) (m : nat) (method : jsstring)
    (params : option json) (io : Stdio) :
  requestManager (run init es) = Some m ->
  reuses_worker (run init es) m method params io.
Proof.
  intros Hm. set (w := run init es) in *.
  assert (Inv w) as Hinv by apply run_inv, init_inv.
  assert (Paired w) as Hp by apply run_paired.
  destruct (paired_current w m Hinv Hp Hm) as (Hcur & Hu & _).
  assert (sendToPython method params io w =
          sendRequest m method params 10000 w) as E.
  { unfold sendToPython. by rewrite (getRequestManager_keeps io w m). }
  split; [exact E|]. simpl. rewrite E.
  destruct (sendRequest_shape m method params 10000 w) as (E1&E2&E3&E4).
  simpl in *. rewrite E3, E4.
  repeat split; try done; eapply fmap_length_eq; eauto.
Qed.

(** X1.  Whatever sequence of events has run, workers and managers come
    in pairs: there are as many managers as processes, manager [m] is
    bound to process [m] and is the only listener on that process's
    stdout (none if the spawn yielded no stdout), and the two globals
    [requestManager] and [pythonProcess] are either both null or point
    to the same, latest pair. *)
Theorem workers_and_managers_paired (es : list event) :
  paired_up (run init es).
Proof.
  pose proof (run_paired es) as Hp. set (w := run init es) in *.
  assert (length (managers w) = length (processes w)) as El.
  { pose proof (paired_bound _ Hp) as E. apply (f_equal length) in E.
    by rewrite length_fmap, length_seq in E. }
  split; [apply Hp|]. split; [exact El|]. split; [apply Hp|].
  intros m this Hm. split; [by eapply paired_process|].
  unfold stdout_listeners.
  destruct (processes w !! m) as [proc|] eqn:Hproc; [|by right].
  destruct (paired_listener _ Hp _ _ Hproc) as [-> | ->]; auto.
Qed.

(** X3.  The exit listener does not look at which process exited.  If
    process [p] exits while another process [p'] is the current one (as
    after [deactivate] and a new call, the killed worker's exit being
    reported late), both globals are cleared although [p'] is running:
    [p'] stays unkilled, a following [deactivate] does not kill it, and
    the next call spawns yet another process. *)
Theorem stale_exit_unbinds_new_worker (es : list event) (p p' : nat)
    (proc : ChildProcess) (code : option Z) (method : jsstring)
    (params : option json) (io : Stdio) :
  pythonProcess (run init es) = Some p' -> p <> p' ->
  processes (run init es) !! p = Some proc -> exited proc = false ->
  unbound_by_stale_exit (run init es) p p' code method params io.
Proof.
  intros Hcur Hne Hproc Hex. set (w := run init es) in *.
  assert (Inv w) as [_ Hg] by apply run_inv, init_inv.
  destruct (Hg p' Hcur) as (proc' & Hproc' & Hk).
  unfold unbound_by_stale_exit. simpl. rewrite Hproc, Hex.
  split; [done|]. split; [done|]. split.
  - exists proc'. simpl. rewrite list_lookup_alter_ne by done.
    repeat split; try done.
  - unfold sendToPython.
    set (w1 := on_exit code
                 (set_processes (alter mark_exited p (processes w)) w)).
    destruct (getRequestManager_rebuilds io w1) as (q & H); [by left|].
    destruct (getRequestManager io w1) as [m' w2].
    destruct H as (_ & _ & Hq & _ & _ & _ & _ & _ & _ & Hps).
    destruct (sendRequest_shape m' method params 10000 w2) as (_&_&E&_).
    simpl in E. rewrite E, Hq.
    destruct Hps as [(Hu & _)|(_ & -> & _)]; [done|].
    simpl. by rewrite length_alter.
Qed.

Lemma stale_exit_unbinds_new_worker_witness :
  pythonProcess (run init restarted) = Some 1%nat /\
  (0 <> 1)%nat /\
  processes (run init restarted) !! 0%nat = Some killed_worker /\
  exited killed_worker = false /\
  unbound_by_stale_exit (run init restarted) 0 1 (Some 0%Z)
    (str "process_path") None piped.
Proof.
  split; [vm_compute; reflexivity|]. split; [lia|].
  split; [vm_compute; reflexivity|]. split; [reflexivity|].
  apply (stale_exit_unbinds_new_worker restarted 0 1 killed_worker);
    [vm_compute; reflexivity|lia|vm_compute; reflexivity|reflexivity].
Defined.

Lemma call_reuses_worker_witness :
  requestManager (run init [Call (str "say_hello") None piped]) = Some 0%nat /\
  reuses_worker (run init [Call (str "say_hello") None piped]) 0
    (str "process_path") (Some (JString (str "/tmp"))) piped.
Proof.
  split; [vm_compute; reflexivity|].
  apply call_reuses_worker. vm_compute; reflexivity.
Defined.

(** X15.  Whatever sequence of events has run, [deactivate] clears both
    globals; the process that was current had not been killed before;
    no process object is removed and none is changed, except at most
    the [killed] flag of the one that was current; and running
    [deactivate] a second time changes nothing. *)
Theorem deactivate_shuts_down (es : list event) :
  shuts_down (run init es).
Proof.
  destruct (run_inv init es init_inv) as [_ Hg].
  set (w := run init es) in *. unfold shuts_down, deactivate.
  destruct (pythonProcess w) as [p|] eqn:Hp.
  - rewrite (process_usable_globals w p Hg Hp). simpl.
    split; [done|]. split; [done|].
    split; [intros p' [= <-]; by apply Hg|].
    split; [apply length_alter|]. split; [|done].
    intros q proc Hproc. destruct (decide (p = q)) as [<-|Hne].
    + exists (kill proc). rewrite list_lookup_alter_eq, Hproc.
      repeat split. congruence.
    + exists proc. rewrite list_lookup_alter_ne by done. done.
  - simpl. rewrite Hp. repeat split; try done.
    intros q proc Hproc. exists proc. done.
Qed.

End PairingFacts.

(** * The order of the requests written *)

Section OrderFacts.
Import Manager Bookkeeping.

Lemma numbered_empty next : 0 < next -> numbered next [].
Proof. intros Hlt. split; [done|]. split; [constructor|done]. Qed.

Lemma numbered_nil next rs : numbered next rs -> numbered next [].
Proof. intros (_ & _ & Hlt). apply numbered_empty. lia. Qed.

Lemma fmap_lookup_eq {A B} (f : A -> B) (l l' : list A) i x' :
  f <$> l' = f <$> l -> l' !! i = Some x' ->
  exists x, l !! i = Some x /\ f x = f x'.
Proof.
  intros E Hx'.
  assert ((f <$> l) !! i = Some (f x')) as H.
  { by rewrite <- E, list_lookup_fmap, Hx'. }
  apply list_lookup_fmap_Some in H as (x & ? & ?). eauto.
Qed.

(** Steps that neither allocate an identifier nor write. *)
Lemma ordered_quiet w w' :
  Ordered w ->
  requestId <$> managers w' = requestId <$> managers w ->
  (forall p s', stdin_at p w' = Some s' ->
     exists s, stdin_at p w = Some s /\ written s' = written s /\
               (destroyed s' = false -> destroyed s = false)) ->
  Ordered w'.
Proof.
  intros Hord Em Hpipe m this' Hm' Hlt.
  destruct (fmap_lookup_eq _ _ _ _ _ Em Hm') as (this & Hm & Er).
  rewrite <- Er in Hlt. unfold in_order. rewrite <- Er.
  destruct (Hord m this Hm Hlt) as [Hnum Hopen].
  unfold requests_written, stdin_open in *.
  destruct (stdin_at m w') as [s'|] eqn:Hs'.
  - destruct (Hpipe _ _ Hs') as (s & Hs & Ew & Hd).
    rewrite Hs in Hnum, Hopen. rewrite Ew. split; [done|].
    intros (s0 & [= <-] & Hd0). apply Hopen. eauto.
  - split; [by eapply numbered_nil|]. intros (s0 & ? & _). done.
Qed.

Lemma stdin_at_alter (f : ChildProcess -> ChildProcess) q w w' p s' :
  processes w' = alter f q (processes w) ->
  (forall proc, stdin (f proc) = stdin proc \/
                stdin (f proc) = close_stream <$> stdin proc) ->
  stdin_at p w' = Some s' ->
  exists s, stdin_at p w = Some s /\ written s' = written s /\
            (destroyed s' = false -> destroyed s = false).
Proof.
  intros Ep Hf. unfold stdin_at. rewrite Ep.
  destruct (decide (q = p)) as [->|Hne].
  - rewrite list_lookup_alter_eq.
    destruct (processes w !! p) as [proc|]; simpl; [|done].
    destruct (Hf proc) as [-> | ->]; [eauto|].
    destruct (stdin proc) as [s|]; simpl; [|done].
    intros [= <-]. exists s. done.
  - rewrite list_lookup_alter_ne by done.
    destruct (processes w !! p) as [proc|]; [eauto|done].
Qed.

Lemma stdin_at_same w w' p s' :
  processes w' = processes w ->
  stdin_at p w' = Some s' ->
  exists s, stdin_at p w = Some s /\ written s' = written s /\
            (destroyed s' = false -> destroyed s = false).
Proof. unfold stdin_at. intros ->. eauto. Qed.

Lemma sendRequest_effect self this method params timeoutMs w :
  managers w !! self = Some this ->
  requestId <$> managers (sendRequest self method params timeoutMs w).2 =
    alter increment self (requestId <$> managers w) /\
  processes (sendRequest self method params timeoutMs w).2 =
    match stdin_of this w with
    | Some _ =>
        alter (with_stdin
                 (stream_write {| jsonrpc := str "2.0";
                                  req_id := requestId this;
                                  method := method; params := params |}))
          (process this) (processes w)
    | None => processes w
    end.
Proof.
  intros Hthis. unfold sendRequest, stdin_of. rewrite Hthis. simpl.
  assert (requestId <$> alter bump_requestId self (managers w) =
          alter increment self (requestId <$> managers w)) as Eb.
  { apply list_fmap_alter, Forall_forall. done. }
  destruct (processes w !! process this) as [proc|]; simpl;
    [destruct (stdin proc); simpl|];
    rewrite ?(fmap_alter_same requestId) by done; rewrite Eb; done.
Qed.

Lemma sendRequest_ordered self method params timeoutMs w :
  Paired w -> Ordered w ->
  Ordered (sendRequest self method params timeoutMs w).2.
Proof.
  intros Hp Hord.
  destruct (managers w !! self) as [this|] eqn:Hthis;
    [|unfold sendRequest; by rewrite Hthis].
  destruct (sendRequest_effect self this method params timeoutMs w Hthis)
    as [Em Ep].
  pose proof (paired_process _ _ _ Hp Hthis) as Eself.
  set (w' := (sendRequest self method params timeoutMs w).2) in *.
  intros m this' Hm' Hlt.
  assert ((requestId <$> managers w') !! m = Some (requestId this')) as Hr.
  { by rewrite list_lookup_fmap, Hm'. }
  rewrite Em in Hr.
  destruct (decide (self = m)) as [<-|Hne].
  - rewrite list_lookup_alter_eq, list_lookup_fmap, Hthis in Hr.
    simpl in Hr. injection Hr as Hr.
    assert (requestId this < MAX_SAFE /\
            requestId this' = requestId this + 1) as [Hlt0 Hr'].
    { unfold increment in Hr.
      destruct (N.ltb_spec (requestId this) MAX_SAFE); lia. }
    destruct (Hord self this Hthis Hlt0) as [(Hids & Hall & Hlen) Hopen].
    unfold in_order, numbered, requests_written, stdin_open, stdin_at in *.
    rewrite Ep. unfold stdin_of. rewrite Eself.
    destruct (processes w !! self) as [proc|] eqn:Hproc;
      [|rewrite Hproc; split; [repeat split; [constructor|simpl; lia]
                              |intros (? & ? & _); done]].
    destruct (stdin proc) as [s|] eqn:Hs.
    + rewrite list_lookup_alter_eq, Hproc. simpl. rewrite Hs. simpl.
      unfold stream_write. destruct (destroyed s) eqn:Hd.
      * split; [repeat split; [done|done|lia]|].
        intros (s0 & [= <-] & ?). congruence.
      * simpl. assert (N.of_nat (length (written s)) + 1 = requestId this)
          as Hcount by (apply Hopen; eauto).
        rewrite length_app, fmap_app, Hids. simpl.
        rewrite Nat.add_1_r, seq_S, fmap_app. simpl.
        split; [repeat split|].
        -- do 2 f_equal. lia.
        -- apply Forall_app. split; [done|]. by repeat constructor.
        -- lia.
        -- intros _. lia.
    + rewrite Hproc, Hs. split; [repeat split; [constructor|simpl; lia]|].
      intros (? & ? & _); done.
  - rewrite list_lookup_alter_ne, list_lookup_fmap in Hr by done.
    destruct (managers w !! m) as [this0|] eqn:Hm; [|done].
    simpl in Hr. injection Hr as Hr.
    rewrite <- Hr in Hlt. unfold in_order. rewrite <- Hr.
    destruct (Hord m this0 Hm Hlt) as [Hnum Hopen].
    assert (stdin_at m w' = stdin_at m w) as Es.
    { unfold stdin_at. rewrite Ep.
      destruct (stdin_of this w); [|done].
      rewrite list_lookup_alter_ne; [done|congruence]. }
    unfold requests_written, stdin_open. by rewrite Es.
Qed.

Lemma getRequestManager_ordered io w :
  Inv w -> Paired w -> Ordered w -> Ordered (getRequestManager io w).2.
Proof.
  intros Hinv Hp Hord.
  destruct (requestManager w) as [m|] eqn:Hm.
  - destruct (paired_current w m) as (_ & Hu & _); [done..|].
    by rewrite (getRequestManager_keeps io w m).
  - assert (process_usable w = false) as Hu.
    { unfold process_usable. by rewrite <- (paired_globals _ Hp), Hm. }
    destruct (getRequestManager_rebuilds io w) as (p & H); [by left|].
    destruct (getRequestManager io w) as [m' w'].
    destruct H as (-> & _ & _ & Ems & _ & _ & _ & _ & _ & Hps). simpl.
    destruct Hps as [(Hu' & _)|(_ & -> & Hps)]; [congruence|].
    assert (length (managers w) = length (processes w)) as El.
    { pose proof (paired_bound _ Hp) as E. apply (f_equal length) in E.
      by rewrite length_fmap, length_seq in E. }
    rewrite El in *.
    intros m this Hthis Hlt. rewrite Ems in Hthis.
    unfold in_order, requests_written, stdin_open, stdin_at. rewrite Hps.
    apply lookup_app_Some in Hthis as [Hthis|[Hge Hthis]].
    + pose proof (lookup_lt_Some _ _ _ Hthis) as Hm'.
      rewrite list_lookup_alter_ne, lookup_app_l by lia.
      apply (Hord m this Hthis Hlt).
    + apply list_lookup_singleton_Some in Hthis as [Hm' <-].
      assert (m = length (processes w)) as -> by lia.
      rewrite list_lookup_alter_eq, lookup_app_r, Nat.sub_diag by lia.
      simpl. destruct (has_stdin io); simpl.
      * split; [by apply numbered_empty|]. intros _. done.
      * split; [by apply numbered_empty|]. intros _. done.
Qed.

Lemma step_ordered w e :
  Inv w -> Paired w -> Ordered w -> Ordered (step w e).
Proof.
  intros Hinv Hp Hord. destruct e as [method params io|io|m method params ms
    |p data|p data|p|p code|h|]; simpl.
  - unfold sendToPython.
    pose proof (getRequestManager_paired io w Hinv Hp) as Hp'.
    pose proof (getRequestManager_ordered io w Hinv Hp Hord) as Hord'.
    destruct (getRequestManager io w) as [m w']. simpl in *.
    by apply sendRequest_ordered.
  - by apply getRequestManager_ordered.
  - by apply sendRequest_ordered.
  - destruct (emit_data_frame (stdout_listeners p w) data w) as (_&_&E3).
    destruct (emit_data_shape (stdout_listeners p w) data w) as [_ E4].
    eapply ordered_quiet; [exact Hord|exact E4|].
    intros q s'. by apply stdin_at_same.
  - by destruct (processes w !! p) as [proc|]; [destruct (stderr proc)|].
  - eapply ordered_quiet; [exact Hord|done|].
    intros q s'. apply (stdin_at_alter (with_stdin close_stream) p);
      [done|]. intros proc. by right.
  - destruct (processes w !! p) as [proc|]; [destruct (exited proc)|];
      try done.
    eapply ordered_quiet; [exact Hord|done|].
    intros q s'. apply (stdin_at_alter mark_exited p); [done|].
    intros proc0. by right.
  - destruct (fire_frame h w) as (_&_&E3).
    destruct (fire_shape h w) as [_ E4].
    eapply ordered_quiet; [exact Hord|exact E4|].
    intros q s'. by apply stdin_at_same.
  - unfold deactivate.
    destruct (pythonProcess w) as [p|]; [destruct (process_usable w)|];
      (eapply ordered_quiet; [exact Hord|done|]); intros q s';
      try (by apply stdin_at_same).
    apply (stdin_at_alter kill p); [done|]. intros proc. by left.
Qed.

Lemma run_ordered_from w es :
  Inv w -> Paired w -> Ordered w -> Ordered (run w es).
Proof.
  revert w. induction es as [|e es IH]; intros w Hi Hp Ho; [done|].
  simpl. apply IH;
    [by apply step_inv|by apply step_paired|by apply step_ordered].
Qed.

(** X4.  For every manager whose counter is below [2 ^ 53]: the requests
    written to its worker's stdin carry the identifiers 1, 2, 3, ... in
    the order of the calls, each tagged with the protocol version of the
    source, and all of them below the counter; and as long as the pipe
    has not been closed, every identifier allocated so far has been
    written. *)
Theorem requests_written_in_order (es : list event) (m : nat)
    (this : PythonRequestManager) :
  managers (run init es) !! m = Some this ->
  requestId this < MAX_SAFE ->
  in_order (run init es) m this.
Proof.
  intros Hm Hlt.
  apply (run_ordered_from init es init_inv init_paired); [|done..].
  intros m0 this0 Hm0. done.
Qed.

Lemma requests_written_in_order_witness :
  managers (run init three_calls) !! 0%nat = Some manager_after_three /\
  requestId manager_after_three < MAX_SAFE /\
  in_order (run init three_calls) 0 manager_after_three.
Proof.
  split; [vm_compute; reflexivity|]. split; [reflexivity|].
  apply requests_written_in_order; [vm_compute; reflexivity|reflexivity].
Defined.

End OrderFacts.

(** * Timers and pending entries *)

Section TimerFacts.
Import Manager Bookkeeping.

Lemma owned_same w w' :
  Owned w -> managers w' = managers w -> timers w' = timers w -> Owned w'.
Proof. unfold Owned. intros H -> ->. done. Qed.

Lemma owned_append w w' x :
  Owned w -> managers w' = managers w ++ [x] -> timers w' = timers w ->
  Owned w'.
Proof.
  unfold Owned. intros H -> -> h c Hc.
  destruct (H h c Hc) as (this & Hthis & Hent). exists this.
  split; [|done]. rewrite lookup_app_l; [done|]. by eapply lookup_lt_Some.
Qed.

Lemma owned_retire w w' h0 c0 :
  Owned w -> timers w !! h0 = Some c0 ->
  managers w' =
    alter (with_pending (delete (tc_id c0))) (tc_this c0) (managers w) ->
  timers w' = delete h0 (timers w) -> Owned w'.
Proof.
  intros Hown Hc0 Em Et h c. rewrite Et, Em.
  intros [Hne Hc]%lookup_delete_Some.
  destruct (Hown h c Hc) as (this & Hthis & Hent).
  destruct (decide (tc_this c0 = tc_this c)) as [E|Hm].
  - exists (with_pending (delete (tc_id c0)) this).
    rewrite E, list_lookup_alter_eq, Hthis. split; [done|].
    simpl. intros Hlt. rewrite lookup_delete_ne; [auto|].
    intros Ek. destruct (Hown h0 c0 Hc0) as (this0 & Hthis0 & Hent0).
    rewrite E, Hthis in Hthis0. injection Hthis0 as <-.
    specialize (Hent Hlt). specialize (Hent0 Hlt).
    rewrite Ek, Hent in Hent0. congruence.
  - exists this. by rewrite list_lookup_alter_ne.
Qed.

Lemma owned_arm w w' self this p h c :
  Core w -> Owned w -> managers w !! self = Some this ->
  h = nextTimer w -> tc_this c = self -> tc_id c = requestId this ->
  tc_reject c = p ->
  managers w' =
    alter (with_pending
             (<[requestId this :=
                  {| id := requestId this; promise := p; timeout := h |}]>))
          self (alter bump_requestId self (managers w)) ->
  timers w' = <[h := c]> (timers w) -> Owned w'.
Proof.
  intros Hcore Hown Hself -> Hct Hci Hcr Em Et h' c'.
  rewrite Et, Em. intros [[<- <-]|[Hne Hc']]%lookup_insert_Some.
  - rewrite Hct, !list_lookup_alter_eq, Hself. simpl. eexists.
    split; [done|]. simpl. intros _.
    by rewrite Hci, Hcr, lookup_insert_eq.
  - destruct (Hown h' c' Hc') as (this0 & Hthis0 & Hent).
    destruct (decide (self = tc_this c')) as [E|Hm].
    + rewrite <- E in *. rewrite Hself in Hthis0. injection Hthis0 as <-.
      rewrite !list_lookup_alter_eq, Hself. simpl. eexists.
      split; [done|]. simpl. unfold increment.
      destruct (N.ltb_spec (requestId this) MAX_SAFE) as [Hlt|]; [|lia].
      intros _. specialize (Hent Hlt).
      rewrite lookup_insert_ne; [done|].
      destruct (core_ids _ Hcore _ _ Hself) as [_ Hk].
      specialize (Hk Hlt (tc_id c') (ltac:(eauto))). lia.
    + exists this0. by rewrite !list_lookup_alter_ne.
Qed.

Lemma handleResponse_owned self data w :
  Core w -> Owned w -> Owned (world_of (handleResponse self data w)).
Proof.
  intros Hcore Hown.
  destruct (answers_or_orphan self data w)
    as [(response & k & pr & Hans)|Horph].
  - rewrite (handleResponse_matched _ _ _ _ _ _ Hans). simpl.
    destruct Hans as (_ & _ & Hpr).
    apply pending_of_Some in Hpr as (this & Hthis & Hpr).
    destruct (core_entry _ Hcore _ _ _ _ Hthis Hpr)
      as (c & Hc & <- & <- & _).
    by eapply (owned_retire w _ (timeout pr) c).
  - destruct (handleResponse_orphan _ _ _ Horph)
      as (w' & -> & (?&?&?&?&?&?&?)).
    simpl. by eapply owned_same.
Qed.

Lemma emit_data_owned ls data w :
  Core w -> Owned w -> Owned (world_of (emit_data ls data w)).
Proof.
  revert w. induction ls as [|m ls IH]; intros w Hcore Hown; [done|].
  simpl. pose proof (handleResponse_core m data w Hcore) as Hc.
  pose proof (handleResponse_owned m data w Hcore Hown) as Ho.
  destruct (handleResponse m data w) as [w'|e w']; simpl in *; auto.
Qed.

Lemma fire_owned h w : Owned w -> Owned (fire h w).
Proof.
  intros Hown. unfold fire.
  destruct (timers w !! h) as [c|] eqn:Hc; [|done].
  by eapply (owned_retire w _ h c).
Qed.

Lemma sendRequest_owned self method params timeoutMs w :
  Core w -> Owned w -> Owned (sendRequest self method params timeoutMs w).2.
Proof.
  intros Hcore Hown. unfold sendRequest.
  destruct (managers w !! self) as [this|] eqn:Hthis; [|done].
  simpl.
  set (c := {| tc_this := self; tc_id := requestId this;
               tc_method := method; tc_timeoutMs := timeoutMs;
               tc_reject := length (promises w) |}).
  set (armed :=
         update_pending self
           (<[requestId this :=
                {| id := requestId this; promise := length (promises w);
                   timeout := nextTimer w |}]>)
           (setTimeout c
              (set_managers (alter bump_requestId self (managers w))
                 (new_promise w).2)).2).
  assert (Owned armed) as Harmed.
  { eapply (owned_arm w armed self this _ _ c); eauto; reflexivity. }
  unfold stdin_of. simpl.
  destruct (processes w !! process this) as [proc|]; simpl;
    [destruct (stdin proc); simpl|].
  - eapply owned_same; [exact Harmed|reflexivity..].
  - eapply (owned_retire armed _ (nextTimer w) c); eauto; try done.
    simpl. apply lookup_insert_eq.
  - eapply (owned_retire armed _ (nextTimer w) c); eauto; try done.
    simpl. apply lookup_insert_eq.
Qed.

Lemma getRequestManager_owned io w :
  Owned w -> Owned (getRequestManager io w).2.
Proof.
  intros Hown.
  destruct (requestManager w) as [m|] eqn:Hm;
    [destruct (process_usable w) eqn:Hu|].
  - by rewrite (getRequestManager_keeps io w m).
  - destruct (getRequestManager_rebuilds io w) as (p & H); [by right|].
    destruct (getRequestManager io w) as [m' w'].
    destruct H as (_&_&_&?&?&?&_). simpl. by eapply owned_append.
  - destruct (getRequestManager_rebuilds io w) as (p & H); [by left|].
    destruct (getRequestManager io w) as [m' w'].
    destruct H as (_&_&_&?&?&?&_). simpl. by eapply owned_append.
Qed.

Lemma step_owned w e : Core w -> Owned w -> Owned (step w e).
Proof.
  intros Hcore Hown. destruct e as [method params io|io|m method params ms
    |p data|p data|p|p code|h|]; simpl.
  - unfold sendToPython.
    pose proof (getRequestManager_core io w Hcore) as Hc.
    pose proof (getRequestManager_owned io w Hown) as Ho.
    destruct (getRequestManager io w) as [m w']. simpl in *.
    by apply sendRequest_owned.
  - by apply getRequestManager_owned.
  - by apply sendRequest_owned.
  - by apply emit_data_owned.
  - by destruct (processes w !! p) as [proc|]; [destruct (stderr proc)|].
  - done.
  - by destruct (processes w !! p) as [proc|]; [destruct (exited proc)|].
  - by apply fire_owned.
  - unfold deactivate.
    by destruct (pythonProcess w); [destruct (process_usable w)|].
Qed.

Lemma run_owned es : Owned (run init es).
Proof.
  assert (forall w, Inv w -> Owned w -> Owned (run w es)) as H.
  { induction es as [|e es IH]; intros w Hi Ho; [done|].
    simpl. apply IH; [by apply step_inv|].
    apply step_owned; [apply Hi|done]. }
  apply H; [apply init_inv|]. intros h c Hc. simpl in Hc.
  rewrite lookup_empty in Hc. discriminate.
Qed.

(** X5.  Every armed timer belongs to a call that is still pending:
    its promise is pending and, while the manager's counter is below
    [2 ^ 53], the manager holds the call's entry under the identifier
    the timer's callback deletes, with this very timer as its
    [timeout].  So no timer is left armed for a call that was answered
    or rejected. *)
Theorem armed_timer_has_pending_call (es : list event) (h : nat)
    (c : TimeoutClosure) :
  timers (run init es) !! h = Some c -> owned (run init es) h c.
Proof.
  intros Hc. split.
  - destruct (run_inv init es init_inv) as [Hcore _].
    by destruct (core_timer _ Hcore _ _ Hc) as (_ & ? & _).
  - by apply run_owned.
Qed.

Lemma armed_timer_has_pending_call_witness :
  timers (run init one_call) !! 0%nat = Some first_timer /\
  owned (run init one_call) 0 first_timer.
Proof.
  split; [vm_compute; reflexivity|].
  apply armed_timer_has_pending_call. vm_compute; reflexivity.
Defined.

(** X6.  While all counters are below [2 ^ 53], a call's promise is
    pending exactly when some manager holds an entry for it: entries do
    not outlive their calls, and no pending call is without its
    entry. *)
Theorem pending_iff_entry (es : list event) (p : nat) :
  below_saturation (run init es) ->
  (p < length (promises (run init es)))%nat ->
  promises (run init es) !! p = Some Pending <-> has_entry (run init es) p.
Proof.
  intros Hsat Hp. set (w := run init es) in *.
  destruct (run_inv init es init_inv) as [Hcore _]. fold w in Hcore.
  pose proof (run_owned es) as Hown. fold w in Hown. split.
  - intros Hpend.
    destruct (core_promise _ Hcore p Hp)
      as [(h & c & Hc & Hr)|(how & o & _ & Ho & Hne & _)]; [|congruence].
    destruct (Hown h c Hc) as (this & Hthis & Hent).
    exists (tc_this c), (tc_id c). eexists. unfold pending_of.
    rewrite Hthis.
    split; [apply Hent; by apply (Forall_lookup_1 _ _ _ _ Hsat Hthis)|done].
  - intros (m & k & pr & Hpr & <-).
    apply pending_of_Some in Hpr as (this & Hthis & Hpr).
    destruct (core_entry _ Hcore _ _ _ _ Hthis Hpr)
      as (c & Hc & _ & _ & <- & _).
    by destruct (core_timer _ Hcore _ _ Hc) as (_ & ? & _).
Qed.

Lemma pending_iff_entry_witness :
  below_saturation (run init one_call) /\
  (0 < length (promises (run init one_call)))%nat /\
  (promises (run init one_call) !! 0%nat = Some Pending <->
   has_entry (run init one_call) 0).
Proof.
  assert (managers (run init one_call) = [manager_after_one]) as E
    by (vm_compute; reflexivity).
  assert (below_saturation (run init one_call)) as Hsat.
  { unfold below_saturation. rewrite E. repeat constructor. }
  split; [exact Hsat|]. split; [vm_compute; lia|].
  apply (pending_iff_entry one_call 0 Hsat). vm_compute; lia.
Defined.

(** X7.  Timeouts are independent.  When the timer of one pending
    entry fires, its call is rejected with the timeout error, and any
    other pending entry (of the same or of another manager) stays in
    its map, its promise stays pending and its timer stays armed. *)
Theorem timeout_leaves_other_calls (es : list event) (m1 m2 : nat)
    (k1 k2 : N) (pr1 pr2 : PendingRequest) :
  pending_of m1 (run init es) !! k1 = Some pr1 ->
  pending_of m2 (run init es) !! k2 = Some pr2 ->
  (m1, k1) <> (m2, k2) ->
  unaffected_by_timeout (run init es) pr1 m2 k2 pr2.
Proof.
  intros H1 H2 Hne. set (w := run init es) in *.
  destruct (run_inv init es init_inv) as [Hcore _]. fold w in Hcore.
  pose proof H2 as Hpr2.
  apply pending_of_Some in H1 as (this1 & Hthis1 & H1).
  apply pending_of_Some in H2 as (this2 & Hthis2 & H2).
  destruct (core_entry _ Hcore _ _ _ _ Hthis1 H1)
    as (c1 & Hc1 & Ht1 & Hi1 & Hr1 & _).
  destruct (core_entry _ Hcore _ _ _ _ Hthis2 H2)
    as (c2 & Hc2 & Ht2 & Hi2 & Hr2 & _).
  destruct (core_timer _ Hcore _ _ Hc2) as (_ & Hp2 & _).
  assert (timeout pr1 <> timeout pr2) as Hh.
  { intros E. rewrite E, Hc2 in Hc1. injection Hc1 as <-.
    apply Hne. congruence. }
  assert (promise pr1 <> promise pr2) as Hp.
  { intros E. apply Hh. eapply core_inj; eauto. congruence. }
  destruct (fire_settles _ _ _ Hcore Hc1) as (_ & Hrej & _).
  unfold unaffected_by_timeout. simpl.
  split; [rewrite <- Hr1; eauto|].
  unfold fire in *. rewrite Hc1 in *. simpl in *.
  split; [|split; [|split]].
  - unfold pending_of. simpl.
    destruct (decide (tc_this c1 = m2)) as [E|Hm].
    + rewrite E, list_lookup_alter_eq, Hthis2. simpl.
      rewrite lookup_delete_ne; [done|]. intros Ek. apply Hne. congruence.
    + rewrite list_lookup_alter_ne, Hthis2 by done. done.
  - rewrite settle_promise_other; [by rewrite <- Hr2|congruence].
  - eauto.
  - by rewrite lookup_delete_ne.
Qed.

Lemma timeout_leaves_other_calls_witness :
  pending_of 0 (run init three_calls) !! 1 =
    Some {| id := 1; promise := 0; timeout := 0 |} /\
  pending_of 0 (run init three_calls) !! 2 =
    Some {| id := 2; promise := 1; timeout := 1 |} /\
  (0%nat, 1) <> (0%nat, 2) /\
  unaffected_by_timeout (run init three_calls)
    {| id := 1; promise := 0; timeout := 0 |} 0 2
    {| id := 2; promise := 1; timeout := 1 |}.
Proof.
  split; [vm_compute; reflexivity|]. split; [vm_compute; reflexivity|].
  split; [discriminate|].
  apply (timeout_leaves_other_calls three_calls 0 0 1 2);
    [vm_compute; reflexivity|vm_compute; reflexivity|discriminate].
Defined.

Lemma sendRequest_old_promises self method params timeoutMs w p :
  (p < length (promises w))%nat ->
  promises (sendRequest self method params timeoutMs w).2 !! p =
    promises w !! p.
Proof.
  intros Hp. unfold sendRequest.
  destruct (managers w !! self) as [this|]; [|done].
  unfold stdin_of. simpl.
  destruct (processes w !! process this) as [proc|]; simpl;
    [destruct (stdin proc); simpl|];
    rewrite ?settle_promise_other by lia; by rewrite lookup_app_l.
Qed.

Lemma getRequestManager_promises io w :
  promises (getRequestManager io w).2 = promises w.
Proof.
  destruct (requestManager w) as [m|] eqn:Hm;
    [destruct (process_usable w) eqn:Hu|].
  - by rewrite (getRequestManager_keeps io w m).
  - destruct (getRequestManager_rebuilds io w) as (p & H); [by right|].
    destruct (getRequestManager io w) as [m' w'].
    by destruct H as (_&_&_&_&?&_).
  - destruct (getRequestManager_rebuilds io w) as (p & H); [by left|].
    destruct (getRequestManager io w) as [m' w'].
    by destruct H as (_&_&_&_&?&_).
Qed.

(** X8.  A pending call is settled by nothing but the firing of its
    own timer or a chunk, on the stdout of its own manager's worker,
    that answers its entry: a step that takes a promise out of the
    pending state is one of these two.  Calls, stderr data, exits and
    [deactivate] settle no call that was pending. *)
Theorem settled_only_by_response_or_timeout (es : list event) (e : event)
    (p : nat) :
  promises (run init es) !! p = Some Pending ->
  promises (step (run init es) e) !! p <> Some Pending ->
  settled_by (run init es) e p.
Proof.
  intros Hpend Hset. set (w := run init es) in *.
  pose proof (run_paired es) as Hpair. fold w in Hpair.
  pose proof (lookup_lt_Some _ _ _ Hpend) as Hlt.
  destruct e as [method params io|io|m method params ms
    |q data|q data|q|q code|h|]; simpl in Hset.
  - exfalso. apply Hset. unfold sendToPython.
    pose proof (getRequestManager_promises io w) as E.
    destruct (getRequestManager io w) as [m w']. simpl in *.
    rewrite sendRequest_old_promises; rewrite E; done.
  - exfalso. apply Hset. by rewrite getRequestManager_promises.
  - exfalso. apply Hset. by rewrite sendRequest_old_promises.
  - right. unfold stdout_listeners in *.
    destruct (processes w !! q) as [proc|] eqn:Hproc; [|done].
    destruct (paired_listener _ Hpair _ _ Hproc) as [E|E];
      rewrite E in *; simpl in Hset; [|done].
    destruct (answers_or_orphan q data w)
      as [(response & k & pr & Hans)|Horph].
    + exists q, data, response, k, pr. split; [done|].
      split; [by rewrite Hproc, E|]. split; [done|].
      rewrite (handleResponse_matched _ _ _ _ _ _ Hans) in Hset.
      simpl in Hset.
      destruct (decide (promise pr = p)) as [|Hne]; [done|].
      by rewrite settle_promise_other in Hset.
    + destruct (handleResponse_orphan _ _ _ Horph)
        as (w' & Hw' & (?&?&?&?&Hps&?)).
      rewrite Hw' in Hset. simpl in Hset. congruence.
  - exfalso. apply Hset.
    by destruct (processes w !! q) as [proc|]; [destruct (stderr proc)|].
  - done.
  - exfalso. apply Hset.
    by destruct (processes w !! q) as [proc|]; [destruct (exited proc)|].
  - left. unfold fire in Hset.
    destruct (timers w !! h) as [c|] eqn:Hc; [|done].
    exists h, c. repeat split; try done. simpl in Hset.
    destruct (decide (tc_reject c = p)) as [|Hne]; [done|].
    by rewrite settle_promise_other in Hset.
  - exfalso. apply Hset. unfold deactivate.
    by destruct (pythonProcess w); [destruct (process_usable w)|].
Qed.

Lemma settled_only_by_response_or_timeout_witness :
  promises (run init one_call) !! 0%nat = Some Pending /\
  promises (step (run init one_call) (TimeoutFires 0)) !! 0%nat <>
    Some Pending /\
  settled_by (run init one_call) (TimeoutFires 0) 0.
Proof.
  split; [vm_compute; reflexivity|]. split; [vm_compute; discriminate|].
  apply settled_only_by_response_or_timeout;
    [vm_compute; reflexivity|vm_compute; discriminate].
Defined.

End TimerFacts.

(** * The log of invocations grows *)

Section LogFacts.
Import Manager Bookkeeping.

Lemma handleResponse_log self data w :
  exists news,
    settled (world_of (handleResponse self data w)) = settled w ++ news.
Proof.
  destruct (answers_or_orphan self data w)
    as [(response & k & pr & Hans)|Horph].
  - rewrite (handleResponse_matched _ _ _ _ _ _ Hans). simpl. eauto.
  - destruct (handleResponse_orphan _ _ _ Horph)
      as (w' & -> & (?&?&?&?&?&?&?&?)).
    exists []. simpl. rewrite app_nil_r. congruence.
Qed.

Lemma emit_data_log ls data w :
  exists news,
    settled (world_of (emit_data ls data w)) = settled w ++ news.
Proof.
  revert w. induction ls as [|m ls IH]; intros w.
  - exists []. simpl. by rewrite app_nil_r.
  - simpl. destruct (handleResponse_log m data w) as (n1 & E1).
    destruct (handleResponse m data w) as [w'|e w']; simpl in *; [|eauto].
    destruct (IH w') as (n2 & E2). exists (n1 ++ n2).
    by rewrite E2, E1, <- app_assoc.
Qed.

Lemma sendRequest_log self method params timeoutMs w :
  exists news,
    settled (sendRequest self method params timeoutMs w).2 =
      settled w ++ news.
Proof.
  unfold sendRequest.
  destruct (managers w !! self) as [this|];
    [|exists []; simpl; by rewrite app_nil_r].
  unfold stdin_of. simpl.
  destruct (processes w !! process this) as [proc|]; simpl;
    [destruct (stdin proc); simpl|]; eauto.
  exists []. by rewrite app_nil_r.
Qed.

Lemma getRequestManager_log io w :
  settled (getRequestManager io w).2 = settled w.
Proof.
  destruct (requestManager w) as [m|] eqn:Hm;
    [destruct (process_usable w) eqn:Hu|].
  - by rewrite (getRequestManager_keeps io w m).
  - destruct (getRequestManager_rebuilds io w) as (p & H); [by right|].
    destruct (getRequestManager io w) as [m' w'].
    by destruct H as (_&_&_&_&_&_&_&?&_).
  - destruct (getRequestManager_rebuilds io w) as (p & H); [by left|].
    destruct (getRequestManager io w) as [m' w'].
    by destruct H as (_&_&_&_&_&_&_&?&_).
Qed.

Lemma step_log w e :
  exists news, settled (step w e) = settled w ++ news.
Proof.
  assert (exists news : list settle_call, settled w = settled w ++ news)
    as Hsame by (exists []; by rewrite app_nil_r).
  destruct e as [method params io|io|m method params ms
    |p data|p data|p|p code|h|]; simpl.
  - unfold sendToPython.
    pose proof (getRequestManager_log io w) as E.
    destruct (getRequestManager io w) as [m w']. simpl in *.
    rewrite <- E. apply sendRequest_log.
  - by rewrite getRequestManager_log.
  - apply sendRequest_log.
  - apply emit_data_log.
  - by destruct (processes w !! p) as [proc|]; [destruct (stderr proc)|].
  - done.
  - by destruct (processes w !! p) as [proc|]; [destruct (exited proc)|].
  - unfold fire. destruct (timers w !! h) as [c|]; [simpl; eauto|done].
  - unfold deactivate.
    by destruct (pythonProcess w); [destruct (process_usable w)|].
Qed.

(** What the invocations [news] added to the log say about a promise. *)
Lemma news_settles w w' news p c rest :
  Core w' -> settled w' = settled w ++ news ->
  calls_on p news = c :: rest ->
  rest = [] /\ promises w' !! p = Some (outcome c) /\ outcome c <> Pending.
Proof.
  intros Hcore Elog Hc.
  assert (calls_on p (settled w') = calls_on p (settled w) ++ c :: rest)
    as Hcalls.
  { rewrite Elog. unfold calls_on in *. by rewrite filter_app, Hc. }
  assert (c ∈ settled w' /\ on_promise c = p) as [Hin Hp].
  { assert (c ∈ calls_on p news) as Hin by (rewrite Hc; left).
    apply list_elem_of_filter in Hin as [? ?]. split; [|done].
    rewrite Elog. apply elem_of_app. by right. }
  pose proof (core_log _ Hcore _ Hin) as Hlt. rewrite Hp in Hlt.
  destruct (core_promise _ Hcore p Hlt)
    as [(h & c' & Hc' & Hr)|(how & o & Hl & Ho & Hne & _)].
  - destruct (core_timer _ Hcore _ _ Hc') as (_ & _ & Hnil).
    rewrite Hr, Hcalls in Hnil. by destruct (calls_on p (settled w)).
  - rewrite Hcalls in Hl.
    destruct (calls_on p (settled w)) as [|x [|y l]]; simplify_eq/=.
    rewrite H. simpl. done.
Qed.

Lemma news_keeps_pending w w' news p :
  Core w -> Core w' -> settled w' = settled w ++ news ->
  (length (promises w) <= length (promises w'))%nat ->
  promises w !! p = Some Pending -> calls_on p news = [] ->
  promises w' !! p = Some Pending.
Proof.
  intros Hcore Hcore' Elog Hlen Hpend Hnil.
  pose proof (lookup_lt_Some _ _ _ Hpend) as Hlt.
  assert (calls_on p (settled w) = []) as Hold.
  { destruct (core_promise _ Hcore p Hlt)
      as [(h & c & Hc & Hr)|(how & o & _ & Ho & Hne & _)]; [|congruence].
    destruct (core_timer _ Hcore _ _ Hc) as (_ & _ & ?). by rewrite <- Hr. }
  destruct (core_promise _ Hcore' p ltac:(lia))
    as [(h & c & Hc & Hr)|(how & o & Hl & _)].
  - destruct (core_timer _ Hcore' _ _ Hc) as (_ & ? & _). by rewrite <- Hr.
  - rewrite Elog in Hl. unfold calls_on in *.
    rewrite filter_app, Hold, Hnil in Hl. done.
Qed.

Lemma news_after_settled w w' news p o :
  Core w -> Core w' -> settled w' = settled w ++ news ->
  (length (promises w) <= length (promises w'))%nat ->
  promises w !! p = Some o -> o <> Pending ->
  calls_on p news = [] /\ promises w' !! p = Some o.
Proof.
  intros Hcore Hcore' Elog Hlen Ho Hne.
  pose proof (lookup_lt_Some _ _ _ Ho) as Hlt.
  destruct (core_promise _ Hcore p Hlt)
    as [(h & c & Hc & Hr)|(how & o1 & Hl & Ho1 & _)].
  { destruct (core_timer _ Hcore _ _ Hc) as (_ & ? & _). congruence. }
  assert (o1 = o) as -> by congruence.
  destruct (core_promise _ Hcore' p ltac:(lia))
    as [(h & c & Hc & Hr)|(how' & o' & Hl' & Ho' & _)].
  - destruct (core_timer _ Hcore' _ _ Hc) as (_ & _ & Hnil).
    rewrite Hr, Elog in Hnil. unfold calls_on in *.
    rewrite filter_app, Hl in Hnil. done.
  - rewrite Elog in Hl'. unfold calls_on in *.
    rewrite filter_app, Hl in Hl'. simpl in Hl'.
    injection Hl' as E1 E2. split; [done|]. congruence.
Qed.

End LogFacts.

(** * Properties of the webview message handler *)

Section WebviewFacts.
Import Manager Bookkeeping Webview.

Lemma posts_of_cons k ks o :
  posts_of (k :: ks) o =
  reply (view k) (awaited k) (error_prefix k) o ++ posts_of ks o.
Proof. reflexivity. Qed.

Lemma foldl_resume ks o u :
  foldl (fun u k => resume k o u) u ks =
  {| world := world u; awaiting := awaiting u;
     posted := posted u ++ posts_of ks o |}.
Proof.
  revert u. induction ks as [|k ks IH]; intros u.
  - destruct u. simpl. by rewrite app_nil_r.
  - rewrite posts_of_cons. simpl. rewrite IH.
    destruct o; simpl; by rewrite <- ?app_assoc.
Qed.

Lemma react_eq u c :
  react u c =
  {| world := world u;
     awaiting := filter (fun k => awaited k <> on_promise c) (awaiting u);
     posted := posted u ++
               posts_of (filter (fun k => awaited k = on_promise c)
                           (awaiting u)) (outcome c) |}.
Proof. unfold react. by rewrite foldl_resume. Qed.

Lemma posts_of_other ks o p :
  Forall (fun k => awaited k <> p) ks ->
  filter (fun x => for_call x = p) (posts_of ks o) = [].
Proof.
  induction 1 as [|k ks Hk _ IH]; [done|].
  rewrite posts_of_cons, filter_app, IH, app_nil_r.
  destruct o; simpl; try done; by rewrite filter_cons_False.
Qed.

Lemma reply_for view p prefix o :
  filter (fun x => for_call x = p) (reply view p prefix o) =
  reply view p prefix o.
Proof. destruct o; simpl; try done; by rewrite filter_cons_True. Qed.

Lemma react_other u c p :
  on_promise c <> p ->
  world (react u c) = world u /\
  waiting_on p (react u c) = waiting_on p u /\
  replies_for p (react u c) = replies_for p u.
Proof.
  intros Hne. rewrite react_eq. unfold waiting_on, replies_for. simpl.
  split; [done|]. split.
  - rewrite list_filter_filter. apply list_filter_iff.
    intros k. split; [by intros [? _]|]. intros E. split; congruence.
  - rewrite filter_app, posts_of_other, app_nil_r; [done|].
    apply Forall_forall. intros k [E _]%list_elem_of_filter. congruence.
Qed.

Lemma react_same u c p k :
  on_promise c = p -> awaited k = p ->
  waiting_on p u = [] \/ waiting_on p u = [k] ->
  world (react u c) = world u /\
  waiting_on p (react u c) = [] /\
  replies_for p (react u c) =
    replies_for p u ++
    match waiting_on p u with
    | [] => []
    | _ => reply (view k) p (error_prefix k) (outcome c)
    end.
Proof.
  intros E Ek Hw. rewrite react_eq. unfold waiting_on, replies_for in *.
  simpl. rewrite E. split; [done|]. split.
  - rewrite list_filter_filter. clear Hw.
    induction (awaiting u) as [|x l IH]; [done|].
    rewrite filter_cons. case_decide as Hx; [tauto|done].
  - rewrite filter_app.
    destruct Hw as [-> | ->]; [done|].
    rewrite posts_of_cons. unfold posts_of. simpl.
    rewrite app_nil_r, Ek, reply_for. done.
Qed.

(** How the reactions of a turn treat the continuation of call [p]. *)
Lemma reactions p k news :
  awaited k = p ->
  forall u,
    waiting_on p u = [] \/ waiting_on p u = [k] ->
    world (foldl react u news) = world u /\
    match waiting_on p u, calls_on p news with
    | [], _ | _, [] =>
        waiting_on p (foldl react u news) = waiting_on p u /\
        replies_for p (foldl react u news) = replies_for p u
    | _, c :: _ =>
        waiting_on p (foldl react u news) = [] /\
        replies_for p (foldl react u news) =
          replies_for p u ++ reply (view k) p (error_prefix k) (outcome c)
    end.
Proof.
  intros Ek. induction news as [|c news IH]; intros u Hw.
  - simpl. split; [done|]. by destruct (waiting_on p u).
  - simpl. unfold calls_on in *. rewrite filter_cons.
    destruct (decide (on_promise c = p)) as [E|Hne].
    + destruct (react_same u c p k E Ek Hw) as (Ew & Hw1 & Hr1).
      destruct (IH (react u c) (or_introl Hw1)) as (Ew' & H).
      rewrite Hw1 in H. destruct H as [Hw2 Hr2].
      split; [congruence|].
      destruct (waiting_on p u) as [|k0 l] eqn:Hwu.
      * rewrite app_nil_r in Hr1. split; congruence.
      * split; congruence.
    + destruct (react_other u c p Hne) as (Ew & Hw1 & Hr1).
      destruct (IH (react u c)) as (Ew' & H); [by rewrite Hw1|].
      rewrite Hw1, Hr1 in H. split; [congruence|]. done.
Qed.

Lemma getRequestManager_manager io w :
  Inv w -> Paired w ->
  is_Some (managers (getRequestManager io w).2
             !! (getRequestManager io w).1) /\
  promises (getRequestManager io w).2 = promises w.
Proof.
  intros Hinv Hp. split; [|apply getRequestManager_promises].
  destruct (requestManager w) as [m|] eqn:Hm.
  - destruct (paired_current w m Hinv Hp Hm) as (_ & Hu & this & Hthis & _).
    rewrite (getRequestManager_keeps io w m) by done. simpl. eauto.
  - destruct (getRequestManager_rebuilds io w) as (p & H); [by left|].
    destruct (getRequestManager io w) as [m' w'].
    destruct H as (-> & _ & _ & Ems & _). simpl.
    rewrite Ems, lookup_app_r, Nat.sub_diag by lia. eauto.
Qed.

Lemma sendToPython_returns method params io w :
  Inv w -> Paired w ->
  (sendToPython method params io w).1 = length (promises w) /\
  length (promises (sendToPython method params io w).2) =
    S (length (promises w)).
Proof.
  intros Hinv Hp. unfold sendToPython.
  destruct (getRequestManager_manager io w Hinv Hp) as [Hm Eps].
  destruct (getRequestManager io w) as [m w']. simpl in *.
  rewrite <- Eps. by apply sendRequest_returns.
Qed.

Lemma handleWebviewMessage_dispatch message view io u :
  handleWebviewMessage message view io u =
  match dispatch message with
  | Some (method, prefix) => await_call method prefix message view io u
  | None => u
  end.
Proof.
  unfold handleWebviewMessage, dispatch.
  destruct message; try done;
    destruct (get_prop _ _) as [[]|]; try done;
    repeat case_decide; done.
Qed.

Lemma foldl_react_world news u : world (foldl react u news) = world u.
Proof.
  revert u. induction news as [|c news IH]; intros u; [done|].
  simpl. rewrite IH, react_eq. done.
Qed.

(** The callback of a turn: at most one call, whose continuation waits
    on the promise the call created. *)
Lemma callback_shape u e :
  Inv (world u) -> Paired (world u) ->
  posted (callback u e) = posted u /\
  world (callback u e) =
    match call_of e with
    | Some ev => Manager.step (world u) ev
    | None => world u
    end /\
  exists extra,
    awaiting (callback u e) = awaiting u ++ extra /\
    Forall (fun k => awaited k = length (promises (world u)) /\
                     (awaited k < length (promises (world (callback u e))))%nat)
           extra.
Proof.
  intros Hinv Hp. destruct e as [view message io|ev]; simpl.
  - rewrite handleWebviewMessage_dispatch.
    destruct (dispatch message) as [[method prefix]|];
      [|repeat split; exists []; by rewrite app_nil_r].
    unfold await_call.
    change (Manager.step (world u)
              (Call method (get_prop message (str "params")) io))
      with (sendToPython method (get_prop message (str "params")) io
              (world u)).2.
    destruct (sendToPython_returns method
                (get_prop message (str "params")) io (world u) Hinv Hp)
      as [E1 E2].
    destruct (sendToPython _ _ _ _) as [p w]. simpl in *.
    repeat split. eexists. split; [done|]. repeat constructor; simpl; lia.
  - repeat split. exists []. by rewrite app_nil_r.
Qed.

Lemma callback_world u e :
  Inv (world u) -> Paired (world u) ->
  Inv (world (callback u e)) /\ Paired (world (callback u e)) /\
  evolves (world u) (world (callback u e)) /\
  exists news,
    settled (world (callback u e)) = settled (world u) ++ news.
Proof.
  intros Hinv Hp.
  destruct (callback_shape u e Hinv Hp) as (_ & -> & _).
  destruct (call_of e) as [ev|].
  - split; [by apply step_inv|]. split; [by apply step_paired|].
    split; [apply step_evolves|apply step_log].
  - split; [done|]. split; [done|]. split; [apply evolves_refl|].
    exists []. by rewrite app_nil_r.
Qed.

Lemma step_world u e :
  Inv (world u) -> Paired (world u) ->
  Inv (world (step u e)) /\ Paired (world (step u e)).
Proof.
  intros Hinv Hp. unfold step. rewrite foldl_react_world.
  by destruct (callback_world u e Hinv Hp) as (? & ? & _).
Qed.

Lemma run_world u es :
  Inv (world u) -> Paired (world u) ->
  Inv (world (run u es)) /\ Paired (world (run u es)).
Proof.
  revert u. induction es as [|e es IH]; intros u Hinv Hp; [done|].
  simpl. destruct (step_world u e Hinv Hp). by apply IH.
Qed.

Lemma react_known u c : Known u -> Known (react u c).
Proof.
  intros [Ha Hp]. rewrite react_eq. split; simpl.
  - apply Forall_forall. intros k [_ Hk]%list_elem_of_filter.
    rewrite Forall_forall in Ha. auto.
  - apply Forall_app. split; [done|].
    apply Forall_forall. intros x Hx. unfold posts_of in Hx.
    apply list_elem_of_bind in Hx as (k & Hx & Hk).
    apply list_elem_of_filter in Hk as [_ Hk].
    rewrite Forall_forall in Ha. specialize (Ha k Hk).
    destruct (outcome c); simpl in Hx;
      [by apply elem_of_nil in Hx|..];
      apply list_elem_of_singleton in Hx as ->; done.
Qed.

Lemma step_known u e :
  Inv (world u) -> Paired (world u) -> Known u -> Known (step u e).
Proof.
  intros Hinv Hp [Ha Hpo]. unfold step.
  destruct (callback_shape u e Hinv Hp) as (Epo & _ & extra & Ea & Hex).
  destruct (callback_world u e Hinv Hp) as (_ & _ & (Hlen & _) & _).
  assert (Known (callback u e)) as Hk.
  { split.
    - rewrite Ea. apply Forall_app. split.
      + eapply Forall_impl; [exact Ha|]. simpl. intros; lia.
      + eapply Forall_impl; [exact Hex|]. simpl. by intros k [_ ?].
    - rewrite Epo. eapply Forall_impl; [exact Hpo|]. simpl. intros; lia. }
  generalize (drop (length (settled (world u)))
                (settled (world (callback u e)))).
  intros news. revert Hk. generalize (callback u e).
  induction news as [|c news IH]; intros u0 Hk; [done|].
  simpl. apply IH. by apply react_known.
Qed.

Lemma run_known es :
  Inv (world (run init es)) /\ Paired (world (run init es)) /\
  Known (run init es).
Proof.
  assert (forall u, Inv (world u) -> Paired (world u) -> Known u ->
            Inv (world (run u es)) /\ Paired (world (run u es)) /\
            Known (run u es)) as H.
  { induction es as [|e es IH]; intros u Hinv Hp Hk; [done|].
    simpl. destruct (step_world u e Hinv Hp).
    apply IH; [done..|]. by apply step_known. }
  apply H; [apply init_inv|apply init_paired|]. split; constructor.
Qed.

Lemma sendToPython_timer method params io w h c :
  Inv w -> Paired w ->
  timers (sendToPython method params io w).2 !! h = Some c ->
  tc_reject c = length (promises w) ->
  tc_method c = method /\ tc_timeoutMs c = 10000.
Proof.
  intros Hinv Hp. unfold sendToPython.
  destruct (getRequestManager_manager io w Hinv Hp) as [[this Hm] Eps].
  pose proof (getRequestManager_core io w (proj1 Hinv)) as Hcore.
  destruct (getRequestManager io w) as [m w']. simpl in *.
  intros Hc Hr.
  destruct (sendRequest_timers _ _ _ _ _ _ _ _ Hm Hc) as [-> |Hold];
    [done|].
  destruct (core_timer _ Hcore _ _ Hold) as (_ & Hlt%lookup_lt_Some & _).
  rewrite Eps in Hlt. lia.
Qed.

Lemma turn_answered u e p view method prefix :
  Inv (world u) -> Paired (world u) ->
  answered_once u p view method prefix ->
  answered_once (step u e) p view method prefix.
Proof.
  intros Hinv Hp Hans.
  destruct (callback_shape u e Hinv Hp) as (Epo & _ & extra & Ea & Hex).
  destruct (callback_world u e Hinv Hp)
    as ([Hcore1 _] & _ & Hev & news & Elog).
  pose proof Hev as (Hlen & Htim & _).
  destruct Hinv as [Hcore _].
  unfold step. rewrite Elog, drop_app_length.
  set (u1 := callback u e) in *.
  set (k := {| awaited := p; view := view; error_prefix := prefix |}).
  assert (p < length (promises (world u)))%nat as Hlt.
  { destruct Hans as [(H & _)|(o & H & _)]; by eapply lookup_lt_Some. }
  assert (waiting_on p u1 = waiting_on p u) as Ew1.
  { unfold waiting_on. rewrite Ea, filter_app.
    rewrite (filter_none _ extra), app_nil_r; [done|].
    eapply Forall_impl; [exact Hex|]. simpl. intros x [Hx _]. lia. }
  assert (replies_for p u1 = replies_for p u) as Er1.
  { unfold replies_for. by rewrite Epo. }
  destruct Hans as [(Hpend & Hrep & Hwait & h & c & Hc & Hr & Hm & Ht)
                   |(o & Ho & Hne & Hrep & Hwait)].
  - destruct (reactions p k news eq_refl u1) as (Ew & H);
      [right; by rewrite Ew1|].
    rewrite Ew1, Hwait, Er1, Hrep in H. unfold answered_once. rewrite Ew.
    destruct (calls_on p news) as [|c0 rest] eqn:Hcalls.
    + left. destruct H as [Hw' Hr'].
      pose proof (news_keeps_pending _ _ _ _ Hcore Hcore1 Elog Hlen Hpend
                    Hcalls) as Hpend1.
      split; [done|]. split; [done|]. split; [done|].
      destruct (core_promise _ Hcore1 p ltac:(lia))
        as [(h1 & c1 & Hc1 & Hr1)|(? & o & _ & Ho & Hne & _)];
        [|congruence].
      exists h1, c1. split; [done|]. split; [done|].
      destruct (Htim _ _ Hc1) as [Hold|Hnew]; [|lia].
      assert (h1 = h) as ->
        by (apply (core_inj _ Hcore h1 h c1 c Hold Hc); congruence).
      assert (c1 = c) as -> by congruence. done.
    + right. destruct H as [Hw' Hr'].
      destruct (news_settles _ _ _ _ _ _ Hcore1 Elog Hcalls)
        as (_ & Ho & Hne).
      exists (outcome c0). done.
  - destruct (reactions p k news eq_refl u1) as (Ew & H);
      [left; by rewrite Ew1|].
    rewrite Ew1, Hwait, Er1, Hrep in H. destruct H as [Hw' Hr'].
    destruct (news_after_settled _ _ _ _ _ Hcore Hcore1 Elog Hlen Ho Hne)
      as [_ Ho1].
    right. exists o. rewrite Ew. done.
Qed.

Lemma message_answered u view message io method prefix :
  Inv (world u) -> Paired (world u) -> Known u ->
  dispatch message = Some (method, prefix) ->
  answered_once (step u (Incoming view message io))
    (length (promises (world u))) view method prefix.
Proof.
  intros Hinv Hp [Hka Hkp] Hd.
  set (e := Incoming view message io).
  destruct (callback_world u e Hinv Hp)
    as ([Hcore1 _] & _ & _ & news & Elog).
  set (p := length (promises (world u))).
  set (k := {| awaited := p; view := view; error_prefix := prefix |}).
  pose proof (sendToPython_returns method (get_prop message (str "params"))
                io (world u) Hinv Hp) as [E1 E2].
  pose proof (sendToPython_timer method (get_prop message (str "params"))
                io (world u)) as Htimer.
  assert (callback u e =
          {| world := (sendToPython method
                         (get_prop message (str "params")) io (world u)).2;
             awaiting := awaiting u ++ [k]; posted := posted u |}) as Ecb.
  { unfold e. simpl. rewrite handleWebviewMessage_dispatch, Hd.
    unfold await_call.
    destruct (sendToPython _ _ _ _) as [p0 w0]. simpl in *. by subst p0. }
  unfold step. rewrite Elog, drop_app_length.
  rewrite Ecb in *. simpl in *.
  set (w1 := (sendToPython method (get_prop message (str "params")) io
                (world u)).2) in *.
  set (u1 := {| world := w1; awaiting := awaiting u ++ [k];
                posted := posted u |}).
  assert (waiting_on p u1 = [k]) as Hwait.
  { unfold waiting_on. simpl. rewrite filter_app.
    rewrite (filter_none _ (awaiting u)); [by rewrite filter_cons_True|].
    eapply Forall_impl; [exact Hka|]. simpl. unfold p. intros; lia. }
  assert (replies_for p u1 = []) as Hrep.
  { unfold replies_for. simpl. apply filter_none.
    eapply Forall_impl; [exact Hkp|]. simpl. unfold p. intros; lia. }
  assert (calls_on p (settled (world u)) = []) as Hold.
  { apply calls_on_nil. intros c Hc.
    pose proof (core_log _ (proj1 Hinv) _ Hc). unfold p. lia. }
  destruct (reactions p k news eq_refl u1) as (Ew & H); [by right|].
  rewrite Hwait, Hrep in H. unfold answered_once. rewrite Ew. simpl.
  destruct (calls_on p news) as [|c0 rest] eqn:Hcalls.
  - left. destruct H as [Hw' Hr'].
    destruct (core_promise _ Hcore1 p ltac:(unfold p; lia))
      as [(h1 & c1 & Hc1 & Hr1)|(? & o & Hl & _)].
    + destruct (core_timer _ Hcore1 _ _ Hc1) as (_ & Hpend & _).
      rewrite Hr1 in Hpend. split; [done|]. split; [done|].
      split; [done|]. exists h1, c1. split; [done|]. split; [done|].
      exact (Htimer h1 c1 Hinv Hp Hc1 Hr1).
    + rewrite Elog in Hl. unfold calls_on in *.
      rewrite filter_app, Hold, Hcalls in Hl. done.
  - right. destruct H as [Hw' Hr'].
    destruct (news_settles _ _ _ _ _ _ Hcore1 Elog Hcalls) as (_ & Ho & Hne).
    exists (outcome c0). done.
Qed.

Lemma run_answered es u p view method prefix :
  Inv (world u) -> Paired (world u) ->
  answered_once u p view method prefix ->
  answered_once (run u es) p view method prefix.
Proof.
  revert u. induction es as [|e es IH]; intros u Hinv Hp H; [done|].
  simpl. destruct (step_world u e Hinv Hp).
  apply IH; [done..|]. by apply turn_answered.
Qed.

Lemma answered_after es1 es2 view message io method prefix :
  dispatch message = Some (method, prefix) ->
  Inv (world (run (run init es1) (Incoming view message io :: es2))) /\
  Paired (world (run (run init es1) (Incoming view message io :: es2))) /\
  answered_once
    (run (run init es1) (Incoming view message io :: es2))
    (length (promises (world (run init es1)))) view method prefix.
Proof.
  intros Hd. destruct (run_known es1) as (Hinv & Hp & Hk). simpl.
  destruct (step_world _ (Incoming view message io) Hinv Hp) as [Hinv1 Hp1].
  destruct (run_world _ es2 Hinv1 Hp1) as [Hinv2 Hp2].
  split; [done|]. split; [done|].
  apply run_answered; [done..|]. by apply message_answered.
Qed.

Lemma answered_settled u p view method prefix o :
  answered_once u p view method prefix ->
  promises (world u) !! p = Some o -> o <> Pending ->
  replies_for p u = reply view p prefix o /\ waiting_on p u = [].
Proof.
  intros [(Hpend & _)|(o' & Ho' & _ & Hrep & Hw)] Ho Hne; [congruence|].
  assert (o' = o) as -> by congruence. done.
Qed.

Lemma answered_pending u p view method prefix h c :
  Core (world u) ->
  answered_once u p view method prefix ->
  timers (world u) !! h = Some c -> tc_reject c = p ->
  tc_method c = method /\ tc_timeoutMs c = 10000 /\
  replies_for p u = [].
Proof.
  intros Hcore Hans Hc Hr.
  destruct (core_timer _ Hcore _ _ Hc) as (_ & Hpend & _).
  rewrite Hr in Hpend.
  destruct Hans as [(_ & Hrep & _ & h' & c' & Hc' & Hr' & Hm & Ht)
                   |(o & Ho & Hne & _)]; [|congruence].
  assert (h' = h) as ->
    by (apply (core_inj _ Hcore h' h c' c Hc' Hc); congruence).
  assert (c' = c) as -> by congruence. done.
Qed.

Lemma runtime_world u e :
  world (step u (Runtime e)) = Manager.step (world u) e.
Proof. unfold step. by rewrite foldl_react_world. Qed.

(** X9.  A webview message whose [command] is [sayHello] or
    [processPath] makes one call ([say_hello] or [process_path], with
    [message.params]) and, whatever events follow, is in one of two
    states: its call is pending, its continuation is waiting, nothing
    has been posted for it and a timer of 10000 ms carrying the method
    is armed; or the call is settled and exactly one message has been
    posted for it, to the view the message came from:
    [{type: 'result', data}] with the value the call was fulfilled
    with, or [{type: 'error', data}] with the prefix of the command's
    [catch] clause before the value it was rejected with. *)
Theorem webview_message_answered_once (es1 es2 : list event)
    (view : nat) (message : json) (io : Stdio)
    (method prefix : jsstring) :
  dispatch message = Some (method, prefix) ->
  answered_once
    (run (run init es1) (Incoming view message io :: es2))
    (length (promises (world (run init es1)))) view method prefix.
Proof.
  intros Hd. destruct (run_known es1) as (Hinv & Hp & Hk). simpl.
  destruct (step_world _ (Incoming view message io) Hinv Hp) as [Hinv1 Hp1].
  apply run_answered; [exact Hinv1|exact Hp1|].
  by apply message_answered.
Qed.

Lemma webview_message_answered_once_witness :
  dispatch path_message =
    Some (str "process_path", str "Error processing path: ") /\
  answered_once
    (run (run init [])
       [Incoming 7 path_message piped; Runtime (StdoutData 0 error_chunk)])
    (length (promises (world (run init [])))) 7
    (str "process_path") (str "Error processing path: ").
Proof.
  split; [vm_compute; reflexivity|].
  apply (webview_message_answered_once []
           [Runtime (StdoutData 0 error_chunk)] 7 path_message piped).
  vm_compute; reflexivity.
Defined.

(** X10.  If the timer of the call made for a webview message fires,
    the view receives one error message, whose text is the command's
    prefix followed by the timeout error of [sendRequest], which names
    the call's identifier, its method and the 10000 ms of
    [sendToPython]. *)
Theorem webview_timeout_reply (es1 es2 : list event) (view : nat)
    (message : json) (io : Stdio) (method prefix : jsstring) (h : nat)
    (c : TimeoutClosure) :
  dispatch message = Some (method, prefix) ->
  timers (world (run (run init es1) (Incoming view message io :: es2)))
    !! h = Some c ->
  tc_reject c = length (promises (world (run init es1))) ->
  replies_for (length (promises (world (run init es1))))
    (step (run (run init es1) (Incoming view message io :: es2))
       (Runtime (TimeoutFires h))) =
  [{| to_view := view;
      for_call := length (promises (world (run init es1)));
      content :=
        ErrorMessage prefix
          (ReasonError (timeout_message (tc_id c) method 10000)) |}].
Proof.
  intros Hd Hc Hr.
  destruct (answered_after es1 es2 view message io _ _ Hd)
    as (Hinv & Hp & Hans).
  set (u := run (run init es1) (Incoming view message io :: es2)) in *.
  set (p := length (promises (world (run init es1)))) in *.
  destruct (answered_pending _ _ _ _ _ _ _ (proj1 Hinv) Hans Hc Hr)
    as (Hm & Ht & _).
  pose proof (turn_answered u (Runtime (TimeoutFires h)) _ _ _ _
                Hinv Hp Hans) as Hans'.
  destruct (fire_settles _ _ _ (proj1 Hinv) Hc) as (_ & Hrej & _).
  rewrite Hr, Hm, Ht in Hrej.
  change (fire h (world u)) with (Manager.step (world u) (TimeoutFires h))
    in Hrej.
  rewrite <- runtime_world in Hrej.
  by destruct (answered_settled _ _ _ _ _ _ Hans' Hrej).
Qed.

Lemma webview_timeout_reply_witness :
  dispatch path_message =
    Some (str "process_path", str "Error processing path: ") /\
  timers (world (run (run init []) [Incoming 7 path_message piped]))
    !! 0%nat = Some path_timer /\
  tc_reject path_timer = length (promises (world (run init []))) /\
  replies_for (length (promises (world (run init []))))
    (step (run (run init []) [Incoming 7 path_message piped])
       (Runtime (TimeoutFires 0))) =
  [{| to_view := 7;
      for_call := length (promises (world (run init [])));
      content :=
        ErrorMessage (str "Error processing path: ")
          (ReasonError
             (timeout_message (tc_id path_timer) (str "process_path")
                10000)) |}].
Proof.
  split; [vm_compute; reflexivity|]. split; [vm_compute; reflexivity|].
  split; [reflexivity|].
  apply (webview_timeout_reply [] [] 7 path_message piped);
    [vm_compute; reflexivity|vm_compute; reflexivity|reflexivity].
Defined.

(** X11.  If a chunk on the worker's stdout answers the call made for
    a webview message, the view receives one message: the result
    message with the envelope's result if it has one, the error message
    with the command's prefix before the envelope's error (or before the
    malformed-response text) otherwise. *)
Theorem webview_response_reply (es1 es2 : list event) (view : nat)
    (message : json) (io : Stdio) (method prefix : jsstring) (m : nat)
    (data : jsstring) (response : json) (k : N) (pr : PendingRequest) :
  dispatch message = Some (method, prefix) ->
  stdout_listeners m
    (world (run (run init es1) (Incoming view message io :: es2))) = [m] ->
  answers m data
    (world (run (run init es1) (Incoming view message io :: es2)))
    response k pr ->
  promise pr = length (promises (world (run init es1))) ->
  replies_for (length (promises (world (run init es1))))
    (step (run (run init es1) (Incoming view message io :: es2))
       (Runtime (StdoutData m data))) =
  reply view (length (promises (world (run init es1)))) prefix
    (verdict response).2.
Proof.
  intros Hd Hls Hans Hpr.
  destruct (answered_after es1 es2 view message io _ _ Hd)
    as (Hinv & Hp & Hstate).
  set (u := run (run init es1) (Incoming view message io :: es2)) in *.
  set (p := length (promises (world (run init es1)))) in *.
  pose proof (turn_answered u (Runtime (StdoutData m data)) _ _ _ _
                Hinv Hp Hstate) as Hstate'.
  destruct (verdict_settles response) as [Hne _].
  assert (promises (world (step u (Runtime (StdoutData m data)))) !! p =
          Some (verdict response).2) as Ho;
    [|by destruct (answered_settled _ _ _ _ _ _ Hstate' Ho Hne)].
  rewrite runtime_world. simpl. rewrite Hls. simpl.
  rewrite (handleResponse_matched _ _ _ _ _ _ Hans). simpl.
  destruct Hans as (_ & _ & Hent).
  apply pending_of_Some in Hent as (this & Hthis & Hent).
  destruct (core_entry _ (proj1 Hinv) _ _ _ _ Hthis Hent)
    as (c & Hc & _ & _ & Hr & _).
  destruct (core_timer _ (proj1 Hinv) _ _ Hc) as (_ & Hpend & _).
  rewrite Hr, Hpr in Hpend. rewrite Hpr.
  by apply settle_promise_pending.
Qed.

Lemma webview_response_reply_witness :
  dispatch path_message =
    Some (str "process_path", str "Error processing path: ") /\
  stdout_listeners 0
    (world (run (run init []) [Incoming 7 path_message piped])) =
    [0%nat] /\
  answers 0 error_chunk
    (world (run (run init []) [Incoming 7 path_message piped]))
    error_response 1 {| id := 1; promise := 0; timeout := 0 |} /\
  promise {| id := 1; promise := 0; timeout := 0 |} =
    length (promises (world (run init []))) /\
  replies_for (length (promises (world (run init []))))
    (step (run (run init []) [Incoming 7 path_message piped])
       (Runtime (StdoutData 0 error_chunk))) =
  reply 7 (length (promises (world (run init []))))
    (str "Error processing path: ") (verdict error_response).2.
Proof.
  split; [vm_compute; reflexivity|]. split; [vm_compute; reflexivity|].
  split; [repeat split; vm_compute; reflexivity|]. split; [reflexivity|].
  apply (webview_response_reply [] [] 7 path_message piped
           (str "process_path") (str "Error processing path: ") 0
           error_chunk error_response 1
           {| id := 1; promise := 0; timeout := 0 |});
    [vm_compute; reflexivity|vm_compute; reflexivity
    |repeat split; vm_compute; reflexivity|reflexivity].
Defined.

End WebviewFacts.

(** * Further properties of the legacy bridge *)

Section LegacyWorkerFacts.
Import Legacy LegacyWorker.

Lemma sendToPython_old_promises now method params io w p :
  (p < length (promises w))%nat ->
  promises (sendToPython now method params io w).2 !! p = promises w !! p.
Proof.
  intros Hp.
  pose proof (startPythonProcess_promises io (new_promise w).2) as Eps.
  destruct (sendToPython_cases now method params io w) as [_ Hcases].
  simpl in *.
  destruct Hcases as [(proc & ls & sin & _ & _ & _ & ->)|[[why ->]|[why ->]]];
    simpl; rewrite ?settle_promise_other by lia; rewrite Eps;
    by rewrite lookup_app_l.
Qed.

(** X12.  The legacy bridge has no timeout: a pending call is settled
    by nothing but a chunk on a stdout stream its own handler is
    registered on.  Calls, exits and [deactivate] leave every pending
    call pending. *)
Theorem legacy_settled_only_by_chunk (w : World) (e : event) (p : nat) :
  promises w !! p = Some Pending ->
  promises (step w e) !! p <> Some Pending ->
  exists q data, e = StdoutData q data /\ p ∈ stdout_listeners q w.
Proof.
  intros Hpend Hset. pose proof (lookup_lt_Some _ _ _ Hpend) as Hlt.
  destruct e as [now method params io|q data|q code|]; simpl in Hset.
  - exfalso. apply Hset. by rewrite sendToPython_old_promises.
  - exists q, data. split; [done|].
    destruct (decide (p ∈ stdout_listeners q w)) as [|Hnotin]; [done|].
    exfalso. apply Hset.
    by rewrite emit_data_promises, foldl_settle_other.
  - exfalso. apply Hset.
    by destruct (processes w !! q) as [proc|]; [destruct (exited proc)|].
  - exfalso. apply Hset. unfold deactivate.
    by destruct (pythonProcess w); [destruct (process_usable w)|].
Qed.

Lemma legacy_settled_only_by_chunk_witness :
  promises (two_calls 5 5 (str "say_hello") (str "say_hello") None None)
    !! 0%nat = Some Pending /\
  promises
    (step (two_calls 5 5 (str "say_hello") (str "say_hello") None None)
       (StdoutData 0 (wire "{'result':'ok'}"))) !! 0%nat <> Some Pending /\
  exists q data,
    StdoutData 0 (wire "{'result':'ok'}") = StdoutData q data /\
    0%nat ∈ stdout_listeners q
      (two_calls 5 5 (str "say_hello") (str "say_hello") None None).
Proof.
  split; [vm_compute; reflexivity|]. split; [vm_compute; discriminate|].
  apply legacy_settled_only_by_chunk;
    [vm_compute; reflexivity|vm_compute; discriminate].
Defined.

Lemma dataHandler_failed proc p data w :
  JSON.parse data = None ->
  processes (dataHandler proc p data w) = processes w.
Proof. intros Hparse. unfold dataHandler. by rewrite Hparse. Qed.

Lemma dataHandler_listeners q l data w :
  is_Some (JSON.parse data) ->
  stdout_listeners q (dataHandler q l data w) =
  filter (fun x => x <> l) (stdout_listeners q w).
Proof.
  intros [response Hparse]. unfold dataHandler. rewrite Hparse.
  set (w' := if has_stdout_stream q w then removeListener q l w else w).
  assert (stdout_listeners q w' =
          filter (fun x => x <> l) (stdout_listeners q w)) as Hw'.
  { unfold w', has_stdout_stream, stdout_listeners, removeListener.
    destruct (processes w !! q) as [proc|] eqn:Hproc; [|by rewrite Hproc].
    destruct (stdout proc) as [ls|] eqn:Hls; simpl.
    - rewrite list_lookup_alter_eq, Hproc. simpl. by rewrite Hls.
    - by rewrite Hproc, Hls. }
  rewrite <- Hw'. unfold stdout_listeners.
  destruct response; simpl; try done;
    (destruct (assoc_last (str "result") fields); [done|];
     destruct (assoc_last (str "error") fields) as [error|]; [|done];
     by destruct (truthy error)).
Qed.

Lemma emit_data_listeners q ls data w :
  is_Some (JSON.parse data) ->
  stdout_listeners q (emit_data q ls data w) =
  filter (fun x => x ∉ ls) (stdout_listeners q w).
Proof.
  intros Hparse. unfold emit_data. revert w.
  induction ls as [|l ls IH]; intros w; simpl.
  - induction (stdout_listeners q w) as [|x l IH]; [done|].
    rewrite filter_cons_True by apply not_elem_of_nil. by rewrite <- IH.
  - rewrite IH, dataHandler_listeners, list_filter_filter by done.
    apply list_filter_iff. intros x. rewrite not_elem_of_cons. tauto.
Qed.

(** X13.  What a chunk does to the legacy handlers of a worker.  A
    chunk that [JSON.parse] rejects leaves every handler registered
    (each has rejected its call and will run again on the next chunk);
    a chunk that parses, whatever it holds, leaves no handler on that
    worker's stdout. *)
Theorem legacy_listeners_after_chunk (w : World) (q : nat)
    (data : jsstring) :
  listeners_after_chunk w q data.
Proof.
  split; simpl.
  - intros Hparse. unfold emit_data.
    generalize (stdout_listeners q w). intros ls. revert w.
    induction ls as [|l ls IH]; intros w; [done|].
    simpl. by rewrite IH, dataHandler_failed.
  - intros Hparse. rewrite emit_data_listeners by done.
    apply filter_none, Forall_forall. intros x Hx Hn. by apply Hn.
Qed.

Lemma legacy_globals_alter (w w' : World) f q :
  LegacyGlobals w -> pythonProcess w' = pythonProcess w ->
  processes w' = alter f q (processes w) ->
  (forall proc, killed (f proc) = killed proc) -> LegacyGlobals w'.
Proof.
  unfold LegacyGlobals. intros H -> -> Hf p Hp.
  destruct (H p Hp) as (proc & Hproc & Hk).
  destruct (decide (q = p)) as [->|Hne].
  - exists (f proc). rewrite list_lookup_alter_eq, Hproc, Hf. done.
  - exists proc. rewrite list_lookup_alter_ne by done. done.
Qed.

Lemma legacy_usable w p :
  LegacyGlobals w -> pythonProcess w = Some p -> process_usable w = true.
Proof.
  intros H Hp. unfold process_usable. rewrite Hp.
  destruct (H p Hp) as (proc & -> & ->). done.
Qed.

Lemma startPythonProcess_globals io w :
  LegacyGlobals w -> LegacyGlobals (startPythonProcess io w).2.
Proof.
  intros Hg. unfold startPythonProcess.
  assert (LegacyGlobals
            (set_pythonProcess (Some (length (processes w)))
               (set_processes (processes w ++ [spawn io]) w))) as Hnew.
  { intros p [= <-]. exists (spawn io). simpl.
    rewrite lookup_app_r, Nat.sub_diag by lia. done. }
  destruct (pythonProcess w); [destruct (process_usable w)|]; done.
Qed.

Lemma dataHandler_globals proc p data w :
  LegacyGlobals w -> LegacyGlobals (dataHandler proc p data w).
Proof.
  intros Hg.
  assert (LegacyGlobals (if has_stdout_stream proc w
                   then removeListener proc p w else w)) as Hg'.
  { destruct (has_stdout_stream proc w); [|done].
    eapply legacy_globals_alter; [exact Hg|reflexivity..|done]. }
  unfold dataHandler.
  destruct (JSON.parse data) as [response|]; [|done].
  destruct response; simpl; try done;
    (destruct (assoc_last (str "result") fields); [done|];
     destruct (assoc_last (str "error") fields) as [error|]; [|done];
     by destruct (truthy error)).
Qed.

Lemma sendToPython_globals now method params io w :
  LegacyGlobals w -> LegacyGlobals (sendToPython now method params io w).2.
Proof.
  intros Hg.
  assert (LegacyGlobals (new_promise w).2) as Hg0 by done.
  pose proof (startPythonProcess_globals io _ Hg0) as Hg1.
  destruct (sendToPython_cases now method params io w) as [_ Hcases].
  set (w1 := (startPythonProcess io (new_promise w).2).2) in *.
  set (q := (startPythonProcess io (new_promise w).2).1) in *.
  assert (LegacyGlobals
            (set_processes
               (alter (with_stdout (fun ls => ls ++ [length (promises w)]))
                  q (processes w1)) w1)) as Hg2.
  { eapply legacy_globals_alter; [exact Hg1|reflexivity..|done]. }
  destruct Hcases as [(proc & ls & sin & _ & _ & _ & ->)|[[why ->]|[why ->]]];
    try done.
  eapply legacy_globals_alter; [exact Hg2|reflexivity..|done].
Qed.

Lemma legacy_step_globals w e : LegacyGlobals w -> LegacyGlobals (step w e).
Proof.
  intros Hg. destruct e as [now method params io|q data|q code|]; simpl.
  - by apply sendToPython_globals.
  - unfold emit_data. generalize (stdout_listeners q w). intros ls.
    revert w Hg. induction ls as [|l ls IH]; intros w Hg; [done|].
    simpl. by apply IH, dataHandler_globals.
  - by destruct (processes w !! q) as [proc|]; [destruct (exited proc)|].
  - unfold deactivate. destruct (pythonProcess w) as [p|] eqn:Hp; [|done].
    rewrite (legacy_usable w p) by done. intros p' Hp'. done.
Qed.

Lemma legacy_run_globals es : LegacyGlobals (run init es).
Proof.
  assert (forall w, LegacyGlobals w -> LegacyGlobals (run w es)) as H.
  { induction es as [|e es IH]; intros w Hg; [done|].
    simpl. by apply IH, legacy_step_globals. }
  apply H. intros p Hp. done.
Qed.

(** X14.  In the legacy bridge, while [pythonProcess] is set, a call
    spawns no process: the worker in place stays the current one and
    receives the call. *)
Theorem legacy_call_reuses_worker (es : list event) (p : nat) (now : N)
    (method : jsstring) (params : option json) (io : Stdio) :
  pythonProcess (run init es) = Some p ->
  legacy_reuses_worker (run init es) p now method params io.
Proof.
  intros Hp. set (w := run init es) in *.
  pose proof (legacy_run_globals es) as Hg. fold w in Hg.
  assert (startPythonProcess io (new_promise w).2 = (p, (new_promise w).2))
    as Es.
  { assert (process_usable (new_promise w).2 = true) as Hu
      by apply (legacy_usable w p Hg Hp).
    assert (pythonProcess (new_promise w).2 = Some p) as Hp' by exact Hp.
    unfold startPythonProcess. by rewrite Hp', Hu. }
  destruct (sendToPython_cases now method params io w) as [E1 Hcases].
  rewrite Es in Hcases. simpl in Hcases, E1.
  unfold legacy_reuses_worker. simpl. rewrite E1.
  destruct Hcases as [(proc & ls & sin & _ & _ & _ & ->)|[[why ->]|[why ->]]];
    simpl; rewrite ?length_alter; done.
Qed.

Lemma legacy_call_reuses_worker_witness :
  pythonProcess (run init [Call 5 (str "say_hello") None piped]) =
    Some 0%nat /\
  legacy_reuses_worker (run init [Call 5 (str "say_hello") None piped]) 0
    6 (str "say_hello") None piped.
Proof.
  split; [vm_compute; reflexivity|].
  apply legacy_call_reuses_worker. vm_compute; reflexivity.
Defined.

End LegacyWorkerFacts.

